(** * mini_chess: board, rules engine and one-ply AI

    A shallow embedding of [src/mini_chess.py] (classes [Piece], [Move],
    [Board], [Rules], [SimpleAI], and the control logic of [Game]) and the
    properties of its specification.

    Layout:
    - the value-level model: a [Board] is its 8x8 grid and the side to move;
      the read-only queries ([get], [all_pieces], [material], the rules and
      the AI) are functions of that value, and the controller ([_handle_click],
      [_handle_events], the loop of [run]) is a function of its state and of
      the events it is fed;
    - the object-level model: Python objects live in a store, a [Board]
      instance points to a list of row lists that point to [Piece]
      instances, and [clone_h], [set_h], [move_piece_h] and [choose_move_h]
      are programs over the store, so that aliasing between a board and its
      clone can be stated and excluded. *)

From Stdlib Require Import ZArith Lia.
From stdpp Require Import base list numbers option.

Local Open Scope Z_scope.

(** ** Config & constants *)

Definition ROWS : Z := 8.
Definition COLS : Z := 8.

(** The two colour tags ['w'] and ['b']. *)
Inductive Color := White | Black.

(** The six kind tags ['K'], ['Q'], ['R'], ['B'], ['N'], ['P']. *)
Inductive Kind := King | Queen | Rook | Bishop | Knight | Pawn.

Global Instance Color_eq_dec : EqDecision Color.
Proof. solve_decision. Defined.

Global Instance Kind_eq_dec : EqDecision Kind.
Proof. solve_decision. Defined.

(** [PIECE_VALUES] *)
Definition PIECE_VALUES (k : Kind) : Z :=
  match k with
  | Pawn => 1
  | Knight => 3
  | Bishop => 3
  | Rook => 5
  | Queen => 9
  | King => 0
  end.

(** ** Data structures *)

Record Piece := mkPiece { color : Color; kind : Kind }.

Record Move := mkMove {
  start : Z * Z;
  end_ : Z * Z;
  promotion : option Kind
}.

Global Instance Piece_eq_dec : EqDecision Piece.
Proof. solve_decision. Defined.

Global Instance Move_eq_dec : EqDecision Move.
Proof. solve_decision. Defined.

(** ['b' if c == 'w' else 'w'] *)
Definition other (c : Color) : Color :=
  if decide (c = White) then Black else White.

(** ** Board representation *)

(** [board[r][c]] with [r = 0] at the top (Black side). *)
Record Board := mkBoard {
  board : list (list (option Piece));
  to_move : Color
}.

(** The class invariant: [__init__] builds 8 rows of 8 squares and no method
    changes a length.  Python's [self.board[r][c]] raises [IndexError] on a
    grid that breaks it; the theorems below are stated for boards that
    satisfy it. *)
Definition wf_board (b : Board) : Prop :=
  length (board b) = 8%nat ∧ Forall (λ row, length row = 8%nat) (board b).

Definition back_rank (c : Color) : list (option Piece) :=
  map (λ k, Some (mkPiece c k))
      [Rook; Knight; Bishop; Queen; King; Bishop; Knight; Rook].

Definition pawn_rank (c : Color) : list (option Piece) :=
  replicate 8 (Some (mkPiece c Pawn)).

(** [Board()]: [__init__] followed by [_setup_initial]. *)
Definition initial_board : Board :=
  mkBoard ([back_rank Black; pawn_rank Black]
             ++ replicate 4 (replicate 8 None)
             ++ [pawn_rank White; back_rank White])
          White.

(** [clone]: a new grid, a new [Piece] for every piece. *)
Definition clone (b : Board) : Board :=
  mkBoard
    (map (λ row, map (λ p, match p with
                            | None => None
                            | Some p => Some (mkPiece (color p) (kind p))
                            end) row) (board b))
    (to_move b).

Definition in_bounds (r c : Z) : bool :=
  bool_decide (0 ≤ r < ROWS ∧ 0 ≤ c < COLS).

(** The raw read [self.board[r][c]], used with [0 <= r, c < 8] only. *)
Definition grid_at (b : Board) (r c : Z) : option Piece :=
  match board b !! Z.to_nat r with
  | Some row => match row !! Z.to_nat c with
                | Some o => o
                | None => None
                end
  | None => None
  end.

Definition get (b : Board) (r c : Z) : option Piece :=
  if negb (in_bounds r c) then None else grid_at b r c.

(** Python's list indexing: [i] in [[0, len)] is itself, [i] in [[-len, 0)]
    counts from the end, anything else raises [IndexError] ([None] here). *)
Definition py_index (len : nat) (i : Z) : option nat :=
  if bool_decide (0 ≤ i < Z.of_nat len) then Some (Z.to_nat i)
  else if bool_decide (- Z.of_nat len ≤ i < 0) then Some (Z.to_nat (Z.of_nat len + i))
  else None.

(** [set]: [self.board[r][c] = piece], no bounds check of its own.  [None]
    stands for the [IndexError] of the list access. *)
Definition set (b : Board) (r c : Z) (piece : option Piece) : option Board :=
  ri ← py_index (length (board b)) r;
  row ← board b !! ri;
  ci ← py_index (length row) c;
  Some (mkBoard (<[ri := <[ci := piece]> row]> (board b)) (to_move b)).

(** [move_piece]; [None] when one of the two [set] calls raises. *)
Definition move_piece (b : Board) (mv : Move) : option Board :=
  let '(sr, sc) := start mv in
  let '(er, ec) := end_ mv in
  let piece := get b sr sc in
  b1 ← set b sr sc None;
  b2 ← match promotion mv, piece with
       | Some k, Some p =>
           if decide (kind p = Pawn)
           then set b1 er ec (Some (mkPiece (color p) k))
           else set b1 er ec piece
       | _, _ => set b1 er ec piece
       end;
  Some (mkBoard (board b2) (if decide (to_move b2 = White) then Black else White)).

(** [range(n)] *)
Definition range (n : Z) : list Z := seqZ 0 n.

(** [all_pieces]: the triples the generator yields, in row-major order. *)
Definition all_pieces (b : Board) : list (Z * Z * Piece) :=
  r ← range ROWS;
  c ← range COLS;
  match grid_at b r c with
  | Some p => [(r, c, p)]
  | None => []
  end.

(** [material]: positive if White is better. *)
Definition material (b : Board) : Z :=
  foldl (λ score '(_, _, p),
           let val := PIECE_VALUES (kind p) in
           score + (if decide (color p = White) then val else - val))
        0 (all_pieces b).

(** ** Rules engine *)

Definition KNIGHT_OFFSETS : list (Z * Z) :=
  [(-2,-1); (-2,1); (-1,-2); (-1,2); (1,-2); (1,2); (2,-1); (2,1)].

Definition DIAGONALS : list (Z * Z) := [(-1,-1); (-1,1); (1,-1); (1,1)].

Definition ORTHOGONALS : list (Z * Z) := [(-1,0); (1,0); (0,-1); (0,1)].

(** The nested loops [for dr in (-1,0,1): for dc in (-1,0,1)] with the
    [continue] on [(0,0)]. *)
Definition KING_OFFSETS : list (Z * Z) :=
  dr ← [-1; 0; 1];
  dc ← [-1; 0; 1];
  if bool_decide (dr = 0 ∧ dc = 0) then [] else [(dr, dc)].

(** The walk of a [while board.in_bounds(nr, nc)] loop leaves the board after
    at most eight squares; [WALK_FUEL] bounds the recursion of the two
    walks below ([slider_walk_fuel] and [attack_walk_fuel] show that more
    fuel changes nothing). *)
Definition WALK_FUEL : nat := 8.

Definition pawn_dir (col : Color) : Z :=
  if decide (col = White) then -1 else 1.

Definition pawn_start_row (col : Color) : Z :=
  if decide (col = White) then 6 else 1.

Definition _maybe_promote (mv : Move) (col : Color) (dest_row : Z) : Move :=
  if bool_decide ((col = White ∧ dest_row = 0) ∨ (col = Black ∧ dest_row = 7))
  then mkMove (start mv) (end_ mv) (Some Queen)
  else mv.

Definition _pawn_moves (b : Board) (r c : Z) (col : Color) : list Move :=
  let dir_ := pawn_dir col in
  let start_row := pawn_start_row col in
  let nr := r + dir_ in
  let forward :=
    if in_bounds nr c && bool_decide (get b nr c = None) then
      _maybe_promote (mkMove (r, c) (nr, c) None) col nr ::
      (let nr2 := r + 2 * dir_ in
       if bool_decide (r = start_row) && bool_decide (get b nr2 c = None)
       then [mkMove (r, c) (nr2, c) None] else [])
    else [] in
  let captures :=
    dc ← [-1; 1];
    let nc := c + dc in
    let nr := r + dir_ in
    if in_bounds nr nc then
      match get b nr nc with
      | Some target =>
          if bool_decide (color target ≠ col)
          then [_maybe_promote (mkMove (r, c) (nr, nc) None) col nr]
          else []
      | None => []
      end
    else [] in
  forward ++ captures.

Definition _knight_moves (b : Board) (r c : Z) (col : Color) : list Move :=
  '(dr, dc) ← KNIGHT_OFFSETS;
  let nr := r + dr in
  let nc := c + dc in
  if negb (in_bounds nr nc) then []
  else match get b nr nc with
       | None => [mkMove (r, c) (nr, nc) None]
       | Some target =>
           if bool_decide (color target ≠ col)
           then [mkMove (r, c) (nr, nc) None] else []
       end.

(** The [while] loop of [_slider_moves] for one direction, entered at
    [(nr, nc)]. *)
Fixpoint slider_walk (fuel : nat) (b : Board) (r c : Z) (col : Color)
    (dr dc nr nc : Z) : list Move :=
  match fuel with
  | O => []
  | S fuel =>
      if in_bounds nr nc then
        match get b nr nc with
        | None =>
            mkMove (r, c) (nr, nc) None ::
            slider_walk fuel b r c col dr dc (nr + dr) (nc + dc)
        | Some target =>
            if bool_decide (color target ≠ col)
            then [mkMove (r, c) (nr, nc) None] else []
        end
      else []
  end.

Definition _slider_moves (b : Board) (r c : Z) (col : Color)
    (directions : list (Z * Z)) : list Move :=
  '(dr, dc) ← directions;
  slider_walk WALK_FUEL b r c col dr dc (r + dr) (c + dc).

(** [target.color == None] never holds for a [Piece], whose colour is a tag;
    the test is [target is None or target.color != color]. *)
Definition _king_moves (b : Board) (r c : Z) (col : Color) : list Move :=
  '(dr, dc) ← KING_OFFSETS;
  let nr := r + dr in
  let nc := c + dc in
  if negb (in_bounds nr nc) then []
  else match get b nr nc with
       | None => [mkMove (r, c) (nr, nc) None]
       | Some target =>
           if bool_decide (color target ≠ col)
           then [mkMove (r, c) (nr, nc) None] else []
       end.

Definition _piece_moves (b : Board) (r c : Z) (p : Piece) : list Move :=
  match kind p with
  | Pawn => _pawn_moves b r c (color p)
  | Knight => _knight_moves b r c (color p)
  | Bishop => _slider_moves b r c (color p) DIAGONALS
  | Rook => _slider_moves b r c (color p) ORTHOGONALS
  | Queen => _slider_moves b r c (color p) (DIAGONALS ++ ORTHOGONALS)
  | King => _king_moves b r c (color p)
  end.

Definition generate_moves (b : Board) (col : Color) : list Move :=
  '(r, c, p) ← all_pieces b;
  if bool_decide (color p ≠ col) then [] else _piece_moves b r c p.

(** *** The attack oracle *)

(** The [while] loop of the sliding branch for one direction, entered at
    [(nr, nc)]: [true] when [return True] is reached. *)
Fixpoint attack_walk (fuel : nat) (b : Board) (r c dr dc nr nc : Z) : bool :=
  match fuel with
  | O => false
  | S fuel =>
      if in_bounds nr nc then
        if bool_decide (nr = r ∧ nc = c) then true
        else if bool_decide (get b nr nc ≠ None) then false
        else attack_walk fuel b r c dr dc (nr + dr) (nc + dc)
      else false
  end.

(** [directions] as the sliding branch builds it from the kind. *)
Definition slider_directions (k : Kind) : list (Z * Z) :=
  (if bool_decide (k = Bishop ∨ k = Queen) then DIAGONALS else [])
  ++ (if bool_decide (k = Rook ∨ k = Queen) then ORTHOGONALS else []).

(** The body of the loop of [is_square_attacked] for the piece [p] found at
    [(rr, cc)], after the colour test: [true] when it executes
    [return True]. *)
Definition attack_from (b : Board) (r c : Z) (by_color : Color)
    (rr cc : Z) (p : Piece) : bool :=
  match kind p with
  | Pawn =>
      let dir_ := pawn_dir by_color in
      existsb (λ dc, let nr := rr + dir_ in
                     let nc := cc + dc in
                     bool_decide (nr = r ∧ nc = c) && in_bounds nr nc)
              [-1; 1]
  | Knight =>
      existsb (λ '(dr, dc), bool_decide (rr + dr = r ∧ cc + dc = c) && in_bounds r c)
              KNIGHT_OFFSETS
  | Bishop | Rook | Queen =>
      existsb (λ '(dr, dc), attack_walk WALK_FUEL b r c dr dc (rr + dr) (cc + dc))
              (slider_directions (kind p))
  | King =>
      existsb (λ '(dr, dc), bool_decide (rr + dr = r ∧ cc + dc = c)) KING_OFFSETS
  end.

Definition is_square_attacked (b : Board) (r c : Z) (by_color : Color) : bool :=
  existsb (λ '(rr, cc, p),
             if bool_decide (color p ≠ by_color) then false
             else attack_from b r c by_color rr cc p)
          (all_pieces b).

(** ** Simple AI *)

(** The values of [best_capture_value] and [best_eval]: an [int], or one of
    [-math.inf] and [math.inf]. *)
Inductive ext := NegInf | Fin (z : Z) | PosInf.

(** [x < y] on those values. *)
Definition ext_lt (x y : ext) : bool :=
  match x, y with
  | NegInf, NegInf => false
  | NegInf, _ => true
  | Fin a, Fin b => bool_decide (a < b)
  | Fin _, PosInf => true
  | Fin _, NegInf => false
  | PosInf, _ => false
  end.

(** A [for x in l] loop whose body updates the loop state and may raise. *)
Fixpoint for_each {S A : Type} (body : S → A → option S) (l : list A) (s : S)
    : option S :=
  match l with
  | [] => Some s
  | x :: l => s' ← body s x; for_each body l s'
  end.

Definition opponent (col : Color) : Color :=
  if decide (col = Black) then White else Black.

(** Body of the first loop; the state is
    [(best_free_capture, best_capture_value)]. *)
Definition capture_step (col : Color) (b : Board)
    (st : option Move * ext) (mv : Move) : option (option Move * ext) :=
  let '(er, ec) := end_ mv in
  match get b er ec with
  | Some target =>
      if bool_decide (color target ≠ col) then
        sim ← move_piece (clone b) mv;
        if negb (is_square_attacked sim er ec (opponent col)) then
          let val := PIECE_VALUES (kind target) in
          if ext_lt (snd st) (Fin val) then Some (Some mv, Fin val) else Some st
        else Some st
      else Some st
  | None => Some st
  end.

(** Body of the second loop; the state is [(best_move, best_eval)]. *)
Definition material_step (col : Color) (b : Board)
    (st : option Move * ext) (mv : Move) : option (option Move * ext) :=
  sim ← move_piece (clone b) mv;
  let eval_score := material sim in
  if decide (col = White) then
    if ext_lt (snd st) (Fin eval_score) then Some (Some mv, Fin eval_score) else Some st
  else
    if ext_lt (Fin eval_score) (snd st) then Some (Some mv, Fin eval_score) else Some st.

(** [SimpleAI(col).choose_move(b)].  The outer [option] is [None] when a
    simulated [move_piece] raises; the inner one is the returned
    [Optional[Move]]. *)
Definition choose_move (col : Color) (b : Board) : option (option Move) :=
  let moves := generate_moves b col in
  match moves with
  | [] => Some None
  | _ =>
      st1 ← for_each (capture_step col b) moves (None, NegInf);
      match fst st1 with
      | Some best_free_capture => Some (Some best_free_capture)
      | None =>
          st2 ← for_each (material_step col b) moves
                  (None, if decide (col = White) then NegInf else PosInf);
          match fst st2 with
          | Some best_move => Some (Some best_move)
          | None => Some (head moves)
          end
      end
  end.

(** ** Game controller *)

(** The state of [Game] that the controller logic reads and writes.  The
    window, the clock and the renderer are left out: [_draw] only reads the
    state.  [game_board] is [self.board]; [ai_color] is [self.ai.color], the
    only field of the [SimpleAI] object. *)
Record Game := mkGame {
  game_board : Board;
  human_color : Color;
  ai_color : Color;
  selected : option (Z * Z);
  legal_moves_from_selected : list Move;
  running : bool
}.

Definition WIDTH : Z := 640.
Definition HEIGHT : Z := 640.
Definition TILE_SIZE : Z := WIDTH `div` COLS.

(** [Game.__init__]: the human plays White, the AI Black. *)
Definition new_game : Game := mkGame initial_board White Black None [] true.

(** The events [_handle_events] tells apart: [pygame.QUIT], a
    [pygame.MOUSEBUTTONDOWN] with its [button] and [pos = (x, y)], and the
    rest. *)
Inductive event :=
  | QUIT
  | MOUSEBUTTONDOWN (button : Z) (pos : Z * Z)
  | OTHER_EVENT.

(** [[mv for mv in Rules.generate_moves(self.board, self.human_color)
      if mv.start == (r, c)]]. *)
Definition moves_from (b : Board) (col : Color) (r c : Z) : list Move :=
  filter (λ mv, start mv = (r, c)) (generate_moves b col).

(** The [for m in ...: if m.end == (r, c): mv = m; break] loop. *)
Fixpoint first_move_to (l : list Move) (r c : Z) : option Move :=
  match l with
  | [] => None
  | m :: l => if bool_decide (end_ m = (r, c)) then Some m else first_move_to l r c
  end.

Definition _handle_click (g : Game) (pos : Z * Z) : option Game :=
  let b := game_board g in
  if bool_decide (to_move b ≠ human_color g) then Some g
  else
    let c := pos.1 `div` TILE_SIZE in
    let r := pos.2 `div` TILE_SIZE in
    let select :=
      mkGame b (human_color g) (ai_color g) (Some (r, c))
        (moves_from b (human_color g) r c) (running g) in
    match selected g with
    | None =>
        match get b r c with
        | Some p => if bool_decide (color p = human_color g) then Some select else Some g
        | None => Some g
        end
    | Some _ =>
        match first_move_to (legal_moves_from_selected g) r c with
        | Some mv =>
            b' ← move_piece b mv;
            Some (mkGame b' (human_color g) (ai_color g) None [] (running g))
        | None =>
            let clear :=
              mkGame b (human_color g) (ai_color g) None [] (running g) in
            match get b r c with
            | Some p =>
                if bool_decide (color p = human_color g) then Some select
                else Some clear
            | None => Some clear
            end
        end
    end.

(** The body of the loop of [_handle_events] for one event. *)
Definition handle_event (g : Game) (ev : event) : option Game :=
  match ev with
  | QUIT =>
      Some (mkGame (game_board g) (human_color g) (ai_color g) (selected g)
              (legal_moves_from_selected g) false)
  | MOUSEBUTTONDOWN button pos =>
      if bool_decide (button = 1) then _handle_click g pos else Some g
  | OTHER_EVENT => Some g
  end.

(** [_handle_events], on the events [pygame.event.get()] returned. *)
Definition _handle_events (evs : list event) (g : Game) : option Game :=
  for_each handle_event evs g.

(** The AI part of the body of the loop of [run]. *)
Definition ai_turn (g : Game) : option Game :=
  let b := game_board g in
  if bool_decide (to_move b = ai_color g) then
    ai_move ← choose_move (ai_color g) b;
    b' ← match ai_move with
         | Some mv => move_piece b mv
         | None => Some b
         end;
    Some (mkGame b' (human_color g) (ai_color g) None [] (running g))
  else Some g.

(** One round of the loop of [run]: the events of the frame, then the AI. *)
Definition frame (evs : list event) (g : Game) : option Game :=
  g1 ← _handle_events evs g; ai_turn g1.

(** How a call of [run] ends.  [run] never returns: when the loop is left,
    [pygame.quit(); sys.exit(0)] raises [SystemExit]; an exception of the
    loop body ([IndexError]) comes out of [run] as it is; otherwise the loop
    goes on.  [StillRunning] is the state at the head of the next round when
    the frames given are used up and [running] is still on. *)
Inductive run_outcome :=
  | SystemExit (g : Game)
  | Raised
  | StillRunning (g : Game).

(** [run] over the frames whose events are [frames], from the state [g]:
    the [while self.running] loop, one round for each frame, and what
    follows the loop. *)
Fixpoint run (frames : list (list event)) (g : Game) : run_outcome :=
  if running g then
    match frames with
    | [] => StillRunning g
    | evs :: frames =>
        match frame evs g with
        | Some g' => run frames g'
        | None => Raised
        end
    end
  else SystemExit g.

(** * The object-level model

    Python's [Board], list and [Piece] objects are mutable and are reached
    through references.  A store holds them; a method is a function from the
    store to an outcome and a store. *)

Abbreviation loc := nat.

(** The values held by the attributes and list items of the model: [None]
    or a reference to an object. *)
Inductive val := VNone | VRef (l : loc).

Inductive obj :=
| OBoard (grid : val) (tm : Color)   (* a [Board]: [self.board], [self.to_move] *)
| OList (items : list val)           (* a [list] *)
| OPiece (c : Color) (k : Kind).     (* a [Piece]: [color], [kind] *)

(** The store; objects are never freed, a new object takes the next
    address. *)
Abbreviation heap := (list obj).

(** A call returns a value or raises ([IndexError], [AttributeError],
    [TypeError]); the store survives in both cases. *)
Inductive result (A : Type) := Returns (a : A) | Raises.
Global Arguments Returns {A} a.
Global Arguments Raises {A}.

Definition M (A : Type) : Type := heap → result A * heap.

Global Instance M_ret : MRet M := λ A a h, (Returns a, h).

Global Instance M_bind : MBind M := λ A B k m h,
  match m h with
  | (Returns a, h') => k a h'
  | (Raises, h') => (Raises, h')
  end.

Definition raise {A} : M A := λ h, (Raises, h).

Definition alloc (o : obj) : M loc := λ h, (Returns (length h), h ++ [o]).

Definition load (l : loc) : M obj := λ h,
  match h !! l with
  | Some o => (Returns o, h)
  | None => (Raises, h)
  end.

Definition store (l : loc) (o : obj) : M unit := λ h, (Returns (), <[l := o]> h).

(** [b.board] *)
Definition attr_board (b : loc) : M val :=
  o ← load b;
  match o with OBoard g _ => mret g | _ => raise end.

(** [b.to_move] *)
Definition attr_to_move (b : loc) : M Color :=
  o ← load b;
  match o with OBoard _ tm => mret tm | _ => raise end.

(** [b.to_move = c] *)
Definition set_to_move (b : loc) (c : Color) : M unit :=
  o ← load b;
  match o with OBoard g _ => store b (OBoard g c) | _ => raise end.

(** The items of the list [v], as a [for] loop or a comprehension reads
    them. *)
Definition list_items (v : val) : M (list val) :=
  match v with
  | VRef l => o ← load l; match o with OList items => mret items | _ => raise end
  | VNone => raise
  end.

(** [v[i]] *)
Definition getitem (v : val) (i : Z) : M val :=
  items ← list_items v;
  match py_index (length items) i ≫= (items !!.) with
  | Some x => mret x
  | None => raise
  end.

(** [v[i] = x] *)
Definition setitem (v : val) (i : Z) (x : val) : M unit :=
  match v with
  | VRef l =>
      items ← list_items v;
      match py_index (length items) i with
      | Some n => store l (OList (<[n := x]> items))
      | None => raise
      end
  | VNone => raise
  end.

(** [p.color] and [p.kind] *)
Definition piece_color (p : val) : M Color :=
  match p with
  | VRef l => o ← load l; match o with OPiece c _ => mret c | _ => raise end
  | VNone => raise
  end.

Definition piece_kind (p : val) : M Kind :=
  match p with
  | VRef l => o ← load l; match o with OPiece _ k => mret k | _ => raise end
  | VNone => raise
  end.

(** [Board.get] *)
Definition get_h (b : loc) (r c : Z) : M val :=
  if negb (in_bounds r c) then mret VNone
  else g ← attr_board b; row ← getitem g r; getitem row c.

(** [Board.set] *)
Definition set_h (b : loc) (r c : Z) (piece : val) : M unit :=
  g ← attr_board b; row ← getitem g r; setitem row c piece.

(** [Board.move_piece] *)
Definition move_piece_h (b : loc) (mv : Move) : M unit :=
  let '(sr, sc) := start mv in
  let '(er, ec) := end_ mv in
  piece ← get_h b sr sc;
  set_h b sr sc VNone;;
  match promotion mv, piece with
  | Some k, VRef _ =>
      pk ← piece_kind piece;
      if decide (pk = Pawn) then
        pc ← piece_color piece;
        promoted ← alloc (OPiece pc k);
        set_h b er ec (VRef promoted)
      else set_h b er ec piece
  | _, _ => set_h b er ec piece
  end;;
  tm ← attr_to_move b;
  set_to_move b (if decide (tm = White) then Black else White).

(** [None if p is None else Piece(p.color, p.kind)] *)
Definition clone_piece (p : val) : M val :=
  match p with
  | VNone => mret VNone
  | VRef _ =>
      c ← piece_color p; k ← piece_kind p;
      l ← alloc (OPiece c k); mret (VRef l)
  end.

(** The inner comprehension of [clone]: a new list of new pieces. *)
Definition clone_row (row : val) : M val :=
  items ← list_items row;
  items' ← mapM clone_piece items;
  l ← alloc (OList items');
  mret (VRef l).

(** [Board.clone].  [Board.__new__] creates the instance before the grid is
    built; the model allocates it when its two attributes are set. *)
Definition clone_h (b : loc) : M loc :=
  g ← attr_board b;
  rows ← list_items g;
  rows' ← mapM clone_row rows;
  g' ← alloc (OList rows');
  tm ← attr_to_move b;
  alloc (OBoard (VRef g') tm).

(** *** Reading a board out of the store *)

Definition view_piece (h : heap) (v : val) : option (option Piece) :=
  match v with
  | VNone => Some None
  | VRef l => match h !! l with
              | Some (OPiece c k) => Some (Some (mkPiece c k))
              | _ => None
              end
  end.

Definition view_row (h : heap) (v : val) : option (list (option Piece)) :=
  match v with
  | VRef l => match h !! l with
              | Some (OList items) => mapM (view_piece h) items
              | _ => None
              end
  | VNone => None
  end.

(** The board value that the object at [b] holds in the store [h]. *)
Definition view (h : heap) (b : loc) : option Board :=
  match h !! b with
  | Some (OBoard (VRef g) tm) =>
      match h !! g with
      | Some (OList rows) => grid ← mapM (view_row h) rows; Some (mkBoard grid tm)
      | _ => None
      end
  | _ => None
  end.

(** The rules engine only reads the board it is given: its functions are
    applied to the value the board holds at the time of the call. *)
Definition snapshot (b : loc) : M Board := λ h,
  match view h b with
  | Some B => (Returns B, h)
  | None => (Raises, h)
  end.

(** *** [SimpleAI.choose_move] on a board object *)

Fixpoint for_each_h {S A : Type} (body : S → A → M S) (l : list A) (s : S) : M S :=
  match l with
  | [] => mret s
  | x :: l => s' ← body s x; for_each_h body l s'
  end.

Definition capture_step_h (col : Color) (b : loc)
    (st : option Move * ext) (mv : Move) : M (option Move * ext) :=
  let '(er, ec) := end_ mv in
  target ← get_h b er ec;
  match target with
  | VNone => mret st
  | VRef _ =>
      tc ← piece_color target;
      if bool_decide (tc ≠ col) then
        sim ← clone_h b;
        move_piece_h sim mv;;
        sim_board ← snapshot sim;
        if negb (is_square_attacked sim_board er ec (opponent col)) then
          tk ← piece_kind target;
          let val := PIECE_VALUES tk in
          if ext_lt (snd st) (Fin val) then mret (Some mv, Fin val) else mret st
        else mret st
      else mret st
  end.

Definition material_step_h (col : Color) (b : loc)
    (st : option Move * ext) (mv : Move) : M (option Move * ext) :=
  sim ← clone_h b;
  move_piece_h sim mv;;
  sim_board ← snapshot sim;
  let eval_score := material sim_board in
  if decide (col = White) then
    if ext_lt (snd st) (Fin eval_score)
    then mret (Some mv, Fin eval_score) else mret st
  else
    if ext_lt (Fin eval_score) (snd st)
    then mret (Some mv, Fin eval_score) else mret st.

Definition choose_move_h (col : Color) (b : loc) : M (option Move) :=
  B ← snapshot b;
  let moves := generate_moves B col in
  match moves with
  | [] => mret None
  | _ =>
      st1 ← for_each_h (capture_step_h col b) moves (None, NegInf);
      match fst st1 with
      | Some best_free_capture => mret (Some best_free_capture)
      | None =>
          st2 ← for_each_h (material_step_h col b) moves
                  (None, if decide (col = White) then NegInf else PosInf);
          match fst st2 with
          | Some best_move => mret (Some best_move)
          | None => mret (head moves)
          end
      end
  end.

(** *** Building and mutating boards *)

(** [[Piece(col, k) for k in kinds]] *)
Definition new_pieces (col : Color) (kinds : list Kind) : M val :=
  items ← mapM (λ k, l ← alloc (OPiece col k); mret (VRef l)) kinds;
  l ← alloc (OList items);
  mret (VRef l).

(** [[None for _ in range(COLS)]] *)
Definition new_empty_row : M val :=
  l ← alloc (OList (replicate 8 VNone)); mret (VRef l).

Definition BACK_RANK : list Kind :=
  [Rook; Knight; Bishop; Queen; King; Bishop; Knight; Rook].

(** [Board()]: [__init__] builds a grid of [None] and calls
    [_setup_initial], which stores eight new rows in the outer list. *)
Definition new_board_h : M loc :=
  rows ← mapM (λ _ : Z, new_empty_row) (range ROWS);
  g ← alloc (OList rows);
  b ← alloc (OBoard (VRef g) White);
  r0 ← new_pieces Black BACK_RANK; setitem (VRef g) 0 r0;;
  r1 ← new_pieces Black (replicate 8 Pawn); setitem (VRef g) 1 r1;;
  for_each_h (λ (_ : unit) r, row ← new_empty_row; setitem (VRef g) r row)
    (seqZ 2 4) ();;
  r6 ← new_pieces White (replicate 8 Pawn); setitem (VRef g) 6 r6;;
  r7 ← new_pieces White BACK_RANK; setitem (VRef g) 7 r7;;
  set_to_move b White;;
  mret b.

(** A call of one of the two mutating methods of [Board]: [set] with [None]
    or with a newly built [Piece], or [move_piece]. *)
Inductive call :=
| CallSet (r c : Z) (piece : option Piece)
| CallMovePiece (mv : Move).

Definition call_h (b : loc) (ca : call) : M unit :=
  match ca with
  | CallSet r c None => set_h b r c VNone
  | CallSet r c (Some p) =>
      l ← alloc (OPiece (color p) (kind p)); set_h b r c (VRef l)
  | CallMovePiece mv => move_piece_h b mv
  end.

(** The store after a sequence of calls on the board at [b]; a call that
    raises leaves its store to the next one. *)
Fixpoint run_calls (b : loc) (calls : list call) (h : heap) : heap :=
  match calls with
  | [] => h
  | ca :: calls => run_calls b calls (call_h b ca h).2
  end.

(** * Notions used by the statements *)

(** ** On board values *)

(** What every generated move of a piece of colour [col] standing on
    [(r, c)] satisfies. *)
Definition lands_ok (b : Board) (r c : Z) (col : Color) (mv : Move) : Prop :=
  start mv = (r, c)
  ∧ in_bounds (end_ mv).1 (end_ mv).2 = true
  ∧ (get b (end_ mv).1 (end_ mv).2 = None
     ∨ ∃ q, get b (end_ mv).1 (end_ mv).2 = Some q ∧ color q ≠ col).

(** The occupant [move_piece] writes to the end square. *)
Definition placed (b : Board) (mv : Move) : option Piece :=
  let piece := get b (start mv).1 (start mv).2 in
  match promotion mv, piece with
  | Some k, Some p =>
      if decide (kind p = Pawn) then Some (mkPiece (color p) k) else piece
  | _, _ => piece
  end.

(** The square [(r, c)] lies on the ray that leaves [(rr, cc)] in direction
    [(dr, dc)], and every square of the ray before it is an empty square of
    the board: the walk reaches [(r, c)] at or before the first occupied
    square. *)
Definition ray_reaches (b : Board) (rr cc dr dc r c : Z) : Prop :=
  ∃ k : Z, 1 ≤ k
    ∧ r = rr + k * dr ∧ c = cc + k * dc
    ∧ ∀ j : Z, 1 ≤ j < k →
        in_bounds (rr + j * dr) (cc + j * dc) = true
        ∧ get b (rr + j * dr) (cc + j * dc) = None.

Definition is_slider (k : Kind) : Prop := k = Bishop ∨ k = Rook ∨ k = Queen.

(** The row a pawn of colour [col] promotes on. *)
Definition promotion_row (col : Color) : Z :=
  if decide (col = White) then 0 else 7.

(** What holds of the [promotion] field of a move of a pawn of colour
    [col]. *)
Definition promotes_on_last_row (col : Color) (mv : Move) : Prop :=
  (promotion mv = Some Queen ∧ (end_ mv).1 = promotion_row col)
  ∨ (promotion mv = None ∧ (end_ mv).1 ≠ promotion_row col).

Definition empty_grid : list (list (option Piece)) := replicate 8 (replicate 8 None).

(** A white pawn on [(1, 0)] of an otherwise empty board. *)
Definition lone_pawn_board : Board :=
  mkBoard (<[1%nat := <[0%nat := Some (mkPiece White Pawn)]> (replicate 8 None)]>
             empty_grid) White.

(** The value the first loop gives to [mv]: the value of the captured piece
    when the move takes a piece of the other colour and the square is not
    attacked afterwards, nothing otherwise. *)
Definition capture_score (col : Color) (b : Board) (mv : Move) : option Z :=
  match get b (end_ mv).1 (end_ mv).2 with
  | Some target =>
      if bool_decide (color target ≠ col) then
        match move_piece (clone b) mv with
        | Some sim =>
            if negb (is_square_attacked sim (end_ mv).1 (end_ mv).2 (opponent col))
            then Some (PIECE_VALUES (kind target)) else None
        | None => None
        end
      else None
  | None => None
  end.

(** The value the second loop gives to [mv]. *)
Definition material_score (b : Board) (mv : Move) : option Z :=
  material <$> move_piece (clone b) mv.

(** [mv] qualifies for the safe-capture tier, with captured value [val]. *)
Definition safe_capture (col : Color) (b : Board) (mv : Move) (val : Z) : Prop :=
  ∃ target sim,
    get b (end_ mv).1 (end_ mv).2 = Some target
    ∧ color target = other col
    ∧ move_piece (clone b) mv = Some sim
    ∧ is_square_attacked sim (end_ mv).1 (end_ mv).2 (other col) = false
    ∧ val = PIECE_VALUES (kind target).

(** A white rook on [(4, 0)] and a black pawn on [(4, 3)], nothing else. *)
Definition rook_and_pawn_board : Board :=
  mkBoard (<[4%nat := <[0%nat := Some (mkPiece White Rook)]>
                        (<[3%nat := Some (mkPiece Black Pawn)]> (replicate 8 None))]>
             empty_grid) White.

(** *** Selection loops

    Both loops of [choose_move] keep the first element whose score is
    strictly better than every score seen before it.  [maxi] tells whether
    larger is better (captures, and material for White) or smaller (material
    for Black); [score x = None] when the body leaves the state alone. *)

Definition improves (maxi : bool) (v : Z) (best : ext) : bool :=
  if maxi then ext_lt best (Fin v) else ext_lt (Fin v) best.

Definition worst (maxi : bool) : ext := if maxi then NegInf else PosInf.

Definition select_step {A : Type} (score : A → option Z) (maxi : bool)
    (st : option A * ext) (x : A) : option A * ext :=
  match score x with
  | Some v => if improves maxi v (snd st) then (Some x, Fin v) else st
  | None => st
  end.

Definition no_worse (maxi : bool) (w v : Z) : Prop := if maxi then w ≤ v else v ≤ w.

Definition worse (maxi : bool) (w v : Z) : Prop := if maxi then w < v else v < w.

(** [x], at index [i] of [l], has score [v]; no element of [l] has a better
    score and every earlier one has a worse score. *)
Definition first_best {A : Type} (score : A → option Z) (maxi : bool)
    (l : list A) (i : nat) (x : A) (v : Z) : Prop :=
  l !! i = Some x
  ∧ score x = Some v
  ∧ ∀ (j : nat) y w, l !! j = Some y → score y = Some w →
      no_worse maxi w v ∧ ((j < i)%nat → worse maxi w v).

(** The state of a selection loop after the elements of [l]. *)
Definition select_inv {A : Type} (score : A → option Z) (maxi : bool)
    (l : list A) (st : option A * ext) : Prop :=
  match st with
  | (None, e) => e = worst maxi ∧ ∀ x, x ∈ l → score x = None
  | (Some x, Fin v) => ∃ i, first_best score maxi l i x v
  | (Some _, _) => False
  end.

(** ** On board objects *)

(** The addresses and list contents behind a [Board] object: its outer
    list, its row lists, and the items of each row. *)
Record shape := mkShape {
  grid_loc : loc;
  row_locs : list loc;
  row_items : list (list val)
}.

(** The item [v] of a row stands for the occupant [o]. *)
Definition piece_repr (h : heap) (v : val) (o : option Piece) : Prop :=
  match v, o with
  | VNone, None => True
  | VRef l, Some p => h !! l = Some (OPiece (color p) (kind p))
  | _, _ => False
  end.

(** In the store [h], the object at [b] is a board with object graph [s]
    and value [B]; no two rows are the same list. *)
Definition repr (h : heap) (b : loc) (s : shape) (B : Board) : Prop :=
  h !! b = Some (OBoard (VRef (grid_loc s)) (to_move B))
  ∧ h !! grid_loc s = Some (OList (VRef <$> row_locs s))
  ∧ NoDup (row_locs s)
  ∧ Forall2 (λ rl items, h !! rl = Some (OList items)) (row_locs s) (row_items s)
  ∧ Forall2 (Forall2 (piece_repr h)) (row_items s) (board B).

(** The [Piece] objects of the graph. *)
Definition item_locs (items : list val) : list loc :=
  v ← items; match v with VRef l => [l] | VNone => [] end.

Definition piece_locs (s : shape) : list loc :=
  items ← row_items s; item_locs items.

(** Every object the board is made of. *)
Definition footprint (b : loc) (s : shape) : list loc :=
  b :: grid_loc s :: row_locs s ++ piece_locs s.

(** A row of a board: a list object whose items stand for the squares. *)
Definition row_repr (h : heap) (rl : loc) (row : list (option Piece)) : Prop :=
  ∃ items, h !! rl = Some (OList items) ∧ Forall2 (piece_repr h) items row.

(** What a method of the board at [b] may do to the store: the board keeps
    its outer list and its rows; objects are only added; of the objects that
    existed, only the board object and its rows are written; the pieces of
    the board are pieces it had or new objects. *)
Definition board_step (h : heap) (b : loc) (s : shape) (h' : heap) (s' : shape)
    : Prop :=
  grid_loc s' = grid_loc s
  ∧ row_locs s' = row_locs s
  ∧ (length h ≤ length h')%nat
  ∧ (∀ l, (l < length h)%nat → l ≠ b → l ∉ row_locs s → h' !! l = h !! l)
  ∧ (∀ l, l ∈ piece_locs s' → l ∈ piece_locs s ∨ (length h ≤ l)%nat).

(** The store after [Board()] in an empty store; the board object is at
    address 9. *)
Definition initial_store : heap := Eval vm_compute in (new_board_h []).2.

(** The outer list, the rows and their items, read from the store. *)
Definition shape_of (h : heap) (b : loc) : option shape :=
  match h !! b with
  | Some (OBoard (VRef g) _) =>
      match h !! g with
      | Some (OList rows) =>
          let rls := rows ≫= (λ v, match v with VRef l => [l] | VNone => [] end) in
          Some (mkShape g rls
                  ((λ rl, match h !! rl with
                          | Some (OList items) => items
                          | _ => []
                          end) <$> rls))
      | _ => None
      end
  | _ => None
  end.

Definition initial_shape : shape := Eval vm_compute in
  default (mkShape 0 [] []) (shape_of initial_store 9).

(** ** Further notions on board values *)

(** What a square contributes to [material]: the value of its piece, with
    the sign of the colour. *)
Definition square_value (o : option Piece) : Z :=
  match o with
  | None => 0
  | Some p =>
      if decide (color p = White) then PIECE_VALUES (kind p)
      else - PIECE_VALUES (kind p)
  end.

(** The value of the piece a move takes, 0 when the end square is empty. *)
Definition captured_value (b : Board) (mv : Move) : Z :=
  match get b (end_ mv).1 (end_ mv).2 with
  | Some q => PIECE_VALUES (kind q)
  | None => 0
  end.

(** [+1] for White, [-1] for Black: the direction in which [material] is
    good for a colour. *)
Definition side_sign (col : Color) : Z :=
  if decide (col = White) then 1 else -1.

Definition Zsum (l : list Z) : Z := foldr Z.add 0 l.

(** A piece of colour [col] may land on [(r, c)]: the square is on the board
    and holds no piece of that colour. *)
Definition may_land (b : Board) (col : Color) (r c : Z) : Prop :=
  in_bounds r c = true ∧ ∀ q, get b r c = Some q → color q ≠ col.

(** The order in which [all_pieces] scans the board: rows first, then
    columns. *)
Definition row_major (x y : Z * Z) : Prop :=
  x.1 < y.1 ∨ (x.1 = y.1 ∧ x.2 < y.2).

(** Earlier elements of [l] are related by [R] to later ones. *)
Definition ordered {A : Type} (R : A → A → Prop) (l : list A) : Prop :=
  ∀ (i j : nat) x y, (i < j)%nat → l !! i = Some x → l !! j = Some y → R x y.

(** The piece [p] standing on [(rr, cc)] attacks the square [(r, c)]: the
    geometry of each kind, with the rays of the sliding kinds stopped by the
    first occupied square. *)
Definition attacks (b : Board) (p : Piece) (rr cc r c : Z) : Prop :=
  match kind p with
  | Pawn =>
      r = rr + (if decide (color p = White) then -1 else 1)
      ∧ Z.abs (c - cc) = 1
  | Knight =>
      (Z.abs (r - rr) = 1 ∧ Z.abs (c - cc) = 2)
      ∨ (Z.abs (r - rr) = 2 ∧ Z.abs (c - cc) = 1)
  | King => Z.abs (r - rr) ≤ 1 ∧ Z.abs (c - cc) ≤ 1 ∧ (r ≠ rr ∨ c ≠ cc)
  | Bishop => ∃ dr dc, (dr, dc) ∈ DIAGONALS ∧ ray_reaches b rr cc dr dc r c
  | Rook => ∃ dr dc, (dr, dc) ∈ ORTHOGONALS ∧ ray_reaches b rr cc dr dc r c
  | Queen =>
      ∃ dr dc, (dr, dc) ∈ DIAGONALS ++ ORTHOGONALS
               ∧ ray_reaches b rr cc dr dc r c
  end.

(** ** Notions on the game controller *)

(** A white pawn on [(4, 0)] face to face with a black pawn on [(3, 0)],
    nothing else: neither side has a move. *)
Definition blocked_pawns_board (tm : Color) : Board :=
  mkBoard (<[3%nat := <[0%nat := Some (mkPiece Black Pawn)]> (replicate 8 None)]>
             (<[4%nat := <[0%nat := Some (mkPiece White Pawn)]> (replicate 8 None)]>
                empty_grid)) tm.

(** One ply: [b'] comes from [b] by [move_piece] with a move generated for
    the side to move. *)
Definition played (b b' : Board) : Prop :=
  ∃ mv, mv ∈ generate_moves b (to_move b) ∧ move_piece b mv = Some b'.

(** Zero or more plies. *)
Inductive plies : Board → Board → Prop :=
  | plies_refl b : plies b b
  | plies_step b1 b2 b3 : played b1 b2 → plies b2 b3 → plies b1 b3.

(** What holds of the controller state between events: the board is 8x8,
    the two players have different colours, and a selection is a square
    holding a piece of the human, made on the human's turn, with
    [legal_moves_from_selected] the moves generated on the current board
    from that square. *)
Definition game_inv (g : Game) : Prop :=
  wf_board (game_board g)
  ∧ ai_color g = other (human_color g)
  ∧ match selected g with
    | None => legal_moves_from_selected g = []
    | Some (r, c) =>
        to_move (game_board g) = human_color g
        ∧ (∃ p, get (game_board g) r c = Some p ∧ color p = human_color g)
        ∧ legal_moves_from_selected g
          = moves_from (game_board g) (human_color g) r c
    end.

(** What a move wins for the mover: the value of the piece it takes, plus 8
    (a queen for a pawn) when it promotes. *)
Definition gain (b : Board) (mv : Move) : Z :=
  captured_value b mv + match promotion mv with Some _ => 8 | None => 0 end.

(** ** Moving an object graph

    The objects built in an empty store, as they are when built in a store
    that holds [n] objects already: every reference is [n] further. *)
Definition shift_val (n : nat) (v : val) : val :=
  match v with VNone => VNone | VRef l => VRef (n + l) end.

Definition shift_obj (n : nat) (o : obj) : obj :=
  match o with
  | OBoard g tm => OBoard (shift_val n g) tm
  | OList items => OList (shift_val n <$> items)
  | OPiece c k => OPiece c k
  end.

Definition shift_shape (n : nat) (s : shape) : shape :=
  mkShape (n + grid_loc s) ((λ l : loc, (n + l)%nat) <$> row_locs s)
    ((λ items : list val, shift_val n <$> items) <$> row_items s).

(** * Properties of the value-level model *)

Lemma in_bounds_true r c :
  in_bounds r c = true ↔ 0 ≤ r < 8 ∧ 0 ≤ c < 8.
Proof. unfold in_bounds, ROWS, COLS. by rewrite bool_decide_eq_true. Qed.

Lemma in_bounds_false r c :
  in_bounds r c = false ↔ ¬ (0 ≤ r < 8 ∧ 0 ≤ c < 8).
Proof. unfold in_bounds, ROWS, COLS. by rewrite bool_decide_eq_false. Qed.

Lemma get_in_bounds b r c :
  in_bounds r c = true → get b r c = grid_at b r c.
Proof. unfold get. by intros ->. Qed.

Lemma get_out_of_bounds b r c :
  in_bounds r c = false → get b r c = None.
Proof. unfold get. by intros ->. Qed.

Lemma get_Some_in_bounds b r c p :
  get b r c = Some p → in_bounds r c = true.
Proof. unfold get. by destruct (in_bounds r c). Qed.

Lemma elem_of_range n x : x ∈ range n ↔ 0 ≤ x < n.
Proof. unfold range. rewrite elem_of_seqZ. lia. Qed.

Lemma elem_of_all_pieces b r c p :
  (r, c, p) ∈ all_pieces b ↔ in_bounds r c = true ∧ get b r c = Some p.
Proof.
  unfold all_pieces. rewrite list_elem_of_bind. split.
  - intros (r' & Hin & Hr). apply list_elem_of_bind in Hin as (c' & Hin & Hc).
    apply elem_of_range in Hr, Hc.
    destruct (grid_at b r' c') as [q|] eqn:Hq; [|by apply elem_of_nil in Hin].
    apply list_elem_of_singleton in Hin. injection Hin as -> -> ->.
    assert (in_bounds r' c' = true) as Hb by (apply in_bounds_true; unfold ROWS, COLS in *; lia).
    by rewrite get_in_bounds.
  - intros [Hb Hg]. rewrite get_in_bounds in Hg by done.
    apply in_bounds_true in Hb. exists r. split; [|apply elem_of_range; unfold ROWS; lia].
    apply list_elem_of_bind. exists c. split; [|apply elem_of_range; unfold COLS; lia].
    rewrite Hg. by apply list_elem_of_singleton.
Qed.

Lemma elem_of_generate_moves b col mv :
  mv ∈ generate_moves b col ↔
  ∃ r c p, in_bounds r c = true ∧ get b r c = Some p ∧ color p = col
           ∧ mv ∈ _piece_moves b r c p.
Proof.
  unfold generate_moves. rewrite list_elem_of_bind. split.
  - intros ([[r c] p] & Hmv & Hp). apply elem_of_all_pieces in Hp as [Hb Hg].
    case_bool_decide as Hc; [by apply elem_of_nil in Hmv|].
    exists r, c, p. split_and!; try done.
  - intros (r & c & p & Hb & Hg & Hc & Hmv). exists (r, c, p). split.
    + by rewrite bool_decide_eq_false_2 by (by intros ?).
    + by apply elem_of_all_pieces.
Qed.

(** *** Where generated moves start and land *)

Lemma start_maybe_promote mv col row : start (_maybe_promote mv col row) = start mv.
Proof. unfold _maybe_promote. by case_bool_decide. Qed.

Lemma end_maybe_promote mv col row : end_ (_maybe_promote mv col row) = end_ mv.
Proof. unfold _maybe_promote. by case_bool_decide. Qed.

Lemma lands_ok_maybe_promote b r c col mv row :
  lands_ok b r c col mv → lands_ok b r c col (_maybe_promote mv col row).
Proof. unfold lands_ok. by rewrite start_maybe_promote, end_maybe_promote. Qed.

Lemma lands_ok_empty b r c col nr nc :
  in_bounds nr nc = true → get b nr nc = None →
  lands_ok b r c col (mkMove (r, c) (nr, nc) None).
Proof. intros. split_and!; simpl; auto. Qed.

Lemma lands_ok_enemy b r c col nr nc q :
  get b nr nc = Some q → color q ≠ col →
  lands_ok b r c col (mkMove (r, c) (nr, nc) None).
Proof. intros Hq ?. split_and!; simpl; eauto using get_Some_in_bounds. Qed.

(** One square of a knight, king or slider: empty or enemy. *)
Lemma lands_ok_target b r c col nr nc mv :
  in_bounds nr nc = true →
  mv ∈ match get b nr nc with
       | None => [mkMove (r, c) (nr, nc) None]
       | Some target =>
           if bool_decide (color target ≠ col)
           then [mkMove (r, c) (nr, nc) None] else []
       end →
  lands_ok b r c col mv.
Proof.
  intros Hb. destruct (get b nr nc) as [q|] eqn:Hq.
  - case_bool_decide; [|by intros ?%elem_of_nil].
    intros ->%list_elem_of_singleton. by eapply lands_ok_enemy.
  - intros ->%list_elem_of_singleton. by apply lands_ok_empty.
Qed.

Lemma pawn_moves_lands_ok b r c col mv :
  in_bounds r c = true → mv ∈ _pawn_moves b r c col → lands_ok b r c col mv.
Proof.
  intros Hrc. unfold _pawn_moves. rewrite elem_of_app. intros [Hf|Hc].
  - destruct (in_bounds (r + pawn_dir col) c) eqn:Hb; simpl in Hf;
      [|by apply elem_of_nil in Hf].
    case_bool_decide as Hg; simpl in Hf; [|by apply elem_of_nil in Hf].
    apply elem_of_cons in Hf as [->|Hf].
    { by apply lands_ok_maybe_promote, lands_ok_empty. }
    case_bool_decide as Hs; simpl in Hf; [|by apply elem_of_nil in Hf].
    case_bool_decide as Hg2; simpl in Hf; [|by apply elem_of_nil in Hf].
    apply list_elem_of_singleton in Hf as ->. apply lands_ok_empty; [|done].
    apply in_bounds_true in Hrc. apply in_bounds_true.
    unfold pawn_start_row, pawn_dir in *. destruct (decide (col = White)); lia.
  - apply list_elem_of_bind in Hc as (dc & Hmv & _).
    destruct (in_bounds (r + pawn_dir col) (c + dc)) eqn:Hb;
      [|by apply elem_of_nil in Hmv].
    destruct (get b (r + pawn_dir col) (c + dc)) as [q|] eqn:Hq;
      [|by apply elem_of_nil in Hmv].
    case_bool_decide; [|by apply elem_of_nil in Hmv].
    apply list_elem_of_singleton in Hmv as ->.
    by eapply lands_ok_maybe_promote, lands_ok_enemy.
Qed.

Lemma knight_moves_lands_ok b r c col mv :
  mv ∈ _knight_moves b r c col → lands_ok b r c col mv.
Proof.
  unfold _knight_moves. intros ([dr dc] & Hmv & _)%list_elem_of_bind.
  destruct (in_bounds (r + dr) (c + dc)) eqn:Hb; simpl in Hmv;
    [|by apply elem_of_nil in Hmv].
  by eapply lands_ok_target.
Qed.

Lemma king_moves_lands_ok b r c col mv :
  mv ∈ _king_moves b r c col → lands_ok b r c col mv.
Proof.
  unfold _king_moves. intros ([dr dc] & Hmv & _)%list_elem_of_bind.
  destruct (in_bounds (r + dr) (c + dc)) eqn:Hb; simpl in Hmv;
    [|by apply elem_of_nil in Hmv].
  by eapply lands_ok_target.
Qed.

Lemma slider_walk_lands_ok fuel b r c col dr dc nr nc mv :
  mv ∈ slider_walk fuel b r c col dr dc nr nc → lands_ok b r c col mv.
Proof.
  revert nr nc. induction fuel as [|fuel IH]; intros nr nc; simpl.
  { by intros ?%elem_of_nil. }
  destruct (in_bounds nr nc) eqn:Hb; [|by intros ?%elem_of_nil].
  destruct (get b nr nc) as [q|] eqn:Hq.
  - case_bool_decide; [|by intros ?%elem_of_nil].
    intros ->%list_elem_of_singleton. by eapply lands_ok_enemy.
  - intros [->|Hmv]%elem_of_cons; [by apply lands_ok_empty|by eapply IH].
Qed.

Lemma slider_moves_lands_ok b r c col dirs mv :
  mv ∈ _slider_moves b r c col dirs → lands_ok b r c col mv.
Proof.
  unfold _slider_moves. intros ([dr dc] & Hmv & _)%list_elem_of_bind.
  by eapply slider_walk_lands_ok.
Qed.

Lemma piece_moves_lands_ok b r c p mv :
  in_bounds r c = true → mv ∈ _piece_moves b r c p → lands_ok b r c (color p) mv.
Proof.
  intros Hb. unfold _piece_moves.
  destruct (kind p);
    eauto using pawn_moves_lands_ok, knight_moves_lands_ok,
      king_moves_lands_ok, slider_moves_lands_ok.
Qed.

Lemma color_ne_other (c1 c2 : Color) : c1 ≠ c2 ↔ c1 = other c2.
Proof. unfold other. destruct c1, c2; case_decide; naive_solver. Qed.

Lemma initial_board_wf : wf_board initial_board.
Proof. split; [done|]. repeat constructor. Qed.

(** Both squares of a generated move are on the board. *)
Lemma generated_in_bounds b col mv :
  mv ∈ generate_moves b col →
  in_bounds (start mv).1 (start mv).2 = true
  ∧ in_bounds (end_ mv).1 (end_ mv).2 = true.
Proof.
  intros (r & c & p & Hb & Hg & Hc & Hmv)%elem_of_generate_moves.
  apply piece_moves_lands_ok in Hmv as (Hs & He & Ht); [|done].
  by rewrite Hs.
Qed.

(** C1.  Every move of [generate_moves b col] starts and ends in bounds,
    starts on a piece of colour [col], and ends on an empty square or on a
    piece of the other colour. *)
Theorem C1_generate_moves_squares (b : Board) (col : Color) (mv : Move) :
  wf_board b →
  mv ∈ generate_moves b col →
  in_bounds (start mv).1 (start mv).2 = true
  ∧ in_bounds (end_ mv).1 (end_ mv).2 = true
  ∧ (∃ p, get b (start mv).1 (start mv).2 = Some p ∧ color p = col)
  ∧ (get b (end_ mv).1 (end_ mv).2 = None
     ∨ ∃ q, get b (end_ mv).1 (end_ mv).2 = Some q ∧ color q = other col).
Proof.
  intros _ (r & c & p & Hb & Hg & Hc & Hmv)%elem_of_generate_moves.
  apply piece_moves_lands_ok in Hmv as (Hs & He & Ht); [|done].
  rewrite Hs. simpl. split_and!; [done|done|by exists p|].
  destruct Ht as [?|(q & ? & Hq)]; [by left|right].
  exists q. split; [done|]. apply color_ne_other. by rewrite <-Hc.
Qed.

Lemma C1_generate_moves_squares_witness :
  let mv := mkMove (6, 0) (5, 0) None in
  in_bounds (start mv).1 (start mv).2 = true
  ∧ in_bounds (end_ mv).1 (end_ mv).2 = true
  ∧ (∃ p, get initial_board (start mv).1 (start mv).2 = Some p ∧ color p = White)
  ∧ (get initial_board (end_ mv).1 (end_ mv).2 = None
     ∨ ∃ q, get initial_board (end_ mv).1 (end_ mv).2 = Some q
            ∧ color q = other White).
Proof.
  apply (C1_generate_moves_squares initial_board White (mkMove (6, 0) (5, 0) None)).
  - split; [reflexivity|repeat constructor].
  - vm_compute. left.
Defined.

(** *** [set] and [move_piece] on in-bounds squares *)

Lemma py_index_in_range (len : nat) (i : Z) :
  0 ≤ i < Z.of_nat len → py_index len i = Some (Z.to_nat i).
Proof. intros. unfold py_index. by rewrite bool_decide_eq_true_2. Qed.

Lemma wf_board_row b r :
  wf_board b → 0 ≤ r < 8 →
  ∃ row, board b !! Z.to_nat r = Some row ∧ length row = 8%nat.
Proof.
  intros [Hlen Hrows] Hr.
  destruct (lookup_lt_is_Some_2 (board b) (Z.to_nat r)) as [row Hrow]; [lia|].
  exists row. split; [done|].
  by eapply (Forall_lookup_1 _ _ _ _ Hrows Hrow).
Qed.

Lemma set_in_bounds b r c piece :
  wf_board b → in_bounds r c = true →
  ∃ b', set b r c piece = Some b'
        ∧ wf_board b'
        ∧ to_move b' = to_move b
        ∧ ∀ r' c', get b' r' c' =
                   if bool_decide (r' = r ∧ c' = c) then piece else get b r' c'.
Proof.
  intros Hwf Hb. apply in_bounds_true in Hb as [Hr Hc].
  destruct (wf_board_row b r Hwf Hr) as (row & Hrow & Hlen).
  pose proof Hwf as [Hlen8 Hrows].
  eexists. unfold set. rewrite Hlen8, py_index_in_range by lia. simpl.
  rewrite Hrow. simpl. rewrite Hlen, py_index_in_range by lia. simpl.
  split; [done|]. split; [|split; [done|]].
  - split; simpl; [by rewrite length_insert|].
    apply Forall_insert; [done|]. by rewrite length_insert.
  - intros r' c'. unfold get. destruct (in_bounds r' c') eqn:Hb'; simpl.
    + apply in_bounds_true in Hb' as [Hr' Hc']. unfold grid_at. simpl.
      destruct (decide (r' = r)) as [->|Hne].
      * rewrite list_lookup_insert_eq by lia.
        destruct (decide (c' = c)) as [->|Hnc].
        -- rewrite list_lookup_insert_eq by lia.
           by rewrite bool_decide_eq_true_2.
        -- rewrite list_lookup_insert_ne by lia.
           rewrite bool_decide_eq_false_2 by (by intros [_ ?]). by rewrite Hrow.
      * rewrite list_lookup_insert_ne by lia.
        by rewrite bool_decide_eq_false_2 by (by intros [? _]).
    + apply in_bounds_false in Hb'.
      by rewrite bool_decide_eq_false_2 by (intros [-> ->]; lia).
Qed.

Lemma move_piece_in_bounds b mv :
  wf_board b →
  in_bounds (start mv).1 (start mv).2 = true →
  in_bounds (end_ mv).1 (end_ mv).2 = true →
  ∃ b', move_piece b mv = Some b'
        ∧ wf_board b'
        ∧ to_move b' = other (to_move b)
        ∧ ∀ r c, get b' r c =
                 if bool_decide (r = (end_ mv).1 ∧ c = (end_ mv).2) then placed b mv
                 else if bool_decide (r = (start mv).1 ∧ c = (start mv).2) then None
                 else get b r c.
Proof.
  intros Hwf Hs He. unfold move_piece, placed.
  destruct (start mv) as [sr sc], (end_ mv) as [er ec]. simpl in *.
  destruct (set_in_bounds b sr sc None Hwf Hs) as (b1 & -> & Hwf1 & Htm1 & Hget1).
  simpl.
  assert (∀ piece, ∃ b2, set b1 er ec piece = Some b2 ∧ wf_board b2
            ∧ to_move b2 = to_move b
            ∧ ∀ r c, get b2 r c =
                 if bool_decide (r = er ∧ c = ec) then piece
                 else if bool_decide (r = sr ∧ c = sc) then None
                 else get b r c) as Hset2.
  { intros piece.
    destruct (set_in_bounds b1 er ec piece Hwf1 He) as (b2 & -> & ? & ? & Hget2).
    exists b2. split; [done|]. split; [done|]. split; [congruence|].
    intros r c. by rewrite Hget2, Hget1. }
  assert (∀ b2 piece, set b1 er ec piece = Some b2 → wf_board b2 →
            to_move b2 = to_move b →
            wf_board (mkBoard (board b2)
                        (if decide (to_move b2 = White) then Black else White))
            ∧ (if decide (to_move b2 = White) then Black else White)
              = other (to_move b)) as Hfin.
  { intros b2 piece _ Hwf2 Htm2. split; [done|]. unfold other. by rewrite Htm2. }
  destruct (promotion mv) as [k|], (get b sr sc) as [p|]; try case_decide;
    match goal with
    | |- context [set b1 er ec ?piece] =>
        destruct (Hset2 piece) as (b2 & Heq & Hwf2 & Htm2 & Hget2);
        rewrite Heq; simpl;
        destruct (Hfin b2 piece Heq Hwf2 Htm2) as [? ?];
        eexists; split; [done|]; split; [done|]; split; done
    end.
Qed.

(** C4 fails as stated when a move starts and ends on the same square: the
    second [set] overwrites the [None] of the first, and the start square
    holds the piece afterwards. *)
Lemma C4_start_equals_end_counterexample :
  let mv := mkMove (6, 0) (6, 0) None in
  in_bounds (start mv).1 (start mv).2 = true
  ∧ in_bounds (end_ mv).1 (end_ mv).2 = true
  ∧ ∃ b', move_piece initial_board mv = Some b'
          ∧ get b' (start mv).1 (start mv).2 = Some (mkPiece White Pawn).
Proof. simpl. split; [done|]. split; [done|]. eexists. split; reflexivity. Qed.

(** C4, amended.  For every move with both squares in bounds, [move_piece]
    returns; afterwards the end square holds the moved occupant (for a pawn
    with [promotion] set, a new piece of the pawn's colour and the promotion
    kind), the start square is empty when it differs from the end square,
    [to_move] is the other colour, and every other square is unchanged. *)
Theorem C4_move_piece_effect (b : Board) (mv : Move) :
  wf_board b →
  in_bounds (start mv).1 (start mv).2 = true →
  in_bounds (end_ mv).1 (end_ mv).2 = true →
  ∃ b', move_piece b mv = Some b'
        ∧ wf_board b'
        ∧ get b' (end_ mv).1 (end_ mv).2 =
            match promotion mv, get b (start mv).1 (start mv).2 with
            | Some k, Some p =>
                if decide (kind p = Pawn) then Some (mkPiece (color p) k) else Some p
            | _, occupant => occupant
            end
        ∧ (start mv ≠ end_ mv → get b' (start mv).1 (start mv).2 = None)
        ∧ to_move b' = other (to_move b)
        ∧ ∀ r c, (r, c) ≠ start mv → (r, c) ≠ end_ mv → get b' r c = get b r c.
Proof.
  intros Hwf Hs He.
  destruct (move_piece_in_bounds b mv Hwf Hs He) as (b' & Hmv & Hwf' & Htm & Hget).
  exists b'. split; [done|]. split; [done|].
  destruct (start mv) as [sr sc] eqn:Hst, (end_ mv) as [er ec] eqn:Hen.
  simpl in *. split; [|split; [|split; [done|]]].
  - rewrite Hget, bool_decide_eq_true_2 by done. unfold placed. rewrite Hst. simpl.
    by destruct (promotion mv), (get b sr sc).
  - intros Hne. rewrite Hget, bool_decide_eq_false_2 by (intros [-> ->]; done).
    by rewrite bool_decide_eq_true_2.
  - intros r c Hns Hne. rewrite Hget.
    rewrite bool_decide_eq_false_2 by (intros [-> ->]; done).
    by rewrite bool_decide_eq_false_2 by (intros [-> ->]; done).
Qed.

Lemma C4_move_piece_effect_witness :
  let b := initial_board in
  let mv := mkMove (6, 4) (4, 4) None in
  ∃ b', move_piece b mv = Some b'
        ∧ wf_board b'
        ∧ get b' 4 4 = Some (mkPiece White Pawn)
        ∧ (start mv ≠ end_ mv → get b' 6 4 = None)
        ∧ to_move b' = other (to_move b)
        ∧ ∀ r c, (r, c) ≠ start mv → (r, c) ≠ end_ mv → get b' r c = get b r c.
Proof.
  apply (C4_move_piece_effect initial_board (mkMove (6, 4) (4, 4) None)).
  - split; [reflexivity|repeat constructor].
  - reflexivity.
  - reflexivity.
Defined.

(** *** The attack oracle, piece by piece *)

Lemma existsb_elem_of {A} (f : A → bool) (l : list A) :
  existsb f l = true ↔ ∃ x, x ∈ l ∧ f x = true.
Proof.
  rewrite existsb_exists. split; intros (x & Hx & Hf); exists x;
    (split; [by apply list_elem_of_In|done]).
Qed.

(** [is_square_attacked] returns [True] exactly when the loop body does so
    for one of the pieces of [by_color] on the board. *)
Lemma is_square_attacked_true b r c col :
  is_square_attacked b r c col = true ↔
  ∃ rr cc p, in_bounds rr cc = true ∧ get b rr cc = Some p ∧ color p = col
             ∧ attack_from b r c col rr cc p = true.
Proof.
  unfold is_square_attacked. rewrite existsb_elem_of. split.
  - intros ([[rr cc] p] & Hin & Hat). apply elem_of_all_pieces in Hin as [Hb Hg].
    case_bool_decide as Hc; [done|]. exists rr, cc, p.
    split; [done|]. split; [done|]. split; [|done].
    by destruct (decide (color p = col)).
  - intros (rr & cc & p & Hb & Hg & Hc & Hat). exists (rr, cc, p). split.
    + by apply elem_of_all_pieces.
    + by rewrite bool_decide_eq_false_2 by (by intros ?).
Qed.

(** The walk of the sliding branch: it answers [True] exactly when the
    queried square is reached, in bounds, after [k] steps over empty
    in-bounds squares. *)
Lemma attack_walk_true fuel b r c dr dc nr nc :
  attack_walk fuel b r c dr dc nr nc = true ↔
  ∃ k : Z, 0 ≤ k < Z.of_nat fuel
    ∧ r = nr + k * dr ∧ c = nc + k * dc
    ∧ in_bounds r c = true
    ∧ ∀ j : Z, 0 ≤ j < k →
        in_bounds (nr + j * dr) (nc + j * dc) = true
        ∧ get b (nr + j * dr) (nc + j * dc) = None.
Proof.
  revert nr nc. induction fuel as [|fuel IH]; intros nr nc; simpl.
  { split; [done|]. intros (k & ? & _). lia. }
  destruct (in_bounds nr nc) eqn:Hb.
  - case_bool_decide as Heq.
    + destruct Heq as [Hr Hc]. split; [|done]. intros _. exists 0.
      split; [lia|]. split; [lia|]. split; [lia|]. split; [by subst|]. lia.
    + case_bool_decide as Hocc.
      * split; [done|]. intros (k & Hk & Hr & Hc & _ & Hfree).
        destruct (decide (k = 0)) as [->|]; [exfalso; apply Heq; lia|].
        destruct (Hfree 0) as [_ Hg]; [lia|].
        replace (nr + 0 * dr) with nr in Hg by lia.
        replace (nc + 0 * dc) with nc in Hg by lia. done.
      * rewrite IH. split.
        -- intros (k & Hk & Hr & Hc & Hin & Hfree). exists (k + 1).
           split; [lia|]. split; [lia|]. split; [lia|]. split; [done|].
           intros j Hj. destruct (decide (j = 0)) as [->|].
           ++ replace (nr + 0 * dr) with nr by lia.
              replace (nc + 0 * dc) with nc by lia. done.
           ++ destruct (Hfree (j - 1)) as [H1 H2]; [lia|].
              replace (nr + dr + (j - 1) * dr) with (nr + j * dr) in * by lia.
              replace (nc + dc + (j - 1) * dc) with (nc + j * dc) in * by lia.
              done.
        -- intros (k & Hk & Hr & Hc & Hin & Hfree).
           destruct (decide (k = 0)) as [->|]; [exfalso; apply Heq; lia|].
           exists (k - 1). split; [lia|]. split; [lia|]. split; [lia|].
           split; [done|].
           intros j Hj. destruct (Hfree (j + 1)) as [H1 H2]; [lia|].
           replace (nr + (j + 1) * dr) with (nr + dr + j * dr) in * by lia.
           replace (nc + (j + 1) * dc) with (nc + dc + j * dc) in * by lia.
           done.
  - split; [done|]. intros (k & Hk & Hr & Hc & Hin & Hfree).
    destruct (decide (k = 0)) as [->|].
    + replace r with nr in Hin by lia.
      replace c with nc in Hin by lia. congruence.
    + destruct (Hfree 0) as [Hin0 _]; [lia|].
      replace (nr + 0 * dr) with nr in Hin0 by lia.
      replace (nc + 0 * dc) with nc in Hin0 by lia. congruence.
Qed.

(** *** The walks end within [WALK_FUEL] steps *)

(** Eight steps in a direction that is not [(0, 0)] leave the board. *)
Lemma eight_steps_leave nr nc dr dc :
  dr ≠ 0 ∨ dc ≠ 0 →
  in_bounds nr nc = false
  ∨ in_bounds (nr + Z.of_nat WALK_FUEL * dr) (nc + Z.of_nat WALK_FUEL * dc) = false.
Proof.
  intros Hd. destruct (in_bounds nr nc) eqn:Hb; [right|by left].
  apply in_bounds_true in Hb. apply in_bounds_false. unfold WALK_FUEL. lia.
Qed.

Lemma slider_walk_more_fuel (k n m : nat) b r c col dr dc nr nc :
  (k ≤ n)%nat → (k ≤ m)%nat →
  in_bounds (nr + Z.of_nat k * dr) (nc + Z.of_nat k * dc) = false →
  slider_walk n b r c col dr dc nr nc = slider_walk m b r c col dr dc nr nc.
Proof.
  revert n m nr nc. induction k as [|k IH]; intros n m nr nc Hn Hm Hout.
  - replace (nr + Z.of_nat 0 * dr) with nr in Hout by lia.
    replace (nc + Z.of_nat 0 * dc) with nc in Hout by lia.
    destruct n, m; simpl; by rewrite ?Hout.
  - destruct n as [|n], m as [|m]; try lia. simpl.
    destruct (in_bounds nr nc); [|done].
    destruct (get b nr nc); [done|]. f_equal.
    apply IH; [lia|lia|].
    replace (nr + dr + Z.of_nat k * dr) with (nr + Z.of_nat (S k) * dr) by lia.
    by replace (nc + dc + Z.of_nat k * dc) with (nc + Z.of_nat (S k) * dc) by lia.
Qed.

Lemma attack_walk_more_fuel (k n m : nat) b r c dr dc nr nc :
  (k ≤ n)%nat → (k ≤ m)%nat →
  in_bounds (nr + Z.of_nat k * dr) (nc + Z.of_nat k * dc) = false →
  attack_walk n b r c dr dc nr nc = attack_walk m b r c dr dc nr nc.
Proof.
  revert n m nr nc. induction k as [|k IH]; intros n m nr nc Hn Hm Hout.
  - replace (nr + Z.of_nat 0 * dr) with nr in Hout by lia.
    replace (nc + Z.of_nat 0 * dc) with nc in Hout by lia.
    destruct n, m; simpl; by rewrite ?Hout.
  - destruct n as [|n], m as [|m]; try lia. simpl.
    destruct (in_bounds nr nc); [|done].
    case_bool_decide; [done|]. case_bool_decide; [done|].
    apply IH; [lia|lia|].
    replace (nr + dr + Z.of_nat k * dr) with (nr + Z.of_nat (S k) * dr) by lia.
    by replace (nc + dc + Z.of_nat k * dc) with (nc + Z.of_nat (S k) * dc) by lia.
Qed.

(** The [while] loop of [_slider_moves] has ended when the fuel runs out:
    any larger amount of fuel gives the same moves. *)
Lemma slider_walk_fuel (fuel : nat) b r c col dr dc nr nc :
  dr ≠ 0 ∨ dc ≠ 0 → (WALK_FUEL ≤ fuel)%nat →
  slider_walk fuel b r c col dr dc nr nc
  = slider_walk WALK_FUEL b r c col dr dc nr nc.
Proof.
  intros Hd Hfuel. destruct (eight_steps_leave nr nc dr dc Hd) as [Hout|Hout].
  - apply (slider_walk_more_fuel 0); [lia|lia|].
    by replace (nr + Z.of_nat 0 * dr) with nr by lia;
       replace (nc + Z.of_nat 0 * dc) with nc by lia.
  - by apply (slider_walk_more_fuel WALK_FUEL).
Qed.

(** The same for the [while] loop of [is_square_attacked]. *)
Lemma attack_walk_fuel (fuel : nat) b r c dr dc nr nc :
  dr ≠ 0 ∨ dc ≠ 0 → (WALK_FUEL ≤ fuel)%nat →
  attack_walk fuel b r c dr dc nr nc = attack_walk WALK_FUEL b r c dr dc nr nc.
Proof.
  intros Hd Hfuel. destruct (eight_steps_leave nr nc dr dc Hd) as [Hout|Hout].
  - apply (attack_walk_more_fuel 0); [lia|lia|].
    by replace (nr + Z.of_nat 0 * dr) with nr by lia;
       replace (nc + Z.of_nat 0 * dc) with nc by lia.
  - by apply (attack_walk_more_fuel WALK_FUEL).
Qed.

(** Every direction the code walks in is a unit step other than [(0, 0)]. *)
Lemma slider_directions_unit k dr dc :
  (dr, dc) ∈ slider_directions k →
  (dr ≠ 0 ∨ dc ≠ 0) ∧ -1 ≤ dr ≤ 1 ∧ -1 ≤ dc ≤ 1.
Proof.
  unfold slider_directions, DIAGONALS, ORTHOGONALS.
  destruct k; simpl; rewrite ?elem_of_cons, elem_of_nil;
    intros H; repeat destruct H as [H|H]; try done; injection H as -> ->; lia.
Qed.

(** With any larger amount of fuel, [_slider_moves] gives the same moves for
    the direction lists [_piece_moves] passes, and the sliding branch of
    [is_square_attacked] the same answer. *)
Lemma slider_moves_fuel (fuel : nat) b r c col k :
  (WALK_FUEL ≤ fuel)%nat →
  ('(dr, dc) ← slider_directions k;
   slider_walk fuel b r c col dr dc (r + dr) (c + dc))
  = _slider_moves b r c col (slider_directions k).
Proof.
  intros Hfuel. unfold _slider_moves. apply Forall_bind_ext.
  apply list.Forall_forall. intros [dr dc] Hd.
  apply slider_directions_unit in Hd as [Hd _]. by apply slider_walk_fuel.
Qed.

Lemma slider_attack_fuel (fuel : nat) b r c rr cc k :
  (WALK_FUEL ≤ fuel)%nat →
  existsb (λ '(dr, dc), attack_walk fuel b r c dr dc (rr + dr) (cc + dc))
          (slider_directions k)
  = existsb (λ '(dr, dc), attack_walk WALK_FUEL b r c dr dc (rr + dr) (cc + dc))
            (slider_directions k).
Proof.
  intros Hfuel. apply eq_true_iff_eq. rewrite !existsb_elem_of.
  split; intros ([dr dc] & Hd & Hw); exists (dr, dc); (split; [done|]);
    pose proof (slider_directions_unit k dr dc Hd) as [Hnz _].
  - by rewrite attack_walk_fuel in Hw.
  - by rewrite attack_walk_fuel.
Qed.

(** *** Squares outside the board *)

(** The pawn, knight and sliding branches never answer [True] for a square
    outside the board. *)
Lemma attack_from_out_of_bounds b r c col rr cc p :
  in_bounds r c = false → kind p ≠ King →
  attack_from b r c col rr cc p = false.
Proof.
  intros Hout Hk. apply not_true_is_false. unfold attack_from.
  destruct (kind p) eqn:Hkind; try done.
  - intros ([dr dc] & _ & Hw%attack_walk_true)%existsb_elem_of.
    destruct Hw as (k & _ & _ & _ & Hin & _). congruence.
  - intros ([dr dc] & _ & Hw%attack_walk_true)%existsb_elem_of.
    destruct Hw as (k & _ & _ & _ & Hin & _). congruence.
  - intros ([dr dc] & _ & Hw%attack_walk_true)%existsb_elem_of.
    destruct Hw as (k & _ & _ & _ & Hin & _). congruence.
  - intros ([dr dc] & _ & Hw)%existsb_elem_of.
    apply andb_true_iff in Hw as [_ Hin]. congruence.
  - intros (dc & _ & Hw)%existsb_elem_of.
    apply andb_true_iff in Hw as [Heq Hin].
    apply bool_decide_eq_true in Heq as [<- <-]. congruence.
Qed.

(** C7.  [get] answers [None] outside the board, and so do the pawn, knight
    and sliding branches of [is_square_attacked] ([attack_from_out_of_bounds]);
    the king branch compares coordinates without the [in_bounds] test of its
    siblings: on the initial board the square [(-1, 4)], above the black
    king, is reported as attacked by Black. *)
Theorem C7_king_branch_ignores_bounds :
  in_bounds (-1) 4 = false
  ∧ get initial_board (-1) 4 = None
  ∧ is_square_attacked initial_board (-1) 4 Black = true.
Proof. split; [done|]. split; [done|]. reflexivity. Qed.

(** *** Pawn attacks *)

(** C9.  For a queried square in bounds, the pawn branch answers [True]
    exactly when the square is one row ahead of the pawn (row - 1 for White,
    row + 1 for Black) and one column to either side; the answer does not
    depend on the board, hence not on what stands on the queried square; a
    pawn of colour [col] in that position makes
    [is_square_attacked b r c col] true; and [is_square_attacked b r c col]
    is true only when some piece of colour [col] attacks the square: a pawn
    from such a position, a piece of another kind by the test of its own
    branch. *)
Theorem C9_pawn_attacks_forward_diagonals (b : Board) (r c rr cc : Z) (col : Color) :
  wf_board b →
  in_bounds r c = true →
  let pawn := mkPiece col Pawn in
  let ahead := if decide (col = White) then rr - 1 else rr + 1 in
  (attack_from b r c col rr cc pawn = true ↔ r = ahead ∧ (c = cc - 1 ∨ c = cc + 1))
  ∧ (∀ b', attack_from b' r c col rr cc pawn = attack_from b r c col rr cc pawn)
  ∧ (get b rr cc = Some pawn →
     (r = ahead ∧ (c = cc - 1 ∨ c = cc + 1)) →
     is_square_attacked b r c col = true)
  ∧ (is_square_attacked b r c col = true ↔
     ∃ rr' cc' p,
       get b rr' cc' = Some p ∧ color p = col
       ∧ match kind p with
         | Pawn =>
             r = (if decide (col = White) then rr' - 1 else rr' + 1)
             ∧ (c = cc' - 1 ∨ c = cc' + 1)
         | _ => attack_from b r c col rr' cc' p = true
         end).
Proof.
  intros _ Hin pawn ahead.
  assert (∀ rr cc,
            attack_from b r c col rr cc pawn = true
            ↔ r = (if decide (col = White) then rr - 1 else rr + 1)
              ∧ (c = cc - 1 ∨ c = cc + 1)) as Hiff.
  { clear rr cc ahead. intros rr cc. unfold attack_from, pawn, pawn_dir. simpl.
    rewrite !orb_true_iff, !andb_true_iff, !bool_decide_eq_true.
    destruct (decide (col = White)); split.
    - intros [[[<- <-] _]|[[[<- <-] _]|?]]; [lia|lia|done].
    - intros [-> [->| ->]].
      + left. split; [lia|]. by replace (rr + -1) with (rr - 1) by lia;
          replace (cc + -1) with (cc - 1) by lia.
      + right. left. split; [lia|]. by replace (rr + -1) with (rr - 1) by lia.
    - intros [[[<- <-] _]|[[[<- <-] _]|?]]; [lia|lia|done].
    - intros [-> [->| ->]].
      + left. split; [lia|]. by replace (cc + -1) with (cc - 1) by lia.
      + right. left. split; [lia|]. done. }
  split; [apply Hiff|]. split; [done|]. split.
  - intros Hg Hsq. apply is_square_attacked_true. exists rr, cc, pawn.
    split; [by eapply get_Some_in_bounds|]. split; [done|]. split; [done|].
    by apply Hiff.
  - rewrite is_square_attacked_true. split.
    + intros (rr' & cc' & p & _ & Hg & Hc & Hat). exists rr', cc', p.
      split; [done|]. split; [done|].
      destruct p as [pc pk]. simpl in *. subst pc.
      destruct pk; try done. by apply Hiff.
    + intros (rr' & cc' & p & Hg & Hc & Hat). exists rr', cc', p.
      split; [by eapply get_Some_in_bounds|]. split; [done|]. split; [done|].
      destruct p as [pc pk]. simpl in *. subst pc.
      destruct pk; try done. by apply Hiff.
Qed.

Lemma C9_pawn_attacks_forward_diagonals_witness :
  (attack_from initial_board 5 3 White 6 4 (mkPiece White Pawn) = true
     ↔ 5 = 6 - 1 ∧ (3 = 4 - 1 ∨ 3 = 4 + 1))
  ∧ (∀ b', attack_from b' 5 3 White 6 4 (mkPiece White Pawn)
           = attack_from initial_board 5 3 White 6 4 (mkPiece White Pawn))
  ∧ (get initial_board 6 4 = Some (mkPiece White Pawn) →
     (5 = 6 - 1 ∧ (3 = 4 - 1 ∨ 3 = 4 + 1)) →
     is_square_attacked initial_board 5 3 White = true)
  ∧ (is_square_attacked initial_board 5 3 White = true ↔
     ∃ rr' cc' p,
       get initial_board rr' cc' = Some p ∧ color p = White
       ∧ match kind p with
         | Pawn => 5 = rr' - 1 ∧ (3 = cc' - 1 ∨ 3 = cc' + 1)
         | _ => attack_from initial_board 5 3 White rr' cc' p = true
         end).
Proof.
  apply (C9_pawn_attacks_forward_diagonals initial_board 5 3 6 4 White).
  - split; [reflexivity|repeat constructor].
  - reflexivity.
Defined.

(** *** Sliding attacks *)

Lemma slider_attack_ray b r c rr cc dr dc :
  in_bounds rr cc = true → in_bounds r c = true →
  (dr ≠ 0 ∨ dc ≠ 0) →
  attack_walk WALK_FUEL b r c dr dc (rr + dr) (cc + dc) = true
  ↔ ray_reaches b rr cc dr dc r c.
Proof.
  intros Hp Hs Hd. rewrite attack_walk_true. unfold ray_reaches. split.
  - intros (k & Hk & Hr & Hc & _ & Hfree). exists (k + 1).
    split; [lia|]. split; [lia|]. split; [lia|].
    intros j Hj. destruct (Hfree (j - 1)) as [H1 H2]; [lia|].
    replace (rr + dr + (j - 1) * dr) with (rr + j * dr) in * by lia.
    replace (cc + dc + (j - 1) * dc) with (cc + j * dc) in * by lia.
    done.
  - intros (k & Hk & Hr & Hc & Hfree). exists (k - 1).
    split.
    { apply in_bounds_true in Hp, Hs. unfold WALK_FUEL. nia. }
    split; [lia|]. split; [lia|]. split; [done|].
    intros j Hj. destruct (Hfree (j + 1)) as [H1 H2]; [lia|].
    replace (rr + (j + 1) * dr) with (rr + dr + j * dr) in * by lia.
    replace (cc + (j + 1) * dc) with (cc + dc + j * dc) in * by lia.
    done.
Qed.

(** C8.  For a queried square in bounds and a bishop, rook or queen standing
    on [(rr, cc)], the sliding branch answers [True] exactly when the queried
    square is reached along one of the piece's directions (diagonals for a
    bishop, orthogonals for a rook, both for a queen) with only empty squares
    before it, whatever stands on the queried square itself; such a piece
    of colour [col] makes [is_square_attacked b r c col] true; and
    [is_square_attacked b r c col] is true only when some piece of colour
    [col] attacks the square: a bishop, rook or queen along such a ray, a
    piece of another kind by the test of its own branch. *)
Theorem C8_slider_attacks_along_rays (b : Board) (r c rr cc : Z) (col : Color)
    (k : Kind) :
  wf_board b →
  in_bounds r c = true →
  in_bounds rr cc = true →
  is_slider k →
  let directions :=
    match k with
    | Bishop => DIAGONALS
    | Rook => ORTHOGONALS
    | _ => DIAGONALS ++ ORTHOGONALS
    end in
  (attack_from b r c col rr cc (mkPiece col k) = true
   ↔ ∃ dr dc, (dr, dc) ∈ directions ∧ ray_reaches b rr cc dr dc r c)
  ∧ (get b rr cc = Some (mkPiece col k) →
     (∃ dr dc, (dr, dc) ∈ directions ∧ ray_reaches b rr cc dr dc r c) →
     is_square_attacked b r c col = true)
  ∧ (is_square_attacked b r c col = true ↔
     ∃ rr' cc' p,
       get b rr' cc' = Some p ∧ color p = col
       ∧ match kind p with
         | Bishop =>
             ∃ dr dc, (dr, dc) ∈ DIAGONALS ∧ ray_reaches b rr' cc' dr dc r c
         | Rook =>
             ∃ dr dc, (dr, dc) ∈ ORTHOGONALS ∧ ray_reaches b rr' cc' dr dc r c
         | Queen =>
             ∃ dr dc, (dr, dc) ∈ DIAGONALS ++ ORTHOGONALS
                      ∧ ray_reaches b rr' cc' dr dc r c
         | _ => attack_from b r c col rr' cc' p = true
         end).
Proof.
  intros _ Hs Hp Hk directions.
  assert (slider_directions k = directions) as Hdirs.
  { by destruct Hk as [->|[->| ->]]. }
  assert (∀ rr cc k, in_bounds rr cc = true → is_slider k →
            attack_from b r c col rr cc (mkPiece col k) = true
            ↔ ∃ dr dc, (dr, dc) ∈ slider_directions k
                       ∧ ray_reaches b rr cc dr dc r c) as Hiff.
  { clear rr cc k Hp Hk directions Hdirs. intros rr cc k Hp Hk.
    assert (attack_from b r c col rr cc (mkPiece col k)
            = existsb (λ '(dr, dc),
                         attack_walk WALK_FUEL b r c dr dc (rr + dr) (cc + dc))
                      (slider_directions k)) as ->.
    { unfold attack_from. simpl. by destruct Hk as [->|[->| ->]]. }
    rewrite existsb_elem_of. split.
    - intros ([dr dc] & Hd & Hw). exists dr, dc. split; [done|].
      apply slider_directions_unit in Hd as [Hd _].
      by apply slider_attack_ray.
    - intros (dr & dc & Hd & Hray). exists (dr, dc). split; [done|].
      apply slider_directions_unit in Hd as [Hd _].
      by apply slider_attack_ray. }
  split; [rewrite <-Hdirs; by apply Hiff|]. split.
  - intros Hg Hray. apply is_square_attacked_true.
    exists rr, cc, (mkPiece col k).
    split; [done|]. split; [done|]. split; [done|].
    apply Hiff; [done|done|]. by rewrite Hdirs.
  - rewrite is_square_attacked_true. split.
    + intros (rr' & cc' & p & Hin' & Hg & Hc & Hat). exists rr', cc', p.
      split; [done|]. split; [done|].
      destruct p as [pc pk]. simpl in *. subst pc. destruct pk; try done.
      * by apply (Hiff rr' cc' Queen Hin'); [right; right|].
      * by apply (Hiff rr' cc' Rook Hin'); [right; left|].
      * by apply (Hiff rr' cc' Bishop Hin'); [left|].
    + intros (rr' & cc' & p & Hg & Hc & Hat).
      assert (in_bounds rr' cc' = true) as Hin' by (by eapply get_Some_in_bounds).
      exists rr', cc', p. split; [done|]. split; [done|]. split; [done|].
      destruct p as [pc pk]. simpl in *. subst pc. destruct pk; try done.
      * by apply (Hiff rr' cc' Queen Hin'); [right; right|].
      * by apply (Hiff rr' cc' Rook Hin'); [right; left|].
      * by apply (Hiff rr' cc' Bishop Hin'); [left|].
Qed.

(** A black rook on [(0, 0)] of the initial board: the knight next to it is
    the first occupied square to its right. *)
Lemma C8_slider_attacks_along_rays_witness :
  (attack_from initial_board 0 1 Black 0 0 (mkPiece Black Rook) = true
   ↔ ∃ dr dc, (dr, dc) ∈ ORTHOGONALS ∧ ray_reaches initial_board 0 0 dr dc 0 1)
  ∧ (get initial_board 0 0 = Some (mkPiece Black Rook) →
     (∃ dr dc, (dr, dc) ∈ ORTHOGONALS ∧ ray_reaches initial_board 0 0 dr dc 0 1) →
     is_square_attacked initial_board 0 1 Black = true)
  ∧ (is_square_attacked initial_board 0 1 Black = true ↔
     ∃ rr' cc' p,
       get initial_board rr' cc' = Some p ∧ color p = Black
       ∧ match kind p with
         | Bishop =>
             ∃ dr dc, (dr, dc) ∈ DIAGONALS
                      ∧ ray_reaches initial_board rr' cc' dr dc 0 1
         | Rook =>
             ∃ dr dc, (dr, dc) ∈ ORTHOGONALS
                      ∧ ray_reaches initial_board rr' cc' dr dc 0 1
         | Queen =>
             ∃ dr dc, (dr, dc) ∈ DIAGONALS ++ ORTHOGONALS
                      ∧ ray_reaches initial_board rr' cc' dr dc 0 1
         | _ => attack_from initial_board 0 1 Black rr' cc' p = true
         end).
Proof.
  apply (C8_slider_attacks_along_rays initial_board 0 1 0 0 Black Rook).
  - split; [reflexivity|repeat constructor].
  - reflexivity.
  - reflexivity.
  - right. left. reflexivity.
Defined.

(** *** Promotions *)

Lemma maybe_promote_last_row r c nr nc col :
  promotes_on_last_row col (_maybe_promote (mkMove (r, c) (nr, nc) None) col nr).
Proof.
  unfold promotes_on_last_row, _maybe_promote, promotion_row.
  case_bool_decide as Hrow; simpl.
  - left. split; [done|]. by destruct Hrow as [[-> ->]|[-> ->]].
  - right. split; [done|]. intros Heq. apply Hrow.
    destruct col; [left|right]; done.
Qed.

Lemma pawn_moves_promotion b r c col mv :
  mv ∈ _pawn_moves b r c col → promotes_on_last_row col mv.
Proof.
  unfold _pawn_moves. rewrite elem_of_app. intros [Hf|Hc].
  - destruct (in_bounds (r + pawn_dir col) c) eqn:Hb; simpl in Hf;
      [|by apply elem_of_nil in Hf].
    case_bool_decide as Hg; simpl in Hf; [|by apply elem_of_nil in Hf].
    apply elem_of_cons in Hf as [->|Hf]; [apply maybe_promote_last_row|].
    case_bool_decide as Hs; simpl in Hf; [|by apply elem_of_nil in Hf].
    case_bool_decide as Hg2; simpl in Hf; [|by apply elem_of_nil in Hf].
    apply list_elem_of_singleton in Hf as ->. right. split; [done|]. simpl.
    unfold pawn_start_row, pawn_dir, promotion_row in *.
    destruct (decide (col = White)); lia.
  - apply list_elem_of_bind in Hc as (dc & Hmv & _).
    destruct (in_bounds (r + pawn_dir col) (c + dc)) eqn:Hb;
      [|by apply elem_of_nil in Hmv].
    destruct (get b (r + pawn_dir col) (c + dc)) as [q|] eqn:Hq;
      [|by apply elem_of_nil in Hmv].
    case_bool_decide; [|by apply elem_of_nil in Hmv].
    apply list_elem_of_singleton in Hmv as ->. apply maybe_promote_last_row.
Qed.

Lemma target_no_promotion b r c col nr nc mv :
  mv ∈ match get b nr nc with
       | None => [mkMove (r, c) (nr, nc) None]
       | Some target =>
           if bool_decide (color target ≠ col)
           then [mkMove (r, c) (nr, nc) None] else []
       end →
  promotion mv = None.
Proof.
  destruct (get b nr nc) as [q|]; [case_bool_decide|];
    rewrite ?list_elem_of_singleton, ?elem_of_nil; by intros; subst.
Qed.

Lemma knight_moves_no_promotion b r c col mv :
  mv ∈ _knight_moves b r c col → promotion mv = None.
Proof.
  unfold _knight_moves. intros ([dr dc] & Hmv & _)%list_elem_of_bind.
  destruct (in_bounds (r + dr) (c + dc)); simpl in Hmv;
    [by eapply target_no_promotion|by apply elem_of_nil in Hmv].
Qed.

Lemma king_moves_no_promotion b r c col mv :
  mv ∈ _king_moves b r c col → promotion mv = None.
Proof.
  unfold _king_moves. intros ([dr dc] & Hmv & _)%list_elem_of_bind.
  destruct (in_bounds (r + dr) (c + dc)); simpl in Hmv;
    [by eapply target_no_promotion|by apply elem_of_nil in Hmv].
Qed.

Lemma slider_walk_no_promotion fuel b r c col dr dc nr nc mv :
  mv ∈ slider_walk fuel b r c col dr dc nr nc → promotion mv = None.
Proof.
  revert nr nc. induction fuel as [|fuel IH]; intros nr nc; simpl.
  { by intros ?%elem_of_nil. }
  destruct (in_bounds nr nc); [|by intros ?%elem_of_nil].
  destruct (get b nr nc) as [q|].
  - case_bool_decide; [|by intros ?%elem_of_nil].
    by intros ->%list_elem_of_singleton.
  - intros [->|Hmv]%elem_of_cons; [done|by eapply IH].
Qed.

Lemma slider_moves_no_promotion b r c col dirs mv :
  mv ∈ _slider_moves b r c col dirs → promotion mv = None.
Proof.
  unfold _slider_moves. intros ([dr dc] & Hmv & _)%list_elem_of_bind.
  by eapply slider_walk_no_promotion.
Qed.

(** C10.  A generated move carries a promotion exactly when the piece on
    its start square is a pawn and its end square lies on row 0 (White) or
    row 7 (Black); the promotion is then [Queen].  Moves of the other kinds
    carry none, nor does a double step (it ends on row 4 or 3). *)
Theorem C10_promotion_iff_pawn_reaches_last_row (b : Board) (col : Color)
    (mv : Move) :
  wf_board b →
  mv ∈ generate_moves b col →
  (promotion mv = None ∨ promotion mv = Some Queen)
  ∧ (promotion mv ≠ None
     ↔ (∃ p, get b (start mv).1 (start mv).2 = Some p ∧ kind p = Pawn)
       ∧ (end_ mv).1 = if decide (col = White) then 0 else 7).
Proof.
  intros _ (r & c & p & Hb & Hg & Hc & Hmv)%elem_of_generate_moves.
  pose proof (piece_moves_lands_ok b r c p mv Hb Hmv) as (Hs & _ & _).
  rewrite Hs. simpl. rewrite Hg.
  assert ((kind p = Pawn ∧ promotes_on_last_row col mv)
          ∨ (kind p ≠ Pawn ∧ promotion mv = None)) as Hcases.
  { unfold _piece_moves in Hmv. rewrite Hc in Hmv. destruct (kind p);
      eauto using pawn_moves_promotion, knight_moves_no_promotion,
        king_moves_no_promotion, slider_moves_no_promotion. }
  unfold promotes_on_last_row, promotion_row in Hcases.
  destruct Hcases as [[Hk [[-> Hrow]|[-> Hrow]]]|[Hk ->]].
  - split; [by right|]. split; [|done]. intros _. split; [by exists p|done].
  - split; [by left|]. split; [done|]. by intros [_ ?].
  - split; [by left|]. split; [done|]. intros [(p' & [= <-] & ?) _]. done.
Qed.

Lemma C10_promotion_iff_pawn_reaches_last_row_witness :
  let mv := mkMove (1, 0) (0, 0) (Some Queen) in
  (promotion mv = None ∨ promotion mv = Some Queen)
  ∧ (promotion mv ≠ None
     ↔ (∃ p, get lone_pawn_board (start mv).1 (start mv).2 = Some p ∧ kind p = Pawn)
       ∧ (end_ mv).1 = if decide (White = White) then 0 else 7).
Proof.
  apply (C10_promotion_iff_pawn_reaches_last_row lone_pawn_board White
           (mkMove (1, 0) (0, 0) (Some Queen))).
  - split; [reflexivity|]. repeat constructor.
  - vm_compute. left.
Defined.

(** *** Selection loops *)

Section selection.
Context {A : Type} (score : A → option Z) (maxi : bool).

Lemma improves_worst v : improves maxi v (worst maxi) = true.
Proof. unfold improves, worst. by destruct maxi. Qed.

Lemma improves_Fin v w : improves maxi v (Fin w) = true ↔ worse maxi w v.
Proof.
  unfold improves, worse. destruct maxi; simpl; by rewrite bool_decide_eq_true.
Qed.

Lemma worse_no_worse w v : worse maxi w v → no_worse maxi w v.
Proof. unfold worse, no_worse. destruct maxi; lia. Qed.

Lemma not_worse_no_worse w v : ¬ worse maxi w v → no_worse maxi v w.
Proof. unfold worse, no_worse. destruct maxi; lia. Qed.

Lemma no_worse_trans u w v :
  no_worse maxi u w → no_worse maxi w v → no_worse maxi u v.
Proof. unfold no_worse. destruct maxi; lia. Qed.

Lemma no_worse_worse u w v : no_worse maxi u w → worse maxi w v → worse maxi u v.
Proof. unfold worse, no_worse. destruct maxi; lia. Qed.

(** The element [x] appended to [l] sits at index [length l]. *)
Lemma lookup_snoc_inv (l : list A) (x y : A) (j : nat) :
  (l ++ [x]) !! j = Some y →
  ((j < length l)%nat ∧ l !! j = Some y) ∨ (j = length l ∧ y = x).
Proof.
  intros Hj. destruct (decide (j < length l)%nat) as [Hlt|Hge].
  - left. split; [done|]. by rewrite lookup_app_l in Hj.
  - right. apply lookup_lt_Some in Hj as Hlen. rewrite length_app in Hlen.
    simpl in Hlen. assert (j = length l) as -> by lia. split; [done|].
    rewrite lookup_app_r, Nat.sub_diag in Hj by lia. by injection Hj.
Qed.

Lemma select_inv_step l st x :
  select_inv score maxi l st →
  select_inv score maxi (l ++ [x]) (select_step score maxi st x).
Proof.
  unfold select_step. destruct st as [[y|] e]; simpl.
  - destruct e as [|v|]; try done. intros (i & Hi & Hy & Hbest).
    assert (i < length l)%nat as Hlt by by eapply lookup_lt_Some.
    destruct (score x) as [w|] eqn:Hx;
      [destruct (improves maxi w (Fin v)) eqn:Himp|].
    + apply improves_Fin in Himp. exists (length l).
      split; [by rewrite lookup_app_r, Nat.sub_diag by lia|]. split; [done|].
      intros j z u [[Hjl Hj]|[-> ->]]%lookup_snoc_inv Hz.
      * destruct (Hbest j z u Hj Hz) as [Hle _].
        split; [|intros _]; eauto using worse_no_worse, no_worse_worse.
      * rewrite Hx in Hz. injection Hz as <-.
        split; [|lia]. unfold no_worse. destruct maxi; lia.
    + exists i. split; [by rewrite lookup_app_l|]. split; [done|].
      intros j z u [[Hjl Hj]|[-> ->]]%lookup_snoc_inv Hz; [eauto|].
      rewrite Hx in Hz. injection Hz as <-.
      split; [|lia]. apply not_worse_no_worse. rewrite <-improves_Fin.
      by rewrite Himp.
    + exists i. split; [by rewrite lookup_app_l|]. split; [done|].
      intros j z u [[Hjl Hj]|[-> ->]]%lookup_snoc_inv Hz; [eauto|congruence].
  - intros [-> Hnone]. destruct (score x) as [w|] eqn:Hx.
    + rewrite improves_worst. exists (length l).
      split; [by rewrite lookup_app_r, Nat.sub_diag by lia|]. split; [done|].
      intros j z u [[Hjl Hj]|[-> ->]]%lookup_snoc_inv Hz.
      * apply list_elem_of_lookup_2 in Hj. apply Hnone in Hj. congruence.
      * rewrite Hx in Hz. injection Hz as <-.
        split; [|lia]. unfold no_worse. destruct maxi; lia.
    + split; [done|]. intros z [Hz|Hz%list_elem_of_singleton]%elem_of_app;
        [by apply Hnone|by subst].
Qed.

Lemma select_inv_foldl l :
  select_inv score maxi l (foldl (select_step score maxi) (None, worst maxi) l).
Proof.
  induction l as [|x l IH] using rev_ind.
  - simpl. split; [done|]. by intros x ?%elem_of_nil.
  - rewrite foldl_app. simpl. by apply select_inv_step.
Qed.

End selection.

Lemma for_each_foldl {S A} (body : S → A → option S) (step : S → A → S)
    (l : list A) (s : S) :
  (∀ x s, x ∈ l → body s x = Some (step s x)) →
  for_each body l s = Some (foldl step s l).
Proof.
  revert s. induction l as [|x l IH]; intros s Hbody; [done|]. simpl.
  rewrite Hbody by left. simpl. apply IH. intros y s' Hy. apply Hbody. by right.
Qed.

(** *** The tiers of [choose_move] *)

Lemma opponent_other col : opponent col = other col.
Proof. by destruct col. Qed.

Lemma clone_id b : clone b = b.
Proof.
  destruct b as [grid tm]. unfold clone. simpl. f_equal.
  induction grid as [|row grid IH]; [done|]. simpl. f_equal; [|done].
  clear IH. induction row as [|[[]|] row IH]; simpl; by f_equal.
Qed.

Lemma capture_score_safe col b mv val :
  capture_score col b mv = Some val ↔ safe_capture col b mv val.
Proof.
  unfold capture_score, safe_capture. rewrite opponent_other. split.
  - destruct (get b _ _) as [target|]; [|done].
    case_bool_decide as Hc; [|done].
    destruct (move_piece (clone b) mv) as [sim|]; [|done].
    destruct (is_square_attacked sim _ _ _) eqn:Hat; [done|]. simpl.
    intros [= <-]. exists target, sim. by rewrite <-color_ne_other.
  - intros (target & sim & -> & Hc & -> & -> & ->). simpl.
    by rewrite bool_decide_eq_true_2 by by apply color_ne_other.
Qed.

(** Simulating a generated move on a clone never raises. *)
Lemma simulate_generated b col mv :
  wf_board b → mv ∈ generate_moves b col →
  ∃ sim, move_piece (clone b) mv = Some sim ∧ wf_board sim.
Proof.
  intros Hwf Hmv. rewrite clone_id.
  destruct (generated_in_bounds b col mv Hmv) as [Hs He].
  destruct (move_piece_in_bounds b mv Hwf Hs He) as (sim & ? & ? & _).
  by exists sim.
Qed.

Lemma capture_step_select col b st mv sim :
  move_piece (clone b) mv = Some sim →
  capture_step col b st mv = Some (select_step (capture_score col b) true st mv).
Proof.
  intros Hsim. unfold capture_step, select_step, capture_score, improves.
  destruct (end_ mv) as [er ec]. simpl.
  destruct (get b er ec) as [target|]; [|done].
  case_bool_decide; [|done]. rewrite Hsim. simpl.
  destruct (is_square_attacked sim er ec (opponent col)); [done|]. simpl.
  by destruct (ext_lt _ _).
Qed.

Lemma material_step_select col b st mv sim :
  move_piece (clone b) mv = Some sim →
  material_step col b st mv
  = Some (select_step (material_score b) (bool_decide (col = White)) st mv).
Proof.
  intros Hsim. unfold material_step, select_step, material_score, improves.
  rewrite Hsim. simpl. case_decide.
  - rewrite bool_decide_eq_true_2 by done. by destruct (ext_lt _ _).
  - rewrite bool_decide_eq_false_2 by done. simpl.
    by destruct (st.2) as [|v|]; [| destruct (bool_decide _) |].
Qed.

(** [choose_move] without the plumbing: on a well-formed board no simulation
    raises, and the two loops are two selections. *)
Lemma choose_move_selects col b :
  wf_board b →
  let moves := generate_moves b col in
  let maxi := bool_decide (col = White) in
  choose_move col b =
  Some (match moves with
        | [] => None
        | _ =>
            match (foldl (select_step (capture_score col b) true)
                     (None, NegInf) moves).1 with
            | Some mv => Some mv
            | None =>
                match (foldl (select_step (material_score b) maxi)
                         (None, worst maxi) moves).1 with
                | Some mv => Some mv
                | None => head moves
                end
            end
        end).
Proof.
  intros Hwf moves maxi. unfold choose_move. fold moves.
  destruct moves as [|mv0 rest] eqn:Hmoves; [done|]. rewrite <-Hmoves.
  rewrite (for_each_foldl (capture_step col b)
             (select_step (capture_score col b) true)); last first.
  { intros mv st Hmv.
    destruct (simulate_generated b col mv Hwf Hmv) as (sim & Hsim & _).
    by eapply capture_step_select. }
  simpl. destruct (foldl _ _ moves).1; [done|].
  rewrite (for_each_foldl (material_step col b)
             (select_step (material_score b) maxi)); last first.
  { intros mv st Hmv.
    destruct (simulate_generated b col mv Hwf Hmv) as (sim & Hsim & _).
    by eapply material_step_select. }
  simpl. assert ((if decide (col = White) then NegInf else PosInf) = worst maxi) as ->.
  { unfold worst, maxi. by destruct col. }
  by destruct (foldl _ _ moves).1.
Qed.

Lemma match_nonempty {A B} (l : list A) (x y : B) :
  l ≠ [] → match l with [] => x | _ => y end = y.
Proof. by destruct l. Qed.

(** C2.  When some generated move is a safe capture, [choose_move] returns
    a safe capture whose captured piece has the highest value among the safe
    captures, and the first such move in the order of [generate_moves]. *)
Theorem C2_safe_capture_tier (b : Board) (col : Color) :
  wf_board b →
  (∃ mv val, mv ∈ generate_moves b col ∧ safe_capture col b mv val) →
  ∃ (i : nat) mv val,
    generate_moves b col !! i = Some mv
    ∧ safe_capture col b mv val
    ∧ choose_move col b = Some (Some mv)
    ∧ ∀ (j : nat) mv' val',
        generate_moves b col !! j = Some mv' → safe_capture col b mv' val' →
        val' ≤ val ∧ ((j < i)%nat → val' < val).
Proof.
  intros Hwf (mv0 & val0 & Hin0 & Hsafe0).
  rewrite choose_move_selects by done.
  rewrite match_nonempty by (intros Hnil; rewrite Hnil in Hin0; by apply elem_of_nil in Hin0).
  pose proof (select_inv_foldl (capture_score col b) true (generate_moves b col))
    as Hinv.
  destruct (foldl _ _ (generate_moves b col)) as [[mv|] e]; simpl in *.
  - destruct e as [|val|]; try done. destruct Hinv as (i & Hi & Hmv & Hbest).
    exists i, mv, val. split; [done|]. split; [by apply capture_score_safe|].
    split; [done|]. intros j mv' val' Hj Hsafe'.
    by apply (Hbest j mv' val' Hj), capture_score_safe.
  - destruct Hinv as [_ Hnone]. apply Hnone in Hin0.
    apply capture_score_safe in Hsafe0. congruence.
Qed.

(** C3.  When the generated list is not empty and holds no safe capture,
    [choose_move] returns the generated move whose simulation has the
    largest [material] for White, the smallest for Black, and the first such
    move in the order of [generate_moves]. *)
Theorem C3_material_tier (b : Board) (col : Color) :
  wf_board b →
  generate_moves b col ≠ [] →
  (∀ mv val, mv ∈ generate_moves b col → ¬ safe_capture col b mv val) →
  ∃ (i : nat) mv sim,
    generate_moves b col !! i = Some mv
    ∧ move_piece (clone b) mv = Some sim
    ∧ choose_move col b = Some (Some mv)
    ∧ ∀ (j : nat) mv' sim',
        generate_moves b col !! j = Some mv' →
        move_piece (clone b) mv' = Some sim' →
        if decide (col = White)
        then material sim' ≤ material sim ∧ ((j < i)%nat → material sim' < material sim)
        else material sim ≤ material sim' ∧ ((j < i)%nat → material sim < material sim').
Proof.
  intros Hwf Hne Hnosafe.
  rewrite choose_move_selects by done. rewrite match_nonempty by done.
  pose proof (select_inv_foldl (capture_score col b) true (generate_moves b col))
    as Hinv1.
  destruct (foldl (select_step (capture_score col b) true) _ _) as [[mv|] e1];
    simpl in *.
  { destruct e1 as [|val|]; try done. destruct Hinv1 as (i & Hi & Hmv & _).
    apply capture_score_safe in Hmv. apply list_elem_of_lookup_2 in Hi.
    by destruct (Hnosafe mv val). }
  clear Hinv1.
  pose proof (select_inv_foldl (material_score b) (bool_decide (col = White))
                (generate_moves b col)) as Hinv2.
  destruct (foldl (select_step (material_score b) _) _ _) as [[mv|] e2];
    simpl in *.
  - destruct e2 as [|val|]; try done. destruct Hinv2 as (i & Hi & Hmv & Hbest).
    unfold material_score in Hmv.
    destruct (move_piece (clone b) mv) as [sim|] eqn:Hsim; [|done].
    injection Hmv as <-. exists i, mv, sim. split; [done|]. split; [done|].
    split; [done|]. intros j mv' sim' Hj Hsim'.
    specialize (Hbest j mv' (material sim') Hj).
    unfold material_score, no_worse, worse in Hbest. rewrite Hsim' in Hbest.
    specialize (Hbest eq_refl). case_decide.
    + by rewrite bool_decide_eq_true_2 in Hbest.
    + by rewrite bool_decide_eq_false_2 in Hbest.
  - destruct Hinv2 as [_ Hnone].
    destruct (generate_moves b col) as [|mv0 rest] eqn:Hmoves; [done|].
    assert (mv0 ∈ generate_moves b col) as Hin by (rewrite Hmoves; left).
    destruct (simulate_generated b col mv0 Hwf Hin) as (sim & Hsim & _).
    specialize (Hnone mv0). rewrite <-Hmoves in Hnone. specialize (Hnone Hin).
    unfold material_score in Hnone. by rewrite Hsim in Hnone.
Qed.

(** [choose_move] returns, without raising: [None] exactly when nothing is
    generated, one of the generated moves otherwise. *)
Lemma choose_move_result (b : Board) (col : Color) :
  wf_board b →
  ∃ res, choose_move col b = Some res
         ∧ (res = None ↔ generate_moves b col = [])
         ∧ (∀ mv, res = Some mv → mv ∈ generate_moves b col).
Proof.
  intros Hwf. eexists. split; [by apply choose_move_selects|].
  destruct (generate_moves b col) as [|mv0 rest] eqn:Hmoves; [done|].
  rewrite <-Hmoves.
  pose proof (select_inv_foldl (capture_score col b) true (generate_moves b col))
    as Hinv1.
  pose proof (select_inv_foldl (material_score b) (bool_decide (col = White))
                (generate_moves b col)) as Hinv2.
  destruct (foldl (select_step (capture_score col b) true) _ _) as [[mv|] e1];
    simpl in *.
  { destruct e1 as [|val|]; try done. destruct Hinv1 as (i & Hi & _).
    split; [by rewrite Hmoves|]. intros ? [= <-]. by eapply list_elem_of_lookup_2. }
  destruct (foldl (select_step (material_score b) _) _ _) as [[mv|] e2];
    simpl in *.
  { destruct e2 as [|val|]; try done. destruct Hinv2 as (i & Hi & _).
    split; [by rewrite Hmoves|]. intros ? [= <-]. by eapply list_elem_of_lookup_2. }
  rewrite Hmoves. simpl. split; [done|]. intros ? [= <-]. left.
Qed.

Lemma C2_safe_capture_tier_witness :
  ∃ (i : nat) mv val,
    generate_moves rook_and_pawn_board White !! i = Some mv
    ∧ safe_capture White rook_and_pawn_board mv val
    ∧ choose_move White rook_and_pawn_board = Some (Some mv)
    ∧ ∀ (j : nat) mv' val',
        generate_moves rook_and_pawn_board White !! j = Some mv' →
        safe_capture White rook_and_pawn_board mv' val' →
        val' ≤ val ∧ ((j < i)%nat → val' < val).
Proof.
  apply (C2_safe_capture_tier rook_and_pawn_board White).
  - split; [reflexivity|]. repeat constructor.
  - exists (mkMove (4, 0) (4, 3) None), 1. split.
    + apply (bool_decide_unpack _). vm_compute. exact I.
    + eexists _, _. repeat split; reflexivity.
Defined.

Lemma C3_material_tier_witness :
  ∃ (i : nat) mv sim,
    generate_moves initial_board White !! i = Some mv
    ∧ move_piece (clone initial_board) mv = Some sim
    ∧ choose_move White initial_board = Some (Some mv)
    ∧ ∀ (j : nat) mv' sim',
        generate_moves initial_board White !! j = Some mv' →
        move_piece (clone initial_board) mv' = Some sim' →
        if decide (White = White)
        then material sim' ≤ material sim ∧ ((j < i)%nat → material sim' < material sim)
        else material sim ≤ material sim' ∧ ((j < i)%nat → material sim < material sim').
Proof.
  apply (C3_material_tier initial_board White).
  - split; [reflexivity|repeat constructor].
  - vm_compute. discriminate.
  - assert (Forall (λ mv, capture_score White initial_board mv = None)
              (generate_moves initial_board White)) as Hnone.
    { apply (bool_decide_unpack _). vm_compute. exact I. }
    intros mv val Hin Hsafe. apply capture_score_safe in Hsafe.
    rewrite list.Forall_forall in Hnone. rewrite (Hnone mv Hin) in Hsafe. discriminate.
Defined.

(** *** The scenarios of the specification, evaluated *)

Example initial_position_has_20_moves :
  length (generate_moves initial_board White) = 20%nat.
Proof. reflexivity. Qed.

Example corner_rook_has_14_moves :
  length (generate_moves
            (mkBoard (<[0%nat := <[0%nat := Some (mkPiece White Rook)]>
                                   (replicate 8 None)]> empty_grid) White)
            White) = 14%nat.
Proof. reflexivity. Qed.

Example corner_queen_has_21_moves :
  length (generate_moves
            (mkBoard (<[0%nat := <[0%nat := Some (mkPiece White Queen)]>
                                   (replicate 8 None)]> empty_grid) White)
            White) = 21%nat.
Proof. reflexivity. Qed.

Example rook_takes_undefended_pawn :
  choose_move White rook_and_pawn_board = Some (Some (mkMove (4, 0) (4, 3) None)).
Proof. reflexivity. Qed.

Example initial_material : material initial_board = 0.
Proof. reflexivity. Qed.

(** * Properties of the object-level model *)

Lemma bind_Returns {A B} (m : M A) (k : A → M B) h a h' :
  m h = (Returns a, h') → (m ≫= k) h = k a h'.
Proof. intros Hm. unfold mbind, M_bind. by rewrite Hm. Qed.

Lemma bind_Raises {A B} (m : M A) (k : A → M B) h h' :
  m h = (Raises, h') → (m ≫= k) h = (Raises, h').
Proof. intros Hm. unfold mbind, M_bind. by rewrite Hm. Qed.

Lemma load_Returns h l o : h !! l = Some o → load l h = (Returns o, h).
Proof. intros Hl. unfold load. by rewrite Hl. Qed.

(** ** The object graph of a board *)

Lemma elem_of_item_locs l items : l ∈ item_locs items ↔ VRef l ∈ items.
Proof.
  unfold item_locs. rewrite list_elem_of_bind. split.
  - intros ([|l'] & Hl & Hv); [by apply elem_of_nil in Hl|].
    by apply list_elem_of_singleton in Hl as ->.
  - intros Hv. exists (VRef l). split; [by apply list_elem_of_singleton|done].
Qed.

Lemma elem_of_piece_locs l s :
  l ∈ piece_locs s ↔ ∃ items, items ∈ row_items s ∧ VRef l ∈ items.
Proof.
  unfold piece_locs. rewrite list_elem_of_bind.
  split; intros (items & H1 & H2); exists items.
  - split; [done|]. by apply elem_of_item_locs.
  - split; [|done]. by apply elem_of_item_locs.
Qed.

Lemma Forall2_impl_elem {A B} (P Q : A → B → Prop) (l : list A) (k : list B) :
  Forall2 P l k → (∀ x y, x ∈ l → y ∈ k → P x y → Q x y) → Forall2 Q l k.
Proof.
  induction 1 as [|x y l k HP Hrest IH]; intros Himp; constructor.
  - apply Himp; [left|left|done].
  - apply IH. intros x' y' Hx Hy. apply Himp; by right.
Qed.

Lemma piece_repr_agree h h' v o :
  (∀ l, v = VRef l → h' !! l = h !! l) → piece_repr h v o → piece_repr h' v o.
Proof.
  destruct v as [|l], o as [p|]; simpl; try done. intros Hag Hl.
  by rewrite Hag.
Qed.

(** A store that agrees with [h] on the footprint of a board holds the same
    board. *)
Lemma repr_agree h h' b s B :
  (∀ l, l ∈ footprint b s → h' !! l = h !! l) → repr h b s B → repr h' b s B.
Proof.
  intros Hag (Hb & Hg & Hnd & Hrows & Hitems). unfold footprint in Hag.
  split; [rewrite Hag; [done|left]|].
  split; [rewrite Hag; [done|right; left]|]. split; [done|]. split.
  - eapply Forall2_impl_elem; [done|]. intros rl items Hrl _ Hl. simpl in *.
    rewrite Hag; [done|]. right. right. apply elem_of_app. by left.
  - eapply Forall2_impl_elem; [done|]. intros items row Hi _ Hrow. simpl in *.
    eapply Forall2_impl_elem; [done|]. intros v o Hv _. simpl.
    apply piece_repr_agree. intros l ->. apply Hag. right. right.
    apply elem_of_app. right. apply elem_of_piece_locs. by exists items.
Qed.

Lemma repr_row_loc h b s B rl :
  repr h b s B → rl ∈ row_locs s → ∃ items, h !! rl = Some (OList items).
Proof.
  intros (_ & _ & _ & Hrows & _) (i & Hi)%list_elem_of_lookup.
  destruct (Forall2_lookup_l _ _ _ _ _ Hrows Hi) as (items & _ & Hl). eauto.
Qed.

Lemma repr_piece_loc h b s B l :
  repr h b s B → l ∈ piece_locs s → ∃ c k, h !! l = Some (OPiece c k).
Proof.
  intros (_ & _ & _ & _ & Hitems) (items & Hin & Hl)%elem_of_piece_locs.
  apply list_elem_of_lookup in Hin as (i & Hi).
  destruct (Forall2_lookup_l _ _ _ _ _ Hitems Hi) as (row & _ & Hrow).
  apply list_elem_of_lookup in Hl as (j & Hj).
  destruct (Forall2_lookup_l _ _ _ _ _ Hrow Hj) as ([p|] & _ & Hp); [|done].
  simpl in Hp. eauto.
Qed.

(** Every object of a board is an allocated object. *)
Lemma repr_allocated h b s B l :
  repr h b s B → l ∈ footprint b s → (l < length h)%nat.
Proof.
  intros Hrepr Hl. apply (lookup_lt_is_Some_1 h l). unfold footprint in Hl.
  apply elem_of_cons in Hl as [->|Hl]; [destruct Hrepr as (-> & _); eauto|].
  apply elem_of_cons in Hl as [->|Hl]; [destruct Hrepr as (_ & -> & _); eauto|].
  apply elem_of_app in Hl as [Hl|Hl].
  - destruct (repr_row_loc h b s B l Hrepr Hl) as (? & ->). eauto.
  - destruct (repr_piece_loc h b s B l Hrepr Hl) as (? & ? & ->). eauto.
Qed.

(** Allocation keeps every board of the store. *)
Lemma repr_extend h k b s B : repr h b s B → repr (h ++ k) b s B.
Proof.
  intros Hrepr. eapply repr_agree; [|done]. intros l Hl.
  apply lookup_app_l. by eapply repr_allocated.
Qed.

(** The rows and the pieces are objects of different classes: the outer list
    is not one of its rows, and no list or board is a piece. *)
Lemma repr_grid_not_row h b s B : repr h b s B → grid_loc s ∉ row_locs s.
Proof.
  intros (_ & Hg & _ & Hrows & Hitems) (i & Hi)%list_elem_of_lookup.
  destruct (Forall2_lookup_l _ _ _ _ _ Hrows Hi) as (items & Hit & Hl).
  simpl in Hl. rewrite Hg in Hl. injection Hl as <-.
  destruct (Forall2_lookup_l _ _ _ _ _ Hitems Hit) as (row & _ & Hrow).
  assert ((VRef <$> row_locs s) !! i = Some (VRef (grid_loc s))) as Hv.
  { by rewrite list_lookup_fmap, Hi. }
  destruct (Forall2_lookup_l _ _ _ _ _ Hrow Hv) as ([p|] & _ & Hp); [|done].
  simpl in Hp. congruence.
Qed.

Lemma view_piece_repr h v o : piece_repr h v o → view_piece h v = Some o.
Proof.
  destruct v as [|l], o as [[c k]|]; simpl; try done. by intros ->.
Qed.

(** [view] reads the represented board. *)
Lemma repr_view h b s B : repr h b s B → view h b = Some B.
Proof.
  destruct s as [g rls itemss].
  intros (Hb & Hg & _ & Hrows & Hitems). simpl in *. unfold view. rewrite Hb, Hg.
  assert (mapM (view_row h) (VRef <$> rls) = Some (board B)) as ->.
  { apply mapM_Some. apply Forall2_fmap_l.
    assert (Forall2 (λ rl row, ∃ items, h !! rl = Some (OList items)
                       ∧ Forall2 (piece_repr h) items row)
              rls (board B)) as Hboth.
    { revert Hitems. generalize (board B). clear Hb Hg.
      induction Hrows as [|rl items rls' itemss' Hrl Hrest IH]; intros rows Hitems.
      - inversion Hitems. constructor.
      - inversion Hitems as [|? row ? rows' Hrow Hrest']; subst.
        constructor; [by exists items|by apply IH]. }
    eapply Forall2_impl; [|exact Hboth]. intros rl row (items & Hrl & Hrow). simpl.
    rewrite Hrl. apply mapM_Some. eapply Forall2_impl; [|exact Hrow].
    intros v o. apply view_piece_repr. }
  simpl. by destruct B.
Qed.

Lemma snapshot_repr h b s B : repr h b s B → snapshot b h = (Returns B, h).
Proof. intros Hrepr. unfold snapshot. by rewrite (repr_view h b s B). Qed.

(** ** The methods of [Board] on the object graph *)

Lemma py_index_lt len i n : py_index len i = Some n → (n < len)%nat.
Proof.
  unfold py_index. repeat case_bool_decide; intros [= <-]; lia.
Qed.

Lemma getitem_list h l items i :
  h !! l = Some (OList items) →
  getitem (VRef l) i h =
  (match py_index (length items) i ≫= (items !!.) with
   | Some x => Returns x
   | None => Raises
   end, h).
Proof.
  intros Hl. unfold getitem, list_items.
  rewrite (bind_Returns _ _ h items h).
  - by destruct (py_index (length items) i ≫= _).
  - rewrite (bind_Returns _ _ h (OList items) h); [done|by apply load_Returns].
Qed.

Lemma attr_board_repr h b s B :
  repr h b s B → attr_board b h = (Returns (VRef (grid_loc s)), h).
Proof.
  intros (Hb & _). unfold attr_board.
  by rewrite (bind_Returns _ _ h _ h (load_Returns _ _ _ Hb)).
Qed.

Lemma attr_to_move_repr h b s B :
  repr h b s B → attr_to_move b h = (Returns (to_move B), h).
Proof.
  intros (Hb & _). unfold attr_to_move.
  by rewrite (bind_Returns _ _ h _ h (load_Returns _ _ _ Hb)).
Qed.

(** The row behind index [ri] of a represented board. *)
Lemma repr_row h b s B ri row :
  repr h b s B → board B !! ri = Some row →
  ∃ rl items,
    row_locs s !! ri = Some rl
    ∧ row_items s !! ri = Some items
    ∧ h !! rl = Some (OList items)
    ∧ Forall2 (piece_repr h) items row.
Proof.
  intros (_ & _ & _ & Hrows & Hitems) Hrow.
  destruct (Forall2_lookup_r _ _ _ _ _ Hitems Hrow) as (items & Hit & Hrepr).
  destruct (Forall2_lookup_r _ _ _ _ _ Hrows Hit) as (rl & Hrl & Hl).
  by exists rl, items.
Qed.

Lemma repr_lengths h b s B :
  repr h b s B →
  length (row_locs s) = length (board B)
  ∧ length (row_items s) = length (board B).
Proof.
  intros (_ & _ & _ & Hrows & Hitems).
  apply Forall2_length in Hrows, Hitems. lia.
Qed.

(** [get] on the object returns the item that stands for the occupant. *)
Lemma get_h_repr h b s B r c :
  repr h b s B → wf_board B →
  ∃ v, get_h b r c h = (Returns v, h) ∧ piece_repr h v (get B r c)
       ∧ ∀ l, v = VRef l → l ∈ piece_locs s.
Proof.
  intros Hrepr Hwf. unfold get_h, get.
  destruct (in_bounds r c) eqn:Hin; simpl; [|by exists VNone].
  apply in_bounds_true in Hin as [Hr Hc].
  destruct (wf_board_row B r Hwf Hr) as (row & Hrow & Hlen).
  destruct (repr_row h b s B _ row Hrepr Hrow) as (rl & items & Hrl & Hit & Hl & Hp).
  destruct (repr_lengths h b s B Hrepr) as [Hlen1 _]. destruct Hwf as [Hlen8 _].
  assert (length items = 8%nat) as Hlen2 by (apply Forall2_length in Hp; lia).
  destruct (lookup_lt_is_Some_2 items (Z.to_nat c)) as [v Hv]; [lia|].
  destruct (Forall2_lookup_l _ _ _ _ _ Hp Hv) as (o & Ho & Hvo).
  exists v. split.
  - rewrite (bind_Returns _ _ h _ h (attr_board_repr h b s B Hrepr)).
    rewrite (bind_Returns _ _ h (VRef rl) h).
    + rewrite (getitem_list h rl items c Hl).
      rewrite py_index_in_range by lia. simpl. by rewrite Hv.
    + destruct Hrepr as (_ & Hg & _). rewrite (getitem_list h _ _ r Hg).
      rewrite length_fmap, py_index_in_range by lia. simpl.
      by rewrite list_lookup_fmap, Hrl.
  - split; [unfold grid_at; by rewrite Hrow, Ho|].
    intros l ->. apply elem_of_piece_locs. exists items.
    split; by eapply list_elem_of_lookup_2.
Qed.

Lemma setitem_list h l items i x :
  h !! l = Some (OList items) →
  setitem (VRef l) i x h =
  match py_index (length items) i with
  | Some n => (Returns (), <[l := OList (<[n := x]> items)]> h)
  | None => (Raises, h)
  end.
Proof.
  intros Hl. unfold setitem, list_items.
  rewrite (bind_Returns _ _ h items h).
  - by destruct (py_index (length items) i).
  - rewrite (bind_Returns _ _ h (OList items) h); [done|by apply load_Returns].
Qed.

Lemma elem_of_insert_inv {A} (l : list A) (i : nat) (x y : A) :
  x ∈ <[i := y]> l → x = y ∨ x ∈ l.
Proof.
  intros (j & Hj)%list_elem_of_lookup. destruct (decide (i = j)) as [->|Hne].
  - destruct (decide (j < length l)%nat).
    + rewrite list_lookup_insert_eq in Hj by done. left. congruence.
    + rewrite list_insert_ge in Hj by lia. right. by eapply list_elem_of_lookup_2.
  - rewrite list_lookup_insert_ne in Hj by done. right.
    by eapply list_elem_of_lookup_2.
Qed.

(** Writing an item into a row of a board. *)
Lemma repr_store_row h b s B ri ci rl items row v o :
  repr h b s B →
  row_locs s !! ri = Some rl → row_items s !! ri = Some items →
  board B !! ri = Some row →
  piece_repr h v o →
  repr (<[rl := OList (<[ci := v]> items)]> h) b
       (mkShape (grid_loc s) (row_locs s) (<[ri := <[ci := v]> items]> (row_items s)))
       (mkBoard (<[ri := <[ci := o]> row]> (board B)) (to_move B)).
Proof.
  intros Hrepr Hrl Hit Hrow Hvo.
  pose proof (repr_grid_not_row h b s B Hrepr) as Hgrid.
  destruct Hrepr as (Hb & Hg & Hnd & Hrows & Hitems).
  pose proof (Forall2_lookup_lr _ _ _ _ _ _ Hrows Hrl Hit) as Hl. simpl in Hl.
  assert (rl < length h)%nat as Hlt by (by eapply lookup_lt_Some).
  assert (∀ l c k, h !! l = Some (OPiece c k) →
            <[rl := OList (<[ci := v]> items)]> h !! l = Some (OPiece c k)) as Hpiece.
  { intros l c k Hlc. rewrite list_lookup_insert_ne; [done|congruence]. }
  assert (∀ v' o', piece_repr h v' o' →
            piece_repr (<[rl := OList (<[ci := v]> items)]> h) v' o') as Hrepr'.
  { intros [|l] [p|]; simpl; auto. }
  split; simpl.
  { rewrite list_lookup_insert_ne; [done|congruence]. }
  split.
  { rewrite list_lookup_insert_ne; [done|]. intros Heq. apply Hgrid.
    rewrite <-Heq. by eapply list_elem_of_lookup_2. }
  split; [done|]. split.
  - apply Forall2_same_length_lookup_2.
    { rewrite length_insert. by eapply Forall2_length. }
    intros i x y Hx Hy. destruct (decide (i = ri)) as [->|Hne].
    + assert (x = rl) as -> by congruence.
      rewrite list_lookup_insert_eq in Hy by (by eapply lookup_lt_Some).
      injection Hy as <-. by rewrite list_lookup_insert_eq.
    + rewrite list_lookup_insert_ne in Hy by done.
      rewrite list_lookup_insert_ne.
      * by apply (Forall2_lookup_lr _ _ _ _ _ _ Hrows Hx Hy).
      * intros <-. apply Hne. symmetry. by eapply NoDup_lookup.
  - apply Forall2_insert.
    + eapply Forall2_impl; [|exact Hitems]. intros its rw Hrw. simpl.
      eapply Forall2_impl; [|exact Hrw]. auto.
    + apply Forall2_insert; [|by apply Hrepr'].
      eapply Forall2_impl; [|exact (Forall2_lookup_lr _ _ _ _ _ _ Hitems Hit Hrow)].
      auto.
Qed.

(** [set] on the object against [set] on the value: the same outcome; a
    raised [IndexError] leaves the store as it was; only the row list is
    written. *)
Lemma set_h_repr h b s B r c v o :
  repr h b s B → piece_repr h v o →
  ∃ res h' s' B',
    set_h b r c v h = (res, h')
    ∧ repr h' b s' B'
    ∧ grid_loc s' = grid_loc s ∧ row_locs s' = row_locs s
    ∧ length h' = length h
    ∧ (∀ l, l ∉ row_locs s → h' !! l = h !! l)
    ∧ (∀ l, l ∈ piece_locs s' → l ∈ piece_locs s ∨ v = VRef l)
    ∧ ((res = Returns () ∧ set B r c o = Some B')
       ∨ (res = Raises ∧ set B r c o = None ∧ h' = h ∧ s' = s ∧ B' = B)).
Proof.
  intros Hrepr Hvo.
  destruct (repr_lengths h b s B Hrepr) as [Hlen1 Hlen2].
  pose proof Hrepr as (_ & Hg & _).
  pose proof (attr_board_repr h b s B Hrepr) as Hattr.
  destruct (py_index (length (board B)) r) as [ri|] eqn:Hri; last first.
  { exists Raises, h, s, B. split.
    { unfold set_h. rewrite (bind_Returns _ _ h _ h Hattr).
      rewrite (bind_Raises _ _ h h); [done|].
      by rewrite (getitem_list h _ _ r Hg), length_fmap, Hlen1, Hri. }
    repeat (split; [by auto|]). right. unfold set. by rewrite Hri. }
  apply py_index_lt in Hri as Hlt.
  destruct (lookup_lt_is_Some_2 (board B) ri Hlt) as [row Hrow].
  destruct (repr_row h b s B ri row Hrepr Hrow)
    as (rl & items & Hrl & Hit & Hl & Hp).
  assert (length items = length row) as Hlen3 by (by eapply Forall2_length).
  assert (getitem (VRef (grid_loc s)) r h = (Returns (VRef rl), h)) as Hrowref.
  { rewrite (getitem_list h _ _ r Hg), length_fmap, Hlen1, Hri. simpl.
    by rewrite list_lookup_fmap, Hrl. }
  destruct (py_index (length items) c) as [ci|] eqn:Hci; last first.
  { exists Raises, h, s, B. split.
    { unfold set_h. rewrite (bind_Returns _ _ h _ h Hattr).
      rewrite (bind_Returns _ _ h _ h Hrowref).
      by rewrite (setitem_list h rl items c v Hl), Hci. }
    repeat (split; [by auto|]). right. unfold set. rewrite Hri. simpl.
    rewrite Hrow. simpl. by rewrite <-Hlen3, Hci. }
  exists (Returns ()), (<[rl := OList (<[ci := v]> items)]> h),
    (mkShape (grid_loc s) (row_locs s) (<[ri := <[ci := v]> items]> (row_items s))),
    (mkBoard (<[ri := <[ci := o]> row]> (board B)) (to_move B)).
  split.
  { unfold set_h. rewrite (bind_Returns _ _ h _ h Hattr).
    rewrite (bind_Returns _ _ h _ h Hrowref).
    by rewrite (setitem_list h rl items c v Hl), Hci. }
  split; [by eapply repr_store_row|]. simpl.
  split; [done|]. split; [done|]. split; [by rewrite length_insert|].
  split.
  { intros l Hl'. rewrite list_lookup_insert_ne; [done|]. intros <-.
    apply Hl'. by eapply list_elem_of_lookup_2. }
  split.
  - intros l (its & Hin & Hv)%elem_of_piece_locs. simpl in Hin.
    apply elem_of_insert_inv in Hin as [->|Hin].
    + apply elem_of_insert_inv in Hv as [->|Hv]; [by right|left].
      apply elem_of_piece_locs. exists items. split; [|done].
      by eapply list_elem_of_lookup_2.
    + left. apply elem_of_piece_locs. by exists its.
  - left. split; [done|]. unfold set. rewrite Hri. simpl.
    rewrite Hrow. simpl. by rewrite <-Hlen3, Hci.
Qed.

Lemma set_wf B r c o B' : wf_board B → set B r c o = Some B' → wf_board B'.
Proof.
  intros [Hlen Hrows]. unfold set.
  destruct (py_index (length (board B)) r) as [ri|]; [|done]. simpl.
  destruct (board B !! ri) as [row|] eqn:Hrow; [|done]. simpl.
  destruct (py_index (length row) c) as [ci|]; [|done]. simpl.
  intros [= <-]. split; simpl; [by rewrite length_insert|].
  apply Forall_insert; [done|]. rewrite length_insert.
  by eapply (Forall_lookup_1 _ _ _ _ Hrows Hrow).
Qed.

Lemma board_step_refl h b s : board_step h b s h s.
Proof. repeat split; auto. Qed.

Lemma board_step_trans h b s h1 s1 h2 s2 :
  board_step h b s h1 s1 → board_step h1 b s1 h2 s2 → board_step h b s h2 s2.
Proof.
  intros (Hg1 & Hr1 & Hl1 & Hf1 & Hp1) (Hg2 & Hr2 & Hl2 & Hf2 & Hp2).
  split; [congruence|]. split; [congruence|]. split; [lia|]. split.
  - intros l Hl Hb Hrow. rewrite Hf2; [by apply Hf1|lia|done|by rewrite Hr1].
  - intros l Hl. destruct (Hp2 l Hl) as [Hl1'|?]; [|right; lia].
    destruct (Hp1 l Hl1'); [by left|by right].
Qed.

Lemma board_step_alloc h b s o : board_step h b s (h ++ [o]) s.
Proof.
  split; [done|]. split; [done|]. split; [rewrite length_app; lia|].
  split; [|by left]. intros l Hl _ _. by apply lookup_app_l.
Qed.

(** A piece object is neither the board object nor one of its rows: a
    method of the board leaves it as it is. *)
Lemma piece_loc_frame h b s B h' s' l c k :
  repr h b s B → board_step h b s h' s' →
  h !! l = Some (OPiece c k) → h' !! l = Some (OPiece c k).
Proof.
  intros Hrepr (_ & _ & _ & Hframe & _) Hl. rewrite Hframe; [done| | |].
  - by eapply lookup_lt_Some.
  - intros ->. destruct Hrepr as (Hb & _). congruence.
  - intros Hrow. destruct (repr_row_loc h b s B l Hrepr Hrow). congruence.
Qed.

(** [set], after earlier steps of the same method, with an item that is
    [None], a piece the board had, or a new object. *)
Lemma set_h_step h0 s0 h b s B r c v o :
  board_step h0 b s0 h s →
  repr h b s B → piece_repr h v o →
  (∀ l, v = VRef l → l ∈ piece_locs s0 ∨ (length h0 ≤ l)%nat) →
  ∃ res h' s' B',
    set_h b r c v h = (res, h')
    ∧ repr h' b s' B'
    ∧ (wf_board B → wf_board B')
    ∧ to_move B' = to_move B
    ∧ board_step h0 b s0 h' s'
    ∧ ((res = Returns () ∧ set B r c o = Some B')
       ∨ (res = Raises ∧ set B r c o = None)).
Proof.
  intros (Hg0 & Hr0 & Hl0 & Hf0 & Hp0) Hrepr Hvo Hv.
  destruct (set_h_repr h b s B r c v o Hrepr Hvo)
    as (res & h' & s' & B' & Hset & Hrepr' & Hg & Hr & Hlen & Hframe & Hp & Hout).
  exists res, h', s', B'. split; [done|]. split; [done|].
  split; [|split; [|split]].
  - destruct Hout as [[_ ?]|(_ & _ & _ & _ & ->)]; [by eauto using set_wf|done].
  - destruct Hout as [[_ Hs]|(_ & _ & _ & _ & ->)]; [|done].
    unfold set in Hs. destruct (py_index _ r); [|done]. simpl in Hs.
    destruct (board B !! _); [|done]. simpl in Hs.
    destruct (py_index _ c); [|done]. by injection Hs as <-.
  - split; [congruence|]. split; [congruence|]. split; [lia|]. split.
    + intros l Hl Hb Hrow. rewrite Hframe by (by rewrite Hr0). by apply Hf0.
    + intros l Hl. destruct (Hp l Hl) as [?|?]; [by apply Hp0|by apply Hv].
  - destruct Hout as [?|(? & ? & _)]; [by left|by right].
Qed.

Lemma repr_store_to_move h b s B tm :
  repr h b s B →
  repr (<[b := OBoard (VRef (grid_loc s)) tm]> h) b s (mkBoard (board B) tm).
Proof.
  intros Hrepr.
  assert (b < length h)%nat as Hlt by (eapply repr_allocated; [done|left]).
  pose proof Hrepr as (Hb & Hg & Hnd & Hrows & Hitems).
  assert (∀ l o, h !! l = Some o → (∀ g tm', o ≠ OBoard g tm') →
            <[b := OBoard (VRef (grid_loc s)) tm]> h !! l = Some o) as Hother.
  { intros l o Hl Ho. rewrite list_lookup_insert_ne; [done|].
    intros <-. rewrite Hb in Hl. injection Hl as <-. by eapply Ho. }
  split; [by rewrite list_lookup_insert_eq|]. simpl.
  split; [by apply Hother|]. split; [done|]. split.
  - eapply Forall2_impl; [|exact Hrows]. intros rl items Hl. simpl in *.
    by apply Hother.
  - eapply Forall2_impl; [|exact Hitems]. intros items row Hrow. simpl.
    eapply Forall2_impl; [|exact Hrow]. intros [|l] [p|]; simpl; try done.
    intros Hl. by apply Hother.
Qed.

Lemma piece_kind_repr h l p :
  h !! l = Some (OPiece (color p) (kind p)) →
  piece_kind (VRef l) h = (Returns (kind p), h).
Proof.
  intros Hl. unfold piece_kind.
  by rewrite (bind_Returns _ _ h _ h (load_Returns _ _ _ Hl)).
Qed.

Lemma piece_color_repr h l p :
  h !! l = Some (OPiece (color p) (kind p)) →
  piece_color (VRef l) h = (Returns (color p), h).
Proof.
  intros Hl. unfold piece_color.
  by rewrite (bind_Returns _ _ h _ h (load_Returns _ _ _ Hl)).
Qed.

(** The second [set] of [move_piece], with the promotion test before it. *)
Lemma place_h_repr h0 s0 h b s B (mv : Move) er ec piece o :
  board_step h0 b s0 h s →
  repr h b s B → piece_repr h piece o →
  (∀ l, piece = VRef l → l ∈ piece_locs s0 ∨ (length h0 ≤ l)%nat) →
  ∃ res h' s' B',
    (match promotion mv, piece with
     | Some k, VRef _ =>
         pk ← piece_kind piece;
         if decide (pk = Pawn) then
           pc ← piece_color piece;
           promoted ← alloc (OPiece pc k);
           set_h b er ec (VRef promoted)
         else set_h b er ec piece
     | _, _ => set_h b er ec piece
     end) h = (res, h')
    ∧ repr h' b s' B'
    ∧ (wf_board B → wf_board B')
    ∧ to_move B' = to_move B
    ∧ board_step h0 b s0 h' s'
    ∧ let placed :=
        match promotion mv, o with
        | Some k, Some p =>
            if decide (kind p = Pawn)
            then set B er ec (Some (mkPiece (color p) k))
            else set B er ec o
        | _, _ => set B er ec o
        end in
      (res = Returns () ∧ placed = Some B') ∨ (res = Raises ∧ placed = None).
Proof.
  intros Hstep Hrepr Hpo Hpl.
  destruct (promotion mv) as [k|];
    [|exact (set_h_step h0 s0 h b s B er ec piece o Hstep Hrepr Hpo Hpl)].
  destruct piece as [|l].
  { destruct o; [done|].
    exact (set_h_step h0 s0 h b s B er ec VNone None Hstep Hrepr Hpo Hpl). }
  destruct o as [p|]; [|done]. simpl in Hpo.
  rewrite (bind_Returns _ _ h _ h (piece_kind_repr h l p Hpo)).
  destruct (decide (kind p = Pawn)) as [Hk|Hk];
    [|exact (set_h_step h0 s0 h b s B er ec (VRef l) (Some p) Hstep Hrepr Hpo Hpl)].
  rewrite (bind_Returns _ _ h _ h (piece_color_repr h l p Hpo)).
  rewrite (bind_Returns _ _ h (length h) (h ++ [OPiece (color p) k])) by done.
  assert (board_step h0 b s0 (h ++ [OPiece (color p) k]) s) as Hstep'.
  { eapply board_step_trans; [done|apply board_step_alloc]. }
  apply (set_h_step h0 s0 (h ++ [OPiece (color p) k]) b s B er ec
           (VRef (length h)) (Some (mkPiece (color p) k)));
    [done|by apply repr_extend| |].
  - simpl. by rewrite lookup_app_r, Nat.sub_diag by lia.
  - intros l' [= <-]. right. by destruct Hstep as (_ & _ & ? & _).
Qed.

(** The last two lines of [move_piece]. *)
Lemma toggle_h_repr h b s B :
  repr h b s B →
  let tm := if decide (to_move B = White) then Black else White in
  (tm' ← attr_to_move b;
   set_to_move b (if decide (tm' = White) then Black else White)) h
  = (Returns (), <[b := OBoard (VRef (grid_loc s)) tm]> h)
  ∧ repr (<[b := OBoard (VRef (grid_loc s)) tm]> h) b s (mkBoard (board B) tm)
  ∧ board_step h b s (<[b := OBoard (VRef (grid_loc s)) tm]> h) s.
Proof.
  intros Hrepr tm. split; [|split].
  - rewrite (bind_Returns _ _ h _ h (attr_to_move_repr h b s B Hrepr)).
    unfold set_to_move. destruct Hrepr as (Hb & _).
    by rewrite (bind_Returns _ _ h _ h (load_Returns _ _ _ Hb)).
  - by apply repr_store_to_move.
  - split; [done|]. split; [done|]. split; [by rewrite length_insert|].
    split; [|by left]. intros l _ Hb _. by rewrite list_lookup_insert_ne.
Qed.

(** [move_piece] on the object against [move_piece] on the value: the same
    outcome, whether it returns or raises; in both cases the object is still
    a board and only its own objects were written. *)
Lemma move_piece_h_repr h b s B mv :
  repr h b s B → wf_board B →
  ∃ res h' s' B',
    move_piece_h b mv h = (res, h')
    ∧ repr h' b s' B'
    ∧ wf_board B'
    ∧ board_step h b s h' s'
    ∧ ((res = Returns () ∧ move_piece B mv = Some B')
       ∨ (res = Raises ∧ move_piece B mv = None)).
Proof.
  intros Hrepr Hwf. unfold move_piece_h, move_piece.
  destruct (start mv) as [sr sc], (end_ mv) as [er ec].
  destruct (get_h_repr h b s B sr sc Hrepr Hwf) as (piece & Hget & Hpiece & Hploc).
  rewrite (bind_Returns _ _ h _ h Hget).
  destruct (set_h_step h s h b s B sr sc VNone None (board_step_refl h b s) Hrepr I)
    as (res1 & h1 & s1 & B1 & Hset1 & Hrepr1 & Hwf1 & Htm1 & Hstep1 & Hout1); [done|].
  destruct Hout1 as [[-> HB1]|[-> HB1]]; last first.
  { exists Raises, h1, s1, B1. rewrite (bind_Raises _ _ h h1 Hset1), HB1.
    split; [done|]. split; [done|]. split; [auto|]. split; [done|]. by right. }
  rewrite (bind_Returns _ _ h _ h1 Hset1), HB1. simpl.
  assert (piece_repr h1 piece (get B sr sc)) as Hpiece1.
  { destruct piece as [|l], (get B sr sc) as [p|]; simpl in *; try done.
    exact (piece_loc_frame h b s B h1 s1 l _ _ Hrepr Hstep1 Hpiece). }
  destruct (place_h_repr h s h1 b s1 B1 mv er ec piece (get B sr sc)
              Hstep1 Hrepr1 Hpiece1)
    as (res2 & h2 & s2 & B2 & Hset2 & Hrepr2 & Hwf2 & Htm2 & Hstep2 & Hout2).
  { intros l Hl. left. by apply Hploc. }
  simpl in Hout2. destruct Hout2 as [[-> HB2]|[-> HB2]]; last first.
  { exists Raises, h2, s2, B2. rewrite (bind_Raises _ _ h1 h2 Hset2), HB2.
    split; [done|]. split; [done|]. split; [auto|]. split; [done|]. by right. }
  rewrite (bind_Returns _ _ h1 _ h2 Hset2), HB2. simpl.
  destruct (toggle_h_repr h2 b s2 B2 Hrepr2) as (Htog & Hrepr3 & Hstep3).
  eexists (Returns ()), _, s2, _. split; [exact Htog|]. split; [exact Hrepr3|].
  split; [by apply Hwf2, Hwf1|].
  split; [by eapply board_step_trans|]. by left.
Qed.

(** ** [clone] *)

Lemma piece_repr_extend h k v o : piece_repr h v o → piece_repr (h ++ k) v o.
Proof.
  destruct v as [|l], o as [p|]; simpl; try done. apply lookup_app_l_Some.
Qed.

Lemma mapM_nil_M {A B} (f : A → M B) h : mapM f [] h = (Returns [], h).
Proof. done. Qed.

Lemma mapM_cons_M {A B} (f : A → M B) x l :
  mapM f (x :: l) = (y ← f x; k ← mapM f l; mret (y :: k)).
Proof. done. Qed.

Lemma clone_piece_repr h v o :
  piece_repr h v o →
  ∃ v' k, clone_piece v h = (Returns v', h ++ k)
          ∧ piece_repr (h ++ k) v' o
          ∧ ∀ l, v' = VRef l → (length h ≤ l < length (h ++ k))%nat.
Proof.
  destruct v as [|l], o as [p|]; simpl; try done.
  - intros _. exists VNone, []. by rewrite app_nil_r.
  - intros Hl. exists (VRef (length h)), [OPiece (color p) (kind p)].
    split; [|split].
    + unfold clone_piece.
      rewrite (bind_Returns _ _ h _ h (piece_color_repr h l p Hl)).
      by rewrite (bind_Returns _ _ h _ h (piece_kind_repr h l p Hl)).
    + simpl. by rewrite lookup_app_r, Nat.sub_diag by lia.
    + intros ? [= <-]. rewrite length_app. simpl. lia.
Qed.

Lemma clone_items_repr h items row :
  Forall2 (piece_repr h) items row →
  ∃ items' k, mapM clone_piece items h = (Returns items', h ++ k)
              ∧ Forall2 (piece_repr (h ++ k)) items' row
              ∧ ∀ l, VRef l ∈ items' → (length h ≤ l < length (h ++ k))%nat.
Proof.
  intros Hrow. revert h Hrow. revert row.
  induction items as [|v items IH]; intros row h Hrow.
  - inversion Hrow; subst. exists [], []. rewrite app_nil_r.
    split; [done|]. split; [constructor|]. by intros l ?%elem_of_nil.
  - inversion Hrow as [|? o ? row' Hvo Hrest]; subst.
    destruct (clone_piece_repr h v o Hvo) as (v' & k1 & Hv & Hv' & Hfresh1).
    destruct (IH row' (h ++ k1)) as (items' & k2 & Hi & Hi' & Hfresh2).
    { eapply Forall2_impl; [|exact Hrest]. intros ? ?. apply piece_repr_extend. }
    exists (v' :: items'), (k1 ++ k2). rewrite (assoc_L (++)).
    split; [|split].
    + rewrite mapM_cons_M. rewrite (bind_Returns _ _ h _ _ Hv).
      by rewrite (bind_Returns _ _ _ _ _ Hi).
    + constructor; [by apply piece_repr_extend|done].
    + intros l [Heq|Hl]%elem_of_cons.
      * specialize (Hfresh1 l (eq_sym Heq)). rewrite !length_app in *. lia.
      * specialize (Hfresh2 l Hl). rewrite !length_app in *. lia.
Qed.

Lemma row_repr_extend h k rl row : row_repr h rl row → row_repr (h ++ k) rl row.
Proof.
  intros (items & Hl & Hrow). exists items. split; [by apply lookup_app_l_Some|].
  eapply Forall2_impl; [|exact Hrow]. intros ? ?. apply piece_repr_extend.
Qed.

Lemma clone_row_repr h rl row :
  row_repr h rl row →
  ∃ rl' items' k,
    clone_row (VRef rl) h = (Returns (VRef rl'), h ++ k)
    ∧ (h ++ k) !! rl' = Some (OList items')
    ∧ Forall2 (piece_repr (h ++ k)) items' row
    ∧ (length h ≤ rl' < length (h ++ k))%nat
    ∧ ∀ l, VRef l ∈ items' → (length h ≤ l < length (h ++ k))%nat.
Proof.
  intros (items & Hl & Hrow).
  destruct (clone_items_repr h items row Hrow) as (items' & k & Hi & Hi' & Hfresh).
  exists (length (h ++ k)), items', (k ++ [OList items']).
  rewrite (assoc_L (++)). split; [|split; [|split; [|split]]].
  - unfold clone_row, list_items.
    rewrite (bind_Returns _ _ h items h).
    2: { by rewrite (bind_Returns _ _ h _ h (load_Returns _ _ _ Hl)). }
    by rewrite (bind_Returns _ _ h _ _ Hi).
  - by rewrite lookup_app_r, Nat.sub_diag by lia.
  - eapply Forall2_impl; [|exact Hi']. intros ? ?. apply piece_repr_extend.
  - rewrite !length_app. simpl. lia.
  - intros l Hl'. specialize (Hfresh l Hl'). rewrite !length_app in *. simpl. lia.
Qed.

Lemma clone_rows_repr h rls rows :
  Forall2 (row_repr h) rls rows →
  ∃ rls' itemss' k,
    mapM clone_row (VRef <$> rls) h = (Returns (VRef <$> rls'), h ++ k)
    ∧ NoDup rls'
    ∧ Forall2 (λ rl' items', (h ++ k) !! rl' = Some (OList items')) rls' itemss'
    ∧ Forall2 (Forall2 (piece_repr (h ++ k))) itemss' rows
    ∧ (∀ rl', rl' ∈ rls' → (length h ≤ rl' < length (h ++ k))%nat)
    ∧ ∀ items' l, items' ∈ itemss' → VRef l ∈ items' →
        (length h ≤ l < length (h ++ k))%nat.
Proof.
  intros Hrows. revert h Hrows. revert rows.
  induction rls as [|rl rls IH]; intros rows h Hrows.
  - inversion Hrows; subst. exists [], [], []. rewrite app_nil_r.
    split; [done|]. split; [constructor|]. split; [constructor|].
    split; [constructor|]. split; [by intros ? ?%elem_of_nil|].
    by intros ? ? ?%elem_of_nil.
  - inversion Hrows as [|? row ? rows' Hrow Hrest]; subst.
    destruct (clone_row_repr h rl row Hrow)
      as (rl' & items' & k1 & Hc & Hl' & Hi' & Hb1 & Hf1).
    destruct (IH rows' (h ++ k1))
      as (rls' & itemss' & k2 & Hcs & Hnd & Hls & Hiss & Hb2 & Hf2).
    { eapply Forall2_impl; [|exact Hrest]. intros ? ?. apply row_repr_extend. }
    exists (rl' :: rls'), (items' :: itemss'), (k1 ++ k2). rewrite (assoc_L (++)).
    split; [|split; [|split; [|split; [|split]]]].
    + rewrite fmap_cons, mapM_cons_M. rewrite (bind_Returns _ _ h _ _ Hc).
      by rewrite (bind_Returns _ _ _ _ _ Hcs).
    + constructor; [|done]. intros Hin. specialize (Hb2 rl' Hin). lia.
    + constructor; [by apply lookup_app_l_Some|done].
    + constructor; [|done].
      eapply Forall2_impl; [|exact Hi']. intros ? ?. apply piece_repr_extend.
    + intros x [->|Hx]%elem_of_cons.
      * rewrite !length_app in *. lia.
      * specialize (Hb2 x Hx). rewrite !length_app in *. lia.
    + intros its l [->|Hits]%elem_of_cons Hl.
      * specialize (Hf1 l Hl). rewrite !length_app in *. lia.
      * specialize (Hf2 its l Hits Hl). rewrite !length_app in *. lia.
Qed.

Lemma repr_rows h b s B : repr h b s B → Forall2 (row_repr h) (row_locs s) (board B).
Proof.
  destruct s as [g rls itemss]. intros (_ & _ & _ & Hrows & Hitems). simpl in *.
  revert Hitems. generalize (board B).
  induction Hrows as [|rl items rls' itemss' Hrl Hrest IH]; intros rows Hitems.
  - inversion Hitems. constructor.
  - inversion Hitems as [|? row ? rows' Hrow Hrest']; subst.
    constructor; [by exists items|by apply IH].
Qed.

(** [clone] returns a new board object that holds the same value; the store
    is extended; every object of the clone is new. *)
Lemma clone_h_repr h b s B :
  repr h b s B →
  ∃ b' s' k,
    clone_h b h = (Returns b', h ++ k)
    ∧ repr (h ++ k) b' s' B
    ∧ ∀ l, l ∈ footprint b' s' → (length h ≤ l < length (h ++ k))%nat.
Proof.
  intros Hrepr. pose proof Hrepr as (Hb & Hg & _).
  destruct (clone_rows_repr h (row_locs s) (board B) (repr_rows h b s B Hrepr))
    as (rls' & itemss' & k & Hcs & Hnd & Hls & Hiss & Hb1 & Hf1).
  set (h1 := h ++ k).
  set (h2 := h1 ++ [OList (VRef <$> rls')]).
  set (h3 := h2 ++ [OBoard (VRef (length h1)) (to_move B)]).
  exists (length h2), (mkShape (length h1) rls' itemss'),
    (k ++ [OList (VRef <$> rls'); OBoard (VRef (length h1)) (to_move B)]).
  assert (h ++ k ++ [OList (VRef <$> rls'); OBoard (VRef (length h1)) (to_move B)]
          = h3) as ->.
  { unfold h3, h2, h1. by rewrite <-!(assoc_L (++)). }
  split; [|split].
  - unfold clone_h.
    rewrite (bind_Returns _ _ h _ h (attr_board_repr h b s B Hrepr)).
    rewrite (bind_Returns _ _ h (VRef <$> row_locs s) h).
    2: { unfold list_items.
         by rewrite (bind_Returns _ _ h _ h (load_Returns _ _ _ Hg)). }
    rewrite (bind_Returns _ _ h _ _ Hcs). fold h1.
    rewrite (bind_Returns _ _ h1 (length h1) h2) by done.
    rewrite (bind_Returns _ _ h2 (to_move B) h2); [done|].
    apply (attr_to_move_repr h2 b s B). unfold h2, h1.
    by apply repr_extend, repr_extend.
  - split; simpl.
    { unfold h3. by rewrite lookup_app_r, Nat.sub_diag by lia. }
    split.
    { unfold h3, h2. apply lookup_app_l_Some.
      by rewrite lookup_app_r, Nat.sub_diag by lia. }
    split; [done|]. split.
    + eapply Forall2_impl; [|exact Hls]. intros rl' items' Hl. simpl in *.
      unfold h3, h2, h1. by apply lookup_app_l_Some, lookup_app_l_Some.
    + eapply Forall2_impl; [|exact Hiss]. intros items' row Hrow. simpl.
      eapply Forall2_impl; [|exact Hrow]. intros v o Hvo.
      unfold h3, h2, h1. by apply piece_repr_extend, piece_repr_extend.
  - intros l Hl. unfold footprint in Hl. simpl in Hl. unfold h3, h2, h1 in *.
    rewrite ?length_app in *. simpl.
    apply elem_of_cons in Hl as [->|Hl]; [rewrite ?length_app; simpl; lia|].
    apply elem_of_cons in Hl as [->|Hl]; [rewrite ?length_app; simpl; lia|].
    apply elem_of_app in Hl as [Hl|Hl].
    + specialize (Hb1 l Hl). rewrite ?length_app in *. lia.
    + apply elem_of_piece_locs in Hl as (its & Hits & Hv). simpl in Hits.
      specialize (Hf1 its l Hits Hv). rewrite ?length_app in *. lia.
Qed.

(** ** Two boards in one store *)

(** Writing the objects of one board leaves the other board as it is, when
    the two are different objects and no row of the first is a list of the
    second. *)
Lemma repr_frame_other h b1 s1 B1 b2 s2 B2 h' s1' :
  repr h b1 s1 B1 → repr h b2 s2 B2 →
  b1 ≠ b2 →
  (∀ l, l ∈ row_locs s1 → l ≠ grid_loc s2 ∧ l ∉ row_locs s2) →
  board_step h b1 s1 h' s1' →
  repr h' b2 s2 B2.
Proof.
  intros Hrepr1 Hrepr2 Hne Hrows (_ & _ & _ & Hframe & _).
  eapply repr_agree; [|exact Hrepr2]. intros l Hl.
  assert (l < length h)%nat as Hlt by (by eapply repr_allocated).
  pose proof Hrepr1 as (Hb1 & _). pose proof Hrepr2 as (Hb2 & Hg2 & _).
  apply Hframe; [done| |].
  - intros ->. unfold footprint in Hl.
    apply elem_of_cons in Hl as [?|Hl]; [done|].
    apply elem_of_cons in Hl as [->|Hl]; [congruence|].
    apply elem_of_app in Hl as [Hl|Hl].
    + destruct (repr_row_loc h b2 s2 B2 b1 Hrepr2 Hl). congruence.
    + destruct (repr_piece_loc h b2 s2 B2 b1 Hrepr2 Hl) as (? & ? & ?). congruence.
  - intros Hrow. destruct (repr_row_loc h b1 s1 B1 l Hrepr1 Hrow) as (items & Hitems).
    destruct (Hrows l Hrow) as [Hng Hnr]. unfold footprint in Hl.
    apply elem_of_cons in Hl as [->|Hl]; [congruence|].
    apply elem_of_cons in Hl as [->|Hl]; [done|].
    apply elem_of_app in Hl as [Hl|Hl]; [done|].
    destruct (repr_piece_loc h b2 s2 B2 l Hrepr2 Hl) as (? & ? & ?). congruence.
Qed.

Lemma call_h_repr h b s B ca :
  repr h b s B → wf_board B →
  ∃ res h' s' B',
    call_h b ca h = (res, h')
    ∧ repr h' b s' B' ∧ wf_board B' ∧ board_step h b s h' s'.
Proof.
  intros Hrepr Hwf. destruct ca as [r c [p|]|mv]; simpl.
  - rewrite (bind_Returns _ _ h (length h) (h ++ [OPiece (color p) (kind p)]))
      by done.
    destruct (set_h_step h s (h ++ [OPiece (color p) (kind p)]) b s B r c
                (VRef (length h)) (Some p))
      as (res & h' & s' & B' & Hset & Hrepr' & Hwf' & _ & Hstep & _).
    + apply board_step_alloc.
    + by apply repr_extend.
    + simpl. by rewrite lookup_app_r, Nat.sub_diag by lia.
    + intros l [= <-]. by right.
    + exists res, h', s', B'. auto.
  - destruct (set_h_step h s h b s B r c VNone None (board_step_refl h b s) Hrepr I)
      as (res & h' & s' & B' & Hset & Hrepr' & Hwf' & _ & Hstep & _); [done|].
    exists res, h', s', B'. auto.
  - destruct (move_piece_h_repr h b s B mv Hrepr Hwf)
      as (res & h' & s' & B' & Hmv & Hrepr' & Hwf' & Hstep & _).
    exists res, h', s', B'. auto.
Qed.

(** Whatever is called on the board at [b1], the board at [b2] holds the
    same value afterwards. *)
Lemma run_calls_frame calls h b1 s1 B1 b2 s2 B2 :
  repr h b1 s1 B1 → wf_board B1 → repr h b2 s2 B2 →
  b1 ≠ b2 →
  (∀ l, l ∈ row_locs s1 → l ≠ grid_loc s2 ∧ l ∉ row_locs s2) →
  repr (run_calls b1 calls h) b2 s2 B2.
Proof.
  revert h s1 B1. induction calls as [|ca calls IH];
    intros h s1 B1 Hrepr1 Hwf1 Hrepr2 Hne Hrows; [done|]. simpl.
  destruct (call_h_repr h b1 s1 B1 ca Hrepr1 Hwf1)
    as (res & h' & s1' & B1' & -> & Hrepr1' & Hwf1' & Hstep). simpl.
  apply (IH h' s1' B1'); [done|done| |done|].
  - exact (repr_frame_other h b1 s1 B1 b2 s2 B2 h' s1' Hrepr1 Hrepr2 Hne Hrows Hstep).
  - destruct Hstep as (_ & -> & _). done.
Qed.

(** ** The initial position as an object *)

Lemma new_board_h_initial : new_board_h [] = (Returns 9%nat, initial_store).
Proof. vm_compute. reflexivity. Qed.

Lemma initial_store_repr : repr initial_store 9 initial_shape initial_board.
Proof.
  split; [reflexivity|]. split; [reflexivity|]. split.
  { apply (bool_decide_unpack _). vm_compute. exact I. }
  split; repeat constructor.
Qed.

(** C5.  [clone] returns a new board object with the same squares and the
    same side to move; none of the objects it is made of (board, outer list,
    rows, pieces) is an object of the original; whatever sequence of [set]
    and [move_piece] calls is made on the clone, returning or raising, the
    original holds the same value afterwards, and the other way round. *)
Theorem C5_clone_independence (h : heap) (b : loc) (s : shape) (B : Board) :
  repr h b s B →
  wf_board B →
  clone B = B
  ∧ ∃ b' s' h',
      clone_h b h = (Returns b', h')
      ∧ repr h' b s B
      ∧ repr h' b' s' B
      ∧ view h' b = Some B
      ∧ view h' b' = Some (clone B)
      ∧ (∀ l, l ∈ footprint b' s' → l ∉ footprint b s)
      ∧ (∀ calls, view (run_calls b' calls h') b = Some B)
      ∧ (∀ calls, view (run_calls b calls h') b' = Some (clone B)).
Proof.
  intros Hrepr Hwf. split; [apply clone_id|]. rewrite clone_id.
  destruct (clone_h_repr h b s B Hrepr) as (b' & s' & k & Hclone & Hrepr' & Hfresh).
  pose proof (repr_extend h k b s B Hrepr) as Hrepr0.
  assert (∀ l, l ∈ footprint b' s' → l ∉ footprint b s) as Hdisj.
  { intros l Hl' Hl. specialize (Hfresh l Hl').
    pose proof (repr_allocated h b s B l Hrepr Hl). lia. }
  assert (b' ≠ b) as Hne.
  { intros ->. apply (Hdisj b); left. }
  assert (∀ l, l ∈ row_locs s' → l ≠ grid_loc s ∧ l ∉ row_locs s) as Hrows1.
  { intros l Hl.
    assert (l ∈ footprint b' s') as Hl'.
    { right. right. apply elem_of_app. by left. }
    specialize (Hdisj l Hl'). split.
    - intros ->. apply Hdisj. right. left.
    - intros Hl2. apply Hdisj. right. right. apply elem_of_app. by left. }
  assert (∀ l, l ∈ row_locs s → l ≠ grid_loc s' ∧ l ∉ row_locs s') as Hrows2.
  { intros l Hl. split.
    - intros ->. apply (Hdisj (grid_loc s')); [right; left|].
      right. right. apply elem_of_app. by left.
    - intros Hl2. by destruct (Hrows1 l Hl2). }
  exists b', s', (h ++ k). split; [done|]. split; [done|]. split; [done|].
  split; [by eapply repr_view|]. split; [by eapply repr_view|].
  split; [done|]. split.
  - intros calls. eapply repr_view.
    by apply (run_calls_frame calls (h ++ k) b' s' B b s B).
  - intros calls. eapply repr_view.
    by apply (run_calls_frame calls (h ++ k) b s B b' s' B).
Qed.

Lemma C5_clone_independence_witness :
  clone initial_board = initial_board
  ∧ ∃ b' s' h',
      clone_h 9 initial_store = (Returns b', h')
      ∧ repr h' 9 initial_shape initial_board
      ∧ repr h' b' s' initial_board
      ∧ view h' 9 = Some initial_board
      ∧ view h' b' = Some (clone initial_board)
      ∧ (∀ l, l ∈ footprint b' s' → l ∉ footprint 9 initial_shape)
      ∧ (∀ calls, view (run_calls b' calls h') 9 = Some initial_board)
      ∧ (∀ calls, view (run_calls 9 calls h') b' = Some (clone initial_board)).
Proof.
  apply (C5_clone_independence initial_store 9 initial_shape initial_board).
  - split; [reflexivity|]. split; [reflexivity|]. split.
    { apply (bool_decide_unpack _). vm_compute. exact I. }
    split; repeat constructor.
  - split; [reflexivity|repeat constructor].
Defined.

(** A move on the clone of the initial position, seen from both objects. *)
Example clone_then_move :
  match clone_h 9 initial_store with
  | (Returns b', h1) =>
      let h2 := (move_piece_h b' (mkMove (6, 4) (4, 4) None) h1).2 in
      view h2 9 = Some initial_board
      ∧ view h2 b' = move_piece initial_board (mkMove (6, 4) (4, 4) None)
  | _ => False
  end.
Proof. vm_compute. done. Qed.

(** ** [choose_move] on a board object *)

(** A store that keeps every object of [h] as it was is an extension of
    [h]. *)
Lemma prefix_of_agree (h h' : heap) :
  (length h ≤ length h')%nat →
  (∀ l, (l < length h)%nat → h' !! l = h !! l) →
  h `prefix_of` h'.
Proof.
  intros Hlen Hag. exists (drop (length h) h').
  rewrite <-(take_drop (length h) h') at 1. f_equal.
  apply list_eq. intros i. destruct (decide (i < length h)%nat).
  - by rewrite lookup_take_lt, Hag by done.
  - rewrite lookup_take_ge by lia. symmetry. apply lookup_ge_None. lia.
Qed.

Lemma repr_prefix h h' b s B : h `prefix_of` h' → repr h b s B → repr h' b s B.
Proof. intros [k ->]. apply repr_extend. Qed.

(** The three lines [sim = board.clone(); sim.move_piece(mv); ...] of both
    loops: the rest of the body runs with the board value that
    [move_piece (clone B) mv] gives, in a store that extends the one
    before. *)
Lemma simulate_h h b s B mv sim_board :
  repr h b s B → wf_board B →
  move_piece (clone B) mv = Some sim_board →
  ∃ h', h `prefix_of` h'
        ∧ ∀ A (rest : Board → M A),
            (sim ← clone_h b; move_piece_h sim mv;; snapshot sim ≫= rest) h
            = rest sim_board h'.
Proof.
  intros Hrepr Hwf Hsim. rewrite clone_id in Hsim.
  destruct (clone_h_repr h b s B Hrepr) as (sim & s' & k & Hclone & Hrepr' & Hfresh).
  destruct (move_piece_h_repr (h ++ k) sim s' B mv Hrepr' Hwf)
    as (res & h' & s2 & B' & Hmv & Hrepr2 & _ & Hstep & Hout).
  destruct Hout as [[-> HB']|[_ ?]]; [|congruence].
  assert (B' = sim_board) as -> by congruence.
  exists h'. split.
  - destruct Hstep as (_ & _ & Hlen & Hframe & _).
    rewrite length_app in Hlen. apply prefix_of_agree; [lia|].
    intros l Hl. rewrite Hframe.
    + by apply lookup_app_l.
    + rewrite length_app. lia.
    + intros ->. assert (length h ≤ sim)%nat; [|lia]. apply Hfresh. left.
    + intros Hrow. assert (length h ≤ l)%nat; [|lia]. apply Hfresh.
      right. right. apply elem_of_app. by left.
  - intros A rest. rewrite (bind_Returns _ _ h _ _ Hclone).
    rewrite (bind_Returns _ _ _ _ _ Hmv).
    by rewrite (bind_Returns _ _ _ _ _ (snapshot_repr h' sim s2 sim_board Hrepr2)).
Qed.

Lemma capture_step_h_repr col h b s B st mv :
  repr h b s B → wf_board B → mv ∈ generate_moves B col →
  ∃ st' h', capture_step_h col b st mv h = (Returns st', h')
            ∧ h `prefix_of` h'
            ∧ capture_step col B st mv = Some st'.
Proof.
  intros Hrepr Hwf Hmv. unfold capture_step_h, capture_step.
  destruct (end_ mv) as [er ec] eqn:Hend.
  destruct (get_h_repr h b s B er ec Hrepr Hwf) as (target & Hget & Htarget & _).
  rewrite (bind_Returns _ _ h _ h Hget).
  destruct target as [|l], (get B er ec) as [p|] eqn:Hp; simpl in Htarget;
    try done.
  { by exists st, h. }
  rewrite (bind_Returns _ _ h _ h (piece_color_repr h l p Htarget)).
  case_bool_decide; [|by exists st, h].
  destruct (simulate_generated B col mv Hwf Hmv) as (sim_board & Hsim & _).
  destruct (simulate_h h b s B mv sim_board Hrepr Hwf Hsim) as (h' & Hpre & ->).
  rewrite Hsim. simpl.
  destruct (is_square_attacked sim_board er ec (opponent col)); simpl;
    [by exists st, h'|].
  assert (h' !! l = Some (OPiece (color p) (kind p))) as Hl'.
  { by eapply prefix_lookup_Some. }
  pose proof (piece_kind_repr h' l p Hl') as Hkind. unfold piece_kind in Hkind.
  rewrite (bind_Returns _ _ h' _ h' Hkind).
  destruct (ext_lt st.2 (Fin (PIECE_VALUES (kind p)))); by eexists _, h'.
Qed.

Lemma material_step_h_repr col h b s B st mv :
  repr h b s B → wf_board B → mv ∈ generate_moves B col →
  ∃ st' h', material_step_h col b st mv h = (Returns st', h')
            ∧ h `prefix_of` h'
            ∧ material_step col B st mv = Some st'.
Proof.
  intros Hrepr Hwf Hmv. unfold material_step_h, material_step.
  destruct (simulate_generated B col mv Hwf Hmv) as (sim_board & Hsim & _).
  destruct (simulate_h h b s B mv sim_board Hrepr Hwf Hsim) as (h' & Hpre & ->).
  rewrite Hsim. simpl. case_decide.
  - destruct (ext_lt st.2 (Fin (material sim_board)));
      eexists _, h'; (split; [reflexivity|by split]).
  - destruct (st.2) as [|v|]; simpl; try destruct (bool_decide _);
      eexists _, h'; (split; [reflexivity|by split]).
Qed.

(** A loop whose body agrees with the body of the value-level loop and only
    extends the store. *)
Lemma for_each_h_repr {S} (body_h : S → Move → M S) (body : S → Move → option S)
    (moves : list Move) h b s B st :
  repr h b s B →
  (∀ h1 st1 mv, h `prefix_of` h1 → mv ∈ moves →
     ∃ st' h', body_h st1 mv h1 = (Returns st', h') ∧ h1 `prefix_of` h'
               ∧ body st1 mv = Some st') →
  ∃ st' h', for_each_h body_h moves st h = (Returns st', h')
            ∧ h `prefix_of` h'
            ∧ for_each body moves st = Some st'.
Proof.
  intros Hrepr. revert h st Hrepr.
  induction moves as [|mv moves IH]; intros h st Hrepr Hbody; simpl.
  { by exists st, h. }
  destruct (Hbody h st mv) as (st1 & h1 & Hstep & Hpre1 & ->); [done|left|].
  simpl. rewrite (bind_Returns _ _ h _ _ Hstep).
  destruct (IH h1 st1) as (st' & h' & Hrest & Hpre & ->).
  - by eapply repr_prefix.
  - intros h2 st2 mv' Hpre2 Hmv'. apply Hbody; [by etrans|by right].
  - exists st', h'. split; [done|]. split; [by etrans|done].
Qed.

(** [choose_move] on the object returns what [choose_move] on the value
    returns, in a store that extends the one before: it creates objects
    (the clones) and writes none that existed. *)
Lemma choose_move_h_repr h b s B col :
  repr h b s B → wf_board B →
  ∃ res h',
    choose_move_h col b h = (Returns res, h')
    ∧ h `prefix_of` h'
    ∧ choose_move col B = Some res.
Proof.
  intros Hrepr Hwf. unfold choose_move_h, choose_move.
  rewrite (bind_Returns _ _ h _ h (snapshot_repr h b s B Hrepr)).
  destruct (generate_moves B col) as [|mv0 rest] eqn:Hmoves.
  { by exists None, h. }
  rewrite <-Hmoves.
  destruct (for_each_h_repr (capture_step_h col b) (capture_step col B)
              (generate_moves B col) h b s B (None, NegInf) Hrepr)
    as (st1 & h1 & Hloop1 & Hpre1 & ->).
  { intros h1 st1 mv Hpre Hmv. apply (capture_step_h_repr col h1 b s B); [|done..].
    by eapply repr_prefix. }
  rewrite (bind_Returns _ _ h _ _ Hloop1). simpl.
  destruct (st1.1) as [best|]; [by exists (Some best), h1|].
  destruct (for_each_h_repr (material_step_h col b) (material_step col B)
              (generate_moves B col) h1 b s B
              (None, if decide (col = White) then NegInf else PosInf))
    as (st2 & h2 & Hloop2 & Hpre2 & ->).
  { by eapply repr_prefix. }
  { intros h2 st2 mv Hpre Hmv. apply (material_step_h_repr col h2 b s B); [|done..].
    eapply repr_prefix; [|done]. by etrans. }
  rewrite (bind_Returns _ _ h1 _ _ Hloop2). simpl.
  destruct (st2.1) as [best|].
  - exists (Some best), h2. split; [done|]. split; [by etrans|done].
  - exists (head (generate_moves B col)), h2. split; [done|].
    split; [by etrans|done].
Qed.

(** C6.  [choose_move] returns [None] exactly when [generate_moves] gives no
    move, and one of the generated moves otherwise; the call never raises;
    the board it is given holds the same value afterwards, as does every
    object that existed before the call. *)
Theorem C6_choose_move_returns_generated_move (h : heap) (b : loc) (s : shape)
    (B : Board) (col : Color) :
  repr h b s B →
  wf_board B →
  ∃ res h',
    choose_move_h col b h = (Returns res, h')
    ∧ choose_move col B = Some res
    ∧ (res = None ↔ generate_moves B col = [])
    ∧ (∀ mv, res = Some mv → mv ∈ generate_moves B col)
    ∧ h `prefix_of` h'
    ∧ view h' b = Some B.
Proof.
  intros Hrepr Hwf.
  destruct (choose_move_h_repr h b s B col Hrepr Hwf) as (res & h' & Hrun & Hpre & Hres).
  destruct (choose_move_result B col Hwf) as (res' & Hres' & Hnone & Hsome).
  assert (res' = res) as -> by congruence.
  exists res, h'. split; [done|]. split; [done|]. split; [done|]. split; [done|].
  split; [done|]. eapply repr_view. by eapply repr_prefix.
Qed.

Lemma C6_choose_move_returns_generated_move_witness :
  ∃ res h',
    choose_move_h White 9 initial_store = (Returns res, h')
    ∧ choose_move White initial_board = Some res
    ∧ (res = None ↔ generate_moves initial_board White = [])
    ∧ (∀ mv, res = Some mv → mv ∈ generate_moves initial_board White)
    ∧ initial_store `prefix_of` h'
    ∧ view h' 9 = Some initial_board.
Proof.
  apply (C6_choose_move_returns_generated_move initial_store 9 initial_shape
           initial_board White).
  - split; [reflexivity|]. split; [reflexivity|]. split.
    { apply (bool_decide_unpack _). vm_compute. exact I. }
    split; repeat constructor.
  - split; [reflexivity|repeat constructor].
Defined.

(** The first move the AI plays for White from the initial position, on the
    object and on the value. *)
Example choose_move_initial :
  (choose_move_h White 9 initial_store).1 = Returns (Some (mkMove (6, 0) (5, 0) None))
  ∧ choose_move White initial_board = Some (Some (mkMove (6, 0) (5, 0) None)).
Proof. vm_compute. done. Qed.

(** * Further properties of the board, the rules and the driver *)

(** ** [set] and [move_piece] with any indices *)

Lemma py_index_8 (i : Z) :
  py_index 8 i = if bool_decide (-8 ≤ i < 8) then Some (Z.to_nat (i `mod` 8)) else None.
Proof.
  unfold py_index. change (Z.of_nat 8) with 8.
  destruct (decide (0 ≤ i < 8)) as [Hpos|Hpos].
  - rewrite !bool_decide_eq_true_2 by lia. by rewrite Z.mod_small.
  - rewrite (bool_decide_eq_false_2 _ Hpos).
    destruct (decide (-8 ≤ i < 0)) as [Hneg|Hneg].
    + rewrite !bool_decide_eq_true_2 by lia. do 2 f_equal.
      rewrite <-(Z.mod_add i 1 8) by lia. rewrite Z.mod_small by lia. lia.
    + by rewrite !bool_decide_eq_false_2 by lia.
Qed.

Lemma set_wraps b r c piece :
  wf_board b →
  set b r c piece =
  if bool_decide (-8 ≤ r < 8 ∧ -8 ≤ c < 8)
  then set b (r `mod` 8) (c `mod` 8) piece else None.
Proof.
  intros Hwf. pose proof Hwf as [Hlen Hrows]. unfold set. rewrite Hlen, !py_index_8.
  assert (0 ≤ r `mod` 8 < 8) by (apply Z.mod_pos_bound; lia).
  assert (0 ≤ c `mod` 8 < 8) by (apply Z.mod_pos_bound; lia).
  rewrite (bool_decide_eq_true_2 (-8 ≤ r `mod` 8 < 8)) by lia.
  rewrite Z.mod_mod by lia.
  destruct (decide (-8 ≤ r < 8)) as [Hr|Hr].
  - rewrite (bool_decide_eq_true_2 _ Hr). simpl.
    destruct (wf_board_row b (r `mod` 8) Hwf) as (row & -> & Hrow); [lia|]. simpl.
    rewrite Hrow, !py_index_8.
    rewrite (bool_decide_eq_true_2 (-8 ≤ c `mod` 8 < 8)) by lia.
    rewrite Z.mod_mod by lia.
    destruct (decide (-8 ≤ c < 8)) as [Hc|Hc].
    + by rewrite (bool_decide_eq_true_2 _ Hc), bool_decide_eq_true_2.
    + rewrite (bool_decide_eq_false_2 _ Hc). simpl.
      by rewrite bool_decide_eq_false_2 by (by intros [_ ?]).
  - rewrite (bool_decide_eq_false_2 _ Hr). simpl.
    by rewrite bool_decide_eq_false_2 by (by intros [? _]).
Qed.

(** X1.  On an 8x8 board [set] with indices in bounds returns; reading the
    written square gives the written occupant, every other square reads as
    before, and [to_move] is kept. *)
Theorem X1_set_then_get (b : Board) (r c : Z) (piece : option Piece) :
  wf_board b →
  in_bounds r c = true →
  ∃ b', set b r c piece = Some b'
        ∧ wf_board b'
        ∧ get b' r c = piece
        ∧ (∀ r' c', (r', c') ≠ (r, c) → get b' r' c' = get b r' c')
        ∧ to_move b' = to_move b.
Proof.
  intros Hwf Hin.
  destruct (set_in_bounds b r c piece Hwf Hin) as (b' & Hset & Hwf' & Htm & Hget).
  exists b'. split; [done|]. split; [done|]. split; [|split; [|done]].
  - by rewrite Hget, bool_decide_eq_true_2.
  - intros r' c' Hne. rewrite Hget.
    by rewrite bool_decide_eq_false_2 by (intros [-> ->]; done).
Qed.

Lemma X1_set_then_get_witness :
  ∃ b', set initial_board 4 4 (Some (mkPiece White Queen)) = Some b'
        ∧ wf_board b'
        ∧ get b' 4 4 = Some (mkPiece White Queen)
        ∧ (∀ r' c', (r', c') ≠ (4, 4) → get b' r' c' = get initial_board r' c')
        ∧ to_move b' = to_move initial_board.
Proof.
  apply (X1_set_then_get initial_board 4 4 (Some (mkPiece White Queen))).
  - split; [reflexivity|repeat constructor].
  - reflexivity.
Defined.

(** X2.  [set] has no bounds check of its own: it raises exactly when a
    coordinate is outside [-8, 8); a negative coordinate counts from the end
    (Python's indexing), so that the call writes the square
    [(r mod 8, c mod 8)]. *)
Theorem X2_set_negative_indices_wrap (b : Board) (r c : Z) (piece : option Piece) :
  wf_board b →
  (set b r c piece = None ↔ ¬ (-8 ≤ r < 8 ∧ -8 ≤ c < 8))
  ∧ (-8 ≤ r < 8 → -8 ≤ c < 8 →
     ∃ b', set b r c piece = Some b'
           ∧ wf_board b'
           ∧ get b' (r `mod` 8) (c `mod` 8) = piece
           ∧ ∀ r' c', (r', c') ≠ (r `mod` 8, c `mod` 8) → get b' r' c' = get b r' c').
Proof.
  intros Hwf. rewrite (set_wraps b r c piece Hwf).
  assert (in_bounds (r `mod` 8) (c `mod` 8) = true) as Hin.
  { apply in_bounds_true. split; apply Z.mod_pos_bound; lia. }
  destruct (set_in_bounds b _ _ piece Hwf Hin) as (b' & Hset & Hwf' & Htm & Hget).
  split.
  - case_bool_decide; [|done]. rewrite Hset. split; [done|]. by intros [].
  - intros Hr Hc. rewrite bool_decide_eq_true_2 by done. exists b'.
    split; [done|]. split; [done|]. split.
    + by rewrite Hget, bool_decide_eq_true_2.
    + intros r' c' Hne. rewrite Hget.
      by rewrite bool_decide_eq_false_2 by (intros [-> ->]; done).
Qed.

Lemma X2_set_negative_indices_wrap_witness :
  (set initial_board (-1) (-8) None = None ↔ ¬ (-8 ≤ -1 < 8 ∧ -8 ≤ -8 < 8))
  ∧ (-8 ≤ -1 < 8 → -8 ≤ -8 < 8 →
     ∃ b', set initial_board (-1) (-8) None = Some b'
           ∧ wf_board b'
           ∧ get b' ((-1) `mod` 8) ((-8) `mod` 8) = None
           ∧ ∀ r' c', (r', c') ≠ ((-1) `mod` 8, (-8) `mod` 8) →
               get b' r' c' = get initial_board r' c').
Proof.
  apply (X2_set_negative_indices_wrap initial_board (-1) (-8) None).
  split; [reflexivity|repeat constructor].
Defined.

(** X3.  [move_piece] checks nothing: on an 8x8 board it returns exactly
    when the four coordinates of the move are in [-8, 8); when it returns,
    the grid is still 8x8 and [to_move] is the other colour. *)
Theorem X3_move_piece_returns_iff (b : Board) (mv : Move) :
  wf_board b →
  (is_Some (move_piece b mv)
   ↔ (-8 ≤ (start mv).1 < 8 ∧ -8 ≤ (start mv).2 < 8)
     ∧ (-8 ≤ (end_ mv).1 < 8 ∧ -8 ≤ (end_ mv).2 < 8))
  ∧ ∀ b', move_piece b mv = Some b' →
      wf_board b' ∧ to_move b' = other (to_move b).
Proof.
  intros Hwf. unfold move_piece.
  destruct (start mv) as [sr sc], (end_ mv) as [er ec]. simpl.
  assert (∀ b0 r c o, wf_board b0 → (-8 ≤ r < 8 ∧ -8 ≤ c < 8) →
            ∃ b1, set b0 r c o = Some b1 ∧ wf_board b1 ∧ to_move b1 = to_move b0)
    as Hset.
  { intros b0 r c o Hwf0 Hrc. rewrite (set_wraps b0 r c o Hwf0).
    rewrite bool_decide_eq_true_2 by done.
    destruct (set_in_bounds b0 (r `mod` 8) (c `mod` 8) o Hwf0)
      as (b1 & ? & ? & ? & _); [|by exists b1].
    apply in_bounds_true. split; apply Z.mod_pos_bound; lia. }
  assert (∀ b0 r c o, wf_board b0 → ¬ (-8 ≤ r < 8 ∧ -8 ≤ c < 8) →
            set b0 r c o = None) as Hnone.
  { intros b0 r c o Hwf0 Hrc. rewrite (set_wraps b0 r c o Hwf0).
    by rewrite bool_decide_eq_false_2. }
  destruct (decide (-8 ≤ sr < 8 ∧ -8 ≤ sc < 8)) as [Hs|Hs]; last first.
  { rewrite (Hnone b sr sc None Hwf Hs). simpl.
    split; [|done]. split; [by intros [? ?]|by intros [? _]]. }
  destruct (Hset b sr sc None Hwf Hs) as (b1 & -> & Hwf1 & Htm1). simpl.
  set (placed_piece :=
         match promotion mv, get b sr sc with
         | Some k, Some p =>
             if decide (kind p = Pawn) then Some (mkPiece (color p) k) else Some p
         | _, o => o
         end).
  assert (match promotion mv, get b sr sc with
          | Some k, Some p =>
              if decide (kind p = Pawn)
              then set b1 er ec (Some (mkPiece (color p) k))
              else set b1 er ec (get b sr sc)
          | _, _ => set b1 er ec (get b sr sc)
          end = set b1 er ec placed_piece) as ->.
  { unfold placed_piece. destruct (promotion mv), (get b sr sc); try done.
    by case_decide. }
  destruct (decide (-8 ≤ er < 8 ∧ -8 ≤ ec < 8)) as [He|He]; last first.
  { rewrite (Hnone b1 er ec _ Hwf1 He). simpl.
    split; [|done]. split; [by intros [? ?]|by intros [_ ?]]. }
  destruct (Hset b1 er ec placed_piece Hwf1 He) as (b2 & -> & Hwf2 & Htm2). simpl.
  split; [by split; eauto|]. intros b' [= <-]. split; [done|]. simpl.
  unfold other. by rewrite Htm2, Htm1.
Qed.

Lemma X3_move_piece_returns_iff_witness :
  let mv := mkMove (6, 4) (4, 4) None in
  (is_Some (move_piece initial_board mv)
   ↔ (-8 ≤ (start mv).1 < 8 ∧ -8 ≤ (start mv).2 < 8)
     ∧ (-8 ≤ (end_ mv).1 < 8 ∧ -8 ≤ (end_ mv).2 < 8))
  ∧ ∀ b', move_piece initial_board mv = Some b' →
      wf_board b' ∧ to_move b' = other (to_move initial_board).
Proof.
  apply (X3_move_piece_returns_iff initial_board (mkMove (6, 4) (4, 4) None)).
  split; [reflexivity|repeat constructor].
Defined.

(** ** [material] and moves *)

Lemma Zsum_app l k : Zsum (l ++ k) = Zsum l + Zsum k.
Proof. unfold Zsum. induction l as [|x l IH]; simpl; lia. Qed.

Lemma Zsum_bind {A} (g : A → list Z) (l : list A) :
  Zsum (l ≫= g) = Zsum ((λ x, Zsum (g x)) <$> l).
Proof.
  induction l as [|x l IH]; [done|].
  rewrite bind_cons, Zsum_app, IH. done.
Qed.

Lemma Zsum_fmap_ext {A} (f g : A → Z) (l : list A) :
  (∀ x, x ∈ l → f x = g x) → Zsum (f <$> l) = Zsum (g <$> l).
Proof.
  intros Hfg. f_equal. apply list_fmap_ext. intros i x Hx. apply Hfg.
  by eapply list_elem_of_lookup_2.
Qed.

(** Changing one term of a sum. *)
Lemma Zsum_fmap_update {A} (f g : A → Z) (l : list A) (x0 : A) :
  NoDup l → x0 ∈ l → (∀ x, x ∈ l → x ≠ x0 → g x = f x) →
  Zsum (g <$> l) = Zsum (f <$> l) - f x0 + g x0.
Proof.
  induction 1 as [|x l Hx Hnd IH]; intros Hin Hfg; [by apply elem_of_nil in Hin|].
  rewrite !fmap_cons. change (Zsum (?a :: ?k)) with (a + Zsum k).
  apply elem_of_cons in Hin as [->|Hin].
  - rewrite (Zsum_fmap_ext g f l); [lia|]. intros y Hy. apply Hfg; [by right|].
    by intros ->.
  - rewrite IH; [|done|]. 
    + rewrite (Hfg x); [lia|left|]. by intros ->.
    + intros y Hy. apply Hfg. by right.
Qed.

Lemma fmap_bind_list {A B C} (f : B → C) (g : A → list B) (l : list A) :
  f <$> (l ≫= g) = l ≫= (λ x, f <$> g x).
Proof.
  induction l as [|x l IH]; [done|]. by rewrite !bind_cons, fmap_app, IH.
Qed.

(** [material] is the sum of the values of the 64 squares. *)
Lemma material_sum b :
  material b
  = Zsum ((λ r, Zsum ((λ c, square_value (get b r c)) <$> range COLS))
            <$> range ROWS).
Proof.
  unfold material.
  assert (∀ (l : list (Z * Z * Piece)) acc,
            foldl (λ score '(_, _, p),
                     let val := PIECE_VALUES (kind p) in
                     score + (if decide (color p = White) then val else - val))
                  acc l
            = acc + Zsum ((λ x : Z * Z * Piece, square_value (Some x.2)) <$> l))
    as Hfold.
  { induction l as [|[[r c] p] l IH]; intros acc; simpl; [unfold Zsum; simpl; lia|].
    rewrite IH. change (Zsum (?a :: ?k)) with (a + Zsum k). simpl.
    destruct (decide (color p = White)); unfold fmap; lia. }
  rewrite Hfold. unfold all_pieces.
  rewrite fmap_bind_list, Zsum_bind. rewrite Z.add_0_l.
  apply Zsum_fmap_ext. intros r Hr. rewrite fmap_bind_list, Zsum_bind.
  apply Zsum_fmap_ext. intros c Hc.
  apply elem_of_range in Hr, Hc.
  rewrite get_in_bounds by (apply in_bounds_true; unfold ROWS, COLS in *; lia).
  destruct (grid_at b r c) as [p|]; unfold Zsum; simpl; [|done].
  destruct (decide (color p = White)); lia.
Qed.

Lemma material_to_move b tm : material (mkBoard (board b) tm) = material b.
Proof. done. Qed.

Lemma material_set b r0 c0 piece b' :
  wf_board b → in_bounds r0 c0 = true → set b r0 c0 piece = Some b' →
  material b' = material b - square_value (get b r0 c0) + square_value piece.
Proof.
  intros Hwf Hin Hset.
  destruct (set_in_bounds b r0 c0 piece Hwf Hin) as (b'' & Hset' & _ & _ & Hget).
  assert (b'' = b') as -> by congruence.
  apply in_bounds_true in Hin as [Hr Hc]. rewrite !material_sum.
  rewrite (Zsum_fmap_update
             (λ r, Zsum ((λ c, square_value (get b r c)) <$> range COLS))
             (λ r, Zsum ((λ c, square_value (get b' r c)) <$> range COLS))
             (range ROWS) r0).
  - rewrite (Zsum_fmap_update (λ c, square_value (get b r0 c))
               (λ c, square_value (get b' r0 c)) (range COLS) c0).
    + rewrite Hget, bool_decide_eq_true_2 by done. lia.
    + apply NoDup_seqZ.
    + apply elem_of_range. unfold COLS. lia.
    + intros c _ Hne. rewrite Hget.
      by rewrite bool_decide_eq_false_2 by (by intros [_ ?]).
  - apply NoDup_seqZ.
  - apply elem_of_range. unfold ROWS. lia.
  - intros r _ Hne. apply Zsum_fmap_ext. intros c _. rewrite Hget.
    by rewrite bool_decide_eq_false_2 by (by intros [? _]).
Qed.

(** [move_piece] as its two [set] calls. *)
Lemma move_piece_sets b mv :
  wf_board b →
  in_bounds (start mv).1 (start mv).2 = true →
  in_bounds (end_ mv).1 (end_ mv).2 = true →
  ∃ b1 b2,
    set b (start mv).1 (start mv).2 None = Some b1
    ∧ wf_board b1
    ∧ set b1 (end_ mv).1 (end_ mv).2 (placed b mv) = Some b2
    ∧ move_piece b mv = Some (mkBoard (board b2) (other (to_move b))).
Proof.
  intros Hwf Hs He. unfold move_piece, placed.
  destruct (start mv) as [sr sc], (end_ mv) as [er ec]. simpl in *.
  destruct (set_in_bounds b sr sc None Hwf Hs) as (b1 & Hb1 & Hwf1 & Htm1 & _).
  exists b1. rewrite Hb1. simpl.
  assert (∀ piece, ∃ b2, set b1 er ec piece = Some b2 ∧ to_move b2 = to_move b)
    as Hset2.
  { intros piece.
    destruct (set_in_bounds b1 er ec piece Hwf1 He) as (b2 & ? & _ & ? & _).
    exists b2. split; [done|congruence]. }
  destruct (promotion mv) as [k|], (get b sr sc) as [p|]; try case_decide;
    match goal with
    | |- context [set b1 er ec ?piece] =>
        destruct (Hset2 piece) as (b2 & Heq & Htm2);
        exists b2; rewrite Heq; simpl; unfold other; rewrite Htm2; done
    end.
Qed.

(** X4.  For a move between two different squares of the board,
    [material] after [move_piece] is the old [material], less the values of
    the two occupants that leave their squares, plus the value of the piece
    put on the end square. *)
Theorem X4_material_after_move_piece (b : Board) (mv : Move) :
  wf_board b →
  in_bounds (start mv).1 (start mv).2 = true →
  in_bounds (end_ mv).1 (end_ mv).2 = true →
  start mv ≠ end_ mv →
  ∃ b', move_piece b mv = Some b'
        ∧ material b'
          = material b
            - square_value (get b (start mv).1 (start mv).2)
            - square_value (get b (end_ mv).1 (end_ mv).2)
            + square_value
                match promotion mv, get b (start mv).1 (start mv).2 with
                | Some k, Some p =>
                    if decide (kind p = Pawn)
                    then Some (mkPiece (color p) k) else Some p
                | _, occupant => occupant
                end.
Proof.
  intros Hwf Hs He Hne.
  destruct (move_piece_sets b mv Hwf Hs He) as (b1 & b2 & Hb1 & Hwf1 & Hb2 & ->).
  eexists. split; [done|]. rewrite material_to_move.
  rewrite (material_set b1 _ _ _ b2 Hwf1 He Hb2).
  rewrite (material_set b _ _ _ b1 Hwf Hs Hb1).
  destruct (set_in_bounds b _ _ None Hwf Hs) as (b1' & Hb1' & _ & _ & Hget).
  assert (b1' = b1) as -> by congruence.
  rewrite Hget. rewrite bool_decide_eq_false_2; last first.
  { intros [Hr Hc]. apply Hne. destruct (start mv), (end_ mv). simpl in *.
    congruence. }
  unfold placed. simpl.
  destruct (promotion mv), (get b (start mv).1 (start mv).2); simpl; lia.
Qed.

Lemma X4_material_after_move_piece_witness :
  let b := rook_and_pawn_board in
  let mv := mkMove (4, 0) (4, 3) None in
  ∃ b', move_piece b mv = Some b'
        ∧ material b'
          = material b
            - square_value (get b (start mv).1 (start mv).2)
            - square_value (get b (end_ mv).1 (end_ mv).2)
            + square_value
                match promotion mv, get b (start mv).1 (start mv).2 with
                | Some k, Some p =>
                    if decide (kind p = Pawn)
                    then Some (mkPiece (color p) k) else Some p
                | _, occupant => occupant
                end.
Proof.
  apply (X4_material_after_move_piece rook_and_pawn_board
           (mkMove (4, 0) (4, 3) None)).
  - split; [reflexivity|repeat constructor].
  - reflexivity.
  - reflexivity.
  - discriminate.
Defined.

(** What is known of a generated move: the piece that moves, the squares,
    the promotion. *)
Lemma generated_move_facts b col mv :
  mv ∈ generate_moves b col →
  ∃ p, get b (start mv).1 (start mv).2 = Some p
       ∧ color p = col
       ∧ in_bounds (start mv).1 (start mv).2 = true
       ∧ in_bounds (end_ mv).1 (end_ mv).2 = true
       ∧ (get b (end_ mv).1 (end_ mv).2 = None
          ∨ ∃ q, get b (end_ mv).1 (end_ mv).2 = Some q ∧ color q ≠ col)
       ∧ (promotion mv = None ∨ (promotion mv = Some Queen ∧ kind p = Pawn))
       ∧ mv ∈ _piece_moves b (start mv).1 (start mv).2 p.
Proof.
  intros (r & c & p & Hb & Hg & Hc & Hmv)%elem_of_generate_moves.
  pose proof (piece_moves_lands_ok b r c p mv Hb Hmv) as (Hs & He & Ht).
  exists p. rewrite Hs. simpl. rewrite <-Hc.
  split; [done|]. split; [done|]. split; [done|]. split; [done|].
  split; [done|]. split; [|done].
  unfold _piece_moves in Hmv. destruct (kind p) eqn:Hk;
    eauto using knight_moves_no_promotion, king_moves_no_promotion,
      slider_moves_no_promotion.
  apply pawn_moves_promotion in Hmv as [[? _]|[? _]]; auto.
Qed.

Lemma generated_start_ne_end b col mv :
  mv ∈ generate_moves b col → start mv ≠ end_ mv.
Proof.
  intros (p & Hp & Hc & _ & _ & Hend & _)%generated_move_facts Heq.
  rewrite <-Heq in Hend. destruct Hend as [?|(q & ? & ?)]; congruence.
Qed.

(** The material a generated move wins for the mover. *)
Lemma generated_move_gain (b : Board) (col : Color) (mv : Move) :
  wf_board b →
  mv ∈ generate_moves b col →
  ∃ b', move_piece b mv = Some b'
        ∧ side_sign col * (material b' - material b)
          = captured_value b mv + match promotion mv with Some _ => 8 | None => 0 end
        ∧ 0 ≤ side_sign col * (material b' - material b).
Proof.
  intros Hwf Hmv.
  pose proof (generated_start_ne_end b col mv Hmv) as Hne.
  destruct (generated_move_facts b col mv Hmv)
    as (p & Hp & Hc & Hs & He & Hend & Hpromo & _).
  destruct (move_piece_sets b mv Hwf Hs He) as (b1 & b2 & Hb1 & Hwf1 & Hb2 & ->).
  eexists. split; [done|]. rewrite material_to_move.
  rewrite (material_set b1 _ _ _ b2 Hwf1 He Hb2).
  rewrite (material_set b _ _ _ b1 Hwf Hs Hb1).
  destruct (set_in_bounds b _ _ None Hwf Hs) as (b1' & Hb1' & _ & _ & Hget).
  assert (b1' = b1) as -> by congruence.
  rewrite Hget. rewrite bool_decide_eq_false_2; last first.
  { intros [Hr Hcc]. apply Hne. destruct (start mv), (end_ mv). simpl in *.
    congruence. }
  unfold placed, captured_value, side_sign. rewrite Hp. simpl.
  assert (0 ≤ PIECE_VALUES (kind p)) by (by destruct (kind p)).
  destruct Hpromo as [->|[-> Hk]]; [|rewrite Hk; simpl];
    (destruct Hend as [->|(q & -> & Hq)]; simpl;
     [|assert (0 ≤ PIECE_VALUES (kind q)) by (by destruct (kind q))];
     destruct p as [[] kp], col; simplify_eq/=;
     try (destruct q as [[] kq]; simplify_eq/=; try done); lia).
Qed.

(** X5.  A generated move never costs the mover material: measured in the
    mover's favour, [material] changes by the value of the captured piece,
    plus 8 when the move promotes (a queen for a pawn). *)
Theorem X5_generated_move_material_gain (b : Board) (col : Color) (mv : Move) :
  wf_board b →
  mv ∈ generate_moves b col →
  ∃ b', move_piece b mv = Some b'
        ∧ side_sign col * (material b' - material b)
          = captured_value b mv + match promotion mv with Some _ => 8 | None => 0 end
        ∧ 0 ≤ side_sign col * (material b' - material b).
Proof. apply generated_move_gain. Qed.

Lemma X5_generated_move_material_gain_witness :
  let b := rook_and_pawn_board in
  let mv := mkMove (4, 0) (4, 3) None in
  ∃ b', move_piece b mv = Some b'
        ∧ side_sign White * (material b' - material b)
          = captured_value b mv + match promotion mv with Some _ => 8 | None => 0 end
        ∧ 0 ≤ side_sign White * (material b' - material b).
Proof.
  apply (X5_generated_move_material_gain rook_and_pawn_board White
           (mkMove (4, 0) (4, 3) None)).
  - split; [reflexivity|repeat constructor].
  - apply (bool_decide_unpack _). vm_compute. exact I.
Defined.

(** ** The moves of each kind of piece *)

Lemma may_land_target b r c col nr nc mv :
  in_bounds nr nc = true →
  mv ∈ match get b nr nc with
       | None => [mkMove (r, c) (nr, nc) None]
       | Some target =>
           if bool_decide (color target ≠ col)
           then [mkMove (r, c) (nr, nc) None] else []
       end
  ↔ mv = mkMove (r, c) (nr, nc) None ∧ may_land b col nr nc.
Proof.
  intros Hin. unfold may_land. destruct (get b nr nc) as [q|] eqn:Hq.
  - case_bool_decide as Hc.
    + rewrite list_elem_of_singleton. split; [|by intros [? _]].
      intros ->. split; [done|]. split; [done|]. by intros ? [= <-].
    + rewrite elem_of_nil. split; [done|]. intros (_ & _ & Hown).
      by apply (Hown q).
  - rewrite list_elem_of_singleton. split; [|by intros [? _]].
    intros ->. done.
Qed.

(** The moves of one walk of [_slider_moves]: the squares reached over empty
    squares, the last one free or held by the other colour. *)
Lemma slider_walk_elem fuel b r c col dr dc nr nc mv :
  mv ∈ slider_walk fuel b r c col dr dc nr nc ↔
  ∃ k : Z, 0 ≤ k < Z.of_nat fuel
    ∧ mv = mkMove (r, c) (nr + k * dr, nc + k * dc) None
    ∧ may_land b col (nr + k * dr) (nc + k * dc)
    ∧ ∀ j : Z, 0 ≤ j < k →
        in_bounds (nr + j * dr) (nc + j * dc) = true
        ∧ get b (nr + j * dr) (nc + j * dc) = None.
Proof.
  revert nr nc. induction fuel as [|fuel IH]; intros nr nc; simpl.
  { rewrite elem_of_nil. split; [done|]. intros (k & ? & _). lia. }
  assert (∀ P : Z → Z → Prop, P nr nc ↔ P (nr + 0 * dr) (nc + 0 * dc)) as Hzero.
  { intros P. by replace (nr + 0 * dr) with nr by lia;
      replace (nc + 0 * dc) with nc by lia. }
  destruct (in_bounds nr nc) eqn:Hb; last first.
  { rewrite elem_of_nil. split; [done|]. intros (k & Hk & _ & [Hin _] & Hfree).
    destruct (decide (k = 0)) as [->|].
    - apply (Hzero (λ x y, in_bounds x y = true)) in Hin. congruence.
    - destruct (Hfree 0) as [Hin0 _]; [lia|].
      apply (Hzero (λ x y, in_bounds x y = true)) in Hin0. congruence. }
  destruct (get b nr nc) as [q|] eqn:Hq.
  - pose proof (may_land_target b r c col nr nc mv Hb) as Htarget.
    rewrite Hq in Htarget. rewrite Htarget. split.
    + intros [-> Hland]. exists 0. split; [lia|].
      split; [by rewrite <-(Hzero (λ x y, _ = mkMove _ (x, y) _))|].
      split; [by apply (Hzero (may_land b col))|]. lia.
    + intros (k & Hk & -> & Hland & Hfree).
      destruct (decide (k = 0)) as [->|].
      * split; [by rewrite <-(Hzero (λ x y, mkMove _ (x, y) _ = _))|].
        by apply (Hzero (may_land b col)).
      * destruct (Hfree 0) as [_ Hg]; [lia|].
        apply (Hzero (λ x y, get b x y = None)) in Hg. congruence.
  - rewrite elem_of_cons, IH. split.
    + intros [->|(k & Hk & -> & Hland & Hfree)].
      * exists 0. split; [lia|].
        split; [by rewrite <-(Hzero (λ x y, _ = mkMove _ (x, y) _))|].
        split; [|lia]. apply (Hzero (may_land b col)). split; [done|].
        intros q. by rewrite Hq.
      * exists (k + 1). split; [lia|].
        replace (nr + (k + 1) * dr) with (nr + dr + k * dr) by lia.
        replace (nc + (k + 1) * dc) with (nc + dc + k * dc) by lia.
        split; [done|]. split; [done|].
        intros j Hj. destruct (decide (j = 0)) as [->|].
        -- by apply (Hzero (λ x y, in_bounds x y = true ∧ get b x y = None)).
        -- destruct (Hfree (j - 1)) as [H1 H2]; [lia|].
           replace (nr + dr + (j - 1) * dr) with (nr + j * dr) in * by lia.
           replace (nc + dc + (j - 1) * dc) with (nc + j * dc) in * by lia.
           done.
    + intros (k & Hk & -> & Hland & Hfree).
      destruct (decide (k = 0)) as [->|]; [left|right].
      * by rewrite <-(Hzero (λ x y, mkMove _ (x, y) _ = _)).
      * exists (k - 1). split; [lia|].
        replace (nr + dr + (k - 1) * dr) with (nr + k * dr) by lia.
        replace (nc + dc + (k - 1) * dc) with (nc + k * dc) by lia.
        split; [done|]. split; [done|].
        intros j Hj. destruct (Hfree (j + 1)) as [H1 H2]; [lia|].
        replace (nr + (j + 1) * dr) with (nr + dr + j * dr) in * by lia.
        replace (nc + (j + 1) * dc) with (nc + dc + j * dc) in * by lia.
        done.
Qed.

(** The moves of [_slider_moves] from a square of the board, in terms of
    rays. *)
Lemma slider_moves_elem b r c col k mv :
  in_bounds r c = true →
  mv ∈ _slider_moves b r c col (slider_directions k) ↔
  start mv = (r, c) ∧ promotion mv = None
  ∧ may_land b col (end_ mv).1 (end_ mv).2
  ∧ ∃ dr dc, (dr, dc) ∈ slider_directions k
             ∧ ray_reaches b r c dr dc (end_ mv).1 (end_ mv).2.
Proof.
  intros Hin. unfold _slider_moves. rewrite list_elem_of_bind. split.
  - intros ([dr dc] & (k' & Hk & -> & Hland & Hfree)%slider_walk_elem & Hd). simpl.
    split; [done|]. split; [done|]. split; [done|]. exists dr, dc. split; [done|].
    exists (k' + 1). split; [lia|]. split; [lia|]. split; [lia|].
    intros j Hj. destruct (Hfree (j - 1)) as [H1 H2]; [lia|].
    replace (r + dr + (j - 1) * dr) with (r + j * dr) in * by lia.
    replace (c + dc + (j - 1) * dc) with (c + j * dc) in * by lia.
    done.
  - intros (Hs & Hp & Hland & dr & dc & Hd & k' & Hk & Hr & Hc & Hfree).
    exists (dr, dc). split; [|done]. apply slider_walk_elem. exists (k' - 1).
    replace (r + dr + (k' - 1) * dr) with (r + k' * dr) by lia.
    replace (c + dc + (k' - 1) * dc) with (c + k' * dc) by lia.
    split.
    { apply slider_directions_unit in Hd as (Hnz & Hdr & Hdc).
      destruct Hland as [Hland _]. apply in_bounds_true in Hin, Hland.
      unfold WALK_FUEL. nia. }
    split; [destruct mv as [? [er ec] ?]; simpl in *; by subst|].
    split; [by rewrite <-Hr, <-Hc|].
    intros j Hj. destruct (Hfree (j + 1)) as [H1 H2]; [lia|].
    replace (r + (j + 1) * dr) with (r + dr + j * dr) in * by lia.
    replace (c + (j + 1) * dc) with (c + dc + j * dc) in * by lia.
    done.
Qed.

(** X6.  The moves generated for a bishop, rook or queen on a square of
    the board are exactly the moves, without promotion, to the squares
    reached along one of its directions over empty squares, the end square
    being empty or held by the other colour; a piece of either colour on the
    way ends the ray. *)
Theorem X6_slider_moves_are_rays (b : Board) (r c : Z) (col : Color) (k : Kind)
    (mv : Move) :
  wf_board b →
  in_bounds r c = true →
  is_slider k →
  let directions :=
    match k with
    | Bishop => DIAGONALS
    | Rook => ORTHOGONALS
    | _ => DIAGONALS ++ ORTHOGONALS
    end in
  mv ∈ _piece_moves b r c (mkPiece col k) ↔
  start mv = (r, c) ∧ promotion mv = None
  ∧ may_land b col (end_ mv).1 (end_ mv).2
  ∧ ∃ dr dc, (dr, dc) ∈ directions
             ∧ ray_reaches b r c dr dc (end_ mv).1 (end_ mv).2.
Proof.
  intros _ Hin Hk directions.
  assert (slider_directions k = directions) as <-.
  { by destruct Hk as [->|[->| ->]]. }
  rewrite <-slider_moves_elem by done.
  by destruct Hk as [->|[->| ->]].
Qed.

Lemma X6_slider_moves_are_rays_witness :
  let b := rook_and_pawn_board in
  let mv := mkMove (4, 0) (4, 3) None in
  mv ∈ _piece_moves b 4 0 (mkPiece White Rook) ↔
  start mv = (4, 0) ∧ promotion mv = None
  ∧ may_land b White (end_ mv).1 (end_ mv).2
  ∧ ∃ dr dc, (dr, dc) ∈ ORTHOGONALS
             ∧ ray_reaches b 4 0 dr dc (end_ mv).1 (end_ mv).2.
Proof.
  apply (X6_slider_moves_are_rays rook_and_pawn_board 4 0 White Rook
           (mkMove (4, 0) (4, 3) None)).
  - split; [reflexivity|repeat constructor].
  - reflexivity.
  - right. left. reflexivity.
Defined.

Lemma knight_offsets_iff dr dc :
  (dr, dc) ∈ KNIGHT_OFFSETS
  ↔ (Z.abs dr = 1 ∧ Z.abs dc = 2) ∨ (Z.abs dr = 2 ∧ Z.abs dc = 1).
Proof.
  unfold KNIGHT_OFFSETS. rewrite !elem_of_cons, elem_of_nil. split.
  - intros H. repeat destruct H as [H|H]; try done; injection H as -> ->; lia.
  - intros H.
    assert ((dr = 1 ∨ dr = -1 ∨ dr = 2 ∨ dr = -2)
            ∧ (dc = 1 ∨ dc = -1 ∨ dc = 2 ∨ dc = -2)) as [Hr Hc] by lia.
    destruct Hr as [->|[->|[->| ->]]], Hc as [->|[->|[->| ->]]]; try lia;
      repeat (first [left; reflexivity|right]).
Qed.

Lemma king_offsets_iff dr dc :
  (dr, dc) ∈ KING_OFFSETS
  ↔ Z.abs dr ≤ 1 ∧ Z.abs dc ≤ 1 ∧ (dr ≠ 0 ∨ dc ≠ 0).
Proof.
  change KING_OFFSETS
    with [(-1,-1); (-1,0); (-1,1); (0,-1); (0,1); (1,-1); (1,0); (1,1)].
  rewrite !elem_of_cons, elem_of_nil. split.
  - intros H. repeat destruct H as [H|H]; try done; injection H as -> ->; lia.
  - intros H.
    assert ((dr = 1 ∨ dr = -1 ∨ dr = 0) ∧ (dc = 1 ∨ dc = -1 ∨ dc = 0))
      as [Hr Hc] by lia.
    destruct Hr as [->|[->| ->]], Hc as [->|[->| ->]]; try lia;
      repeat (first [left; reflexivity|right]).
Qed.

(** The moves of a loop over fixed offsets (knight and king). *)
Lemma offset_moves_elem b r c col (offsets : list (Z * Z)) mv :
  mv ∈ ('(dr, dc) ← offsets;
        let nr := r + dr in
        let nc := c + dc in
        if negb (in_bounds nr nc) then []
        else match get b nr nc with
             | None => [mkMove (r, c) (nr, nc) None]
             | Some target =>
                 if bool_decide (color target ≠ col)
                 then [mkMove (r, c) (nr, nc) None] else []
             end)
  ↔ start mv = (r, c) ∧ promotion mv = None
    ∧ may_land b col (end_ mv).1 (end_ mv).2
    ∧ ((end_ mv).1 - r, (end_ mv).2 - c) ∈ offsets.
Proof.
  rewrite list_elem_of_bind. split.
  - intros ([dr dc] & Hmv & Hd). simpl in Hmv.
    destruct (in_bounds (r + dr) (c + dc)) eqn:Hin; simpl in Hmv;
      [|by apply elem_of_nil in Hmv].
    apply may_land_target in Hmv as [-> Hland]; [|done]. simpl.
    split; [done|]. split; [done|]. split; [done|].
    by replace (r + dr - r) with dr by lia; replace (c + dc - c) with dc by lia.
  - intros (Hs & Hp & Hland & Hd). exists ((end_ mv).1 - r, (end_ mv).2 - c).
    split; [|done]. simpl.
    replace (r + ((end_ mv).1 - r)) with (end_ mv).1 by lia.
    replace (c + ((end_ mv).2 - c)) with (end_ mv).2 by lia.
    destruct Hland as [Hin Hown]. rewrite Hin. simpl.
    apply may_land_target; [done|]. split; [|done].
    destruct mv as [? [er ec] ?]. simpl in *. by subst.
Qed.

(** X7.  The moves generated for a knight are exactly the moves, without
    promotion, to the squares of the board one row and two columns, or two
    rows and one column, away that hold no piece of the knight's colour;
    what stands in between plays no part. *)
Theorem X7_knight_moves_are_jumps (b : Board) (r c : Z) (col : Color) (mv : Move) :
  wf_board b →
  mv ∈ _piece_moves b r c (mkPiece col Knight) ↔
  start mv = (r, c) ∧ promotion mv = None
  ∧ may_land b col (end_ mv).1 (end_ mv).2
  ∧ ((Z.abs ((end_ mv).1 - r) = 1 ∧ Z.abs ((end_ mv).2 - c) = 2)
     ∨ (Z.abs ((end_ mv).1 - r) = 2 ∧ Z.abs ((end_ mv).2 - c) = 1)).
Proof.
  intros _. rewrite <-knight_offsets_iff.
  apply (offset_moves_elem b r c col KNIGHT_OFFSETS mv).
Qed.

Lemma X7_knight_moves_are_jumps_witness :
  let mv := mkMove (7, 1) (5, 2) None in
  mv ∈ _piece_moves initial_board 7 1 (mkPiece White Knight) ↔
  start mv = (7, 1) ∧ promotion mv = None
  ∧ may_land initial_board White (end_ mv).1 (end_ mv).2
  ∧ ((Z.abs ((end_ mv).1 - 7) = 1 ∧ Z.abs ((end_ mv).2 - 1) = 2)
     ∨ (Z.abs ((end_ mv).1 - 7) = 2 ∧ Z.abs ((end_ mv).2 - 1) = 1)).
Proof.
  apply (X7_knight_moves_are_jumps initial_board 7 1 White
           (mkMove (7, 1) (5, 2) None)).
  split; [reflexivity|repeat constructor].
Defined.

(** X8.  The moves generated for a king are exactly the moves, without
    promotion, to the squares of the board next to it (at most one row and
    one column away, not its own square) that hold no piece of its colour;
    no other king move (castling) is generated, and a square attacked by the
    other side is not excluded. *)
Theorem X8_king_moves_are_steps (b : Board) (r c : Z) (col : Color) (mv : Move) :
  wf_board b →
  mv ∈ _piece_moves b r c (mkPiece col King) ↔
  start mv = (r, c) ∧ promotion mv = None
  ∧ may_land b col (end_ mv).1 (end_ mv).2
  ∧ Z.abs ((end_ mv).1 - r) ≤ 1 ∧ Z.abs ((end_ mv).2 - c) ≤ 1
  ∧ ((end_ mv).1 ≠ r ∨ (end_ mv).2 ≠ c).
Proof.
  intros _.
  assert (((end_ mv).1 - r, (end_ mv).2 - c) ∈ KING_OFFSETS
          ↔ Z.abs ((end_ mv).1 - r) ≤ 1 ∧ Z.abs ((end_ mv).2 - c) ≤ 1
            ∧ ((end_ mv).1 ≠ r ∨ (end_ mv).2 ≠ c)) as <-.
  { rewrite king_offsets_iff. split; intros (? & ? & ?); (split; [done|]);
      (split; [done|]); lia. }
  apply (offset_moves_elem b r c col KING_OFFSETS mv).
Qed.

Lemma X8_king_moves_are_steps_witness :
  let b := mkBoard (<[4%nat := <[4%nat := Some (mkPiece White King)]>
                                 (replicate 8 None)]> empty_grid) White in
  let mv := mkMove (4, 4) (3, 5) None in
  mv ∈ _piece_moves b 4 4 (mkPiece White King) ↔
  start mv = (4, 4) ∧ promotion mv = None
  ∧ may_land b White (end_ mv).1 (end_ mv).2
  ∧ Z.abs ((end_ mv).1 - 4) ≤ 1 ∧ Z.abs ((end_ mv).2 - 4) ≤ 1
  ∧ ((end_ mv).1 ≠ 4 ∨ (end_ mv).2 ≠ 4).
Proof.
  apply (X8_king_moves_are_steps
           (mkBoard (<[4%nat := <[4%nat := Some (mkPiece White King)]>
                                  (replicate 8 None)]> empty_grid) White)
           4 4 White (mkMove (4, 4) (3, 5) None)).
  split; [reflexivity|repeat constructor].
Defined.

Lemma maybe_promote_eq s nr nc col :
  _maybe_promote (mkMove s (nr, nc) None) col nr
  = mkMove s (nr, nc)
      (if bool_decide (nr = promotion_row col) then Some Queen else None).
Proof.
  unfold _maybe_promote, promotion_row. destruct col; simpl.
  - destruct (decide (nr = 0)) as [Hn|Hn].
    + rewrite (bool_decide_eq_true_2 _ Hn).
      by rewrite bool_decide_eq_true_2 by (by left).
    + rewrite (bool_decide_eq_false_2 _ Hn).
      by rewrite bool_decide_eq_false_2 by (by intros [[_ ?]|[? _]]).
  - destruct (decide (nr = 7)) as [Hn|Hn].
    + rewrite (bool_decide_eq_true_2 _ Hn).
      by rewrite bool_decide_eq_true_2 by (by right).
    + rewrite (bool_decide_eq_false_2 _ Hn).
      by rewrite bool_decide_eq_false_2 by (by intros [[? _]|[_ ?]]).
Qed.

Lemma pawn_moves_elem b r c col mv :
  in_bounds r c = true →
  mv ∈ _pawn_moves b r c col ↔
  start mv = (r, c)
  ∧ promotion mv
    = (if bool_decide ((end_ mv).1 = promotion_row col) then Some Queen else None)
  ∧ ((end_ mv = (r + pawn_dir col, c)
      ∧ in_bounds (r + pawn_dir col) c = true
      ∧ get b (r + pawn_dir col) c = None)
     ∨ (end_ mv = (r + 2 * pawn_dir col, c)
        ∧ r = pawn_start_row col
        ∧ get b (r + pawn_dir col) c = None
        ∧ get b (r + 2 * pawn_dir col) c = None)
     ∨ (∃ dc, (dc = -1 ∨ dc = 1)
          ∧ end_ mv = (r + pawn_dir col, c + dc)
          ∧ ∃ q, get b (r + pawn_dir col) (c + dc) = Some q ∧ color q ≠ col)).
Proof.
  intros Hin. apply in_bounds_true in Hin.
  assert (pawn_start_row col + 2 * pawn_dir col ≠ promotion_row col) as Hdouble.
  { unfold pawn_start_row, pawn_dir, promotion_row. destruct col; simpl; lia. }
  assert (r = pawn_start_row col → in_bounds (r + pawn_dir col) c = true) as Hhome.
  { intros ->. apply in_bounds_true.
    unfold pawn_start_row, pawn_dir. destruct col; simpl; lia. }
  unfold _pawn_moves. rewrite elem_of_app, list_elem_of_bind. split.
  - intros [Hf|(dc & Hmv & Hdc)].
    + destruct (in_bounds (r + pawn_dir col) c) eqn:Hb; simpl in Hf;
        [|by apply elem_of_nil in Hf].
      case_bool_decide as Hg; simpl in Hf; [|by apply elem_of_nil in Hf].
      apply elem_of_cons in Hf as [->|Hf].
      { rewrite maybe_promote_eq. simpl. split; [done|]. split; [done|]. by left. }
      case_bool_decide as Hs; simpl in Hf; [|by apply elem_of_nil in Hf].
      case_bool_decide as Hg2; simpl in Hf; [|by apply elem_of_nil in Hf].
      apply list_elem_of_singleton in Hf as ->. simpl. split; [done|].
      split.
      { rewrite bool_decide_eq_false_2; [done|]. rewrite Hs. exact Hdouble. }
      right. left. done.
    + destruct (in_bounds (r + pawn_dir col) (c + dc)) eqn:Hb;
        [|by apply elem_of_nil in Hmv].
      destruct (get b (r + pawn_dir col) (c + dc)) as [q|] eqn:Hq;
        [|by apply elem_of_nil in Hmv].
      case_bool_decide; [|by apply elem_of_nil in Hmv].
      apply list_elem_of_singleton in Hmv as ->. rewrite maybe_promote_eq. simpl.
      split; [done|]. split; [done|]. right. right. exists dc.
      split; [|split; [done|by exists q]].
      rewrite !elem_of_cons, elem_of_nil in Hdc.
      destruct Hdc as [?|[?|[]]]; auto.
  - intros (Hs & Hp & Hcases). destruct mv as [s [er ec] pr]. simpl in *. subst s pr.
    destruct Hcases as [([= -> ->] & Hb & Hg)|[([= -> ->] & -> & Hg & Hg2)
                                             |(dc & Hdc & [= -> ->] & q & Hq & Hc)]].
    + left. rewrite Hb, (bool_decide_eq_true_2 _ Hg). simpl.
      rewrite maybe_promote_eq. left.
    + left. rewrite Hhome by done.
      rewrite (bool_decide_eq_true_2 _ Hg), (bool_decide_eq_true_2 _ Hg2).
      rewrite (bool_decide_eq_true_2 _ (eq_refl (pawn_start_row col))). simpl.
      rewrite (bool_decide_eq_false_2 _ Hdouble). right. left.
    + right. exists dc. split.
      * rewrite (get_Some_in_bounds b _ _ q Hq), Hq.
        rewrite (bool_decide_eq_true_2 _ Hc).
        rewrite maybe_promote_eq. left.
      * rewrite !elem_of_cons. destruct Hdc; auto.
Qed.

(** X9.  The moves generated for a pawn on a square of the board are
    exactly: one step ahead onto an empty square of the board; two steps
    ahead from its start row (6 for White, 1 for Black) when both squares
    are empty; one step ahead and one column aside onto a piece of the other
    colour.  The move carries [promotion = Queen] exactly when it ends on
    row 0 (White) or 7 (Black).  No other pawn move (en passant) is
    generated. *)
Theorem X9_pawn_moves_are_steps_and_captures (b : Board) (r c : Z) (col : Color)
    (mv : Move) :
  wf_board b →
  in_bounds r c = true →
  let ahead := if decide (col = White) then -1 else 1 in
  let start_row := if decide (col = White) then 6 else 1 in
  let last_row := if decide (col = White) then 0 else 7 in
  mv ∈ _piece_moves b r c (mkPiece col Pawn) ↔
  start mv = (r, c)
  ∧ promotion mv
    = (if bool_decide ((end_ mv).1 = last_row) then Some Queen else None)
  ∧ ((end_ mv = (r + ahead, c)
      ∧ in_bounds (r + ahead) c = true
      ∧ get b (r + ahead) c = None)
     ∨ (end_ mv = (r + 2 * ahead, c)
        ∧ r = start_row
        ∧ get b (r + ahead) c = None
        ∧ get b (r + 2 * ahead) c = None)
     ∨ (∃ dc, (dc = -1 ∨ dc = 1)
          ∧ end_ mv = (r + ahead, c + dc)
          ∧ ∃ q, get b (r + ahead) (c + dc) = Some q ∧ color q ≠ col)).
Proof.
  intros _ Hin ahead start_row last_row.
  apply (pawn_moves_elem b r c col mv Hin).
Qed.

Lemma X9_pawn_moves_are_steps_and_captures_witness :
  let mv := mkMove (6, 4) (4, 4) None in
  mv ∈ _piece_moves initial_board 6 4 (mkPiece White Pawn) ↔
  start mv = (6, 4)
  ∧ promotion mv
    = (if bool_decide ((end_ mv).1 = 0) then Some Queen else None)
  ∧ ((end_ mv = (6 + -1, 4)
      ∧ in_bounds (6 + -1) 4 = true
      ∧ get initial_board (6 + -1) 4 = None)
     ∨ (end_ mv = (6 + 2 * -1, 4)
        ∧ 6 = 6
        ∧ get initial_board (6 + -1) 4 = None
        ∧ get initial_board (6 + 2 * -1) 4 = None)
     ∨ (∃ dc, (dc = -1 ∨ dc = 1)
          ∧ end_ mv = (6 + -1, 4 + dc)
          ∧ ∃ q, get initial_board (6 + -1) (4 + dc) = Some q ∧ color q ≠ White)).
Proof.
  apply (X9_pawn_moves_are_steps_and_captures initial_board 6 4 White
           (mkMove (6, 4) (4, 4) None)).
  - split; [reflexivity|repeat constructor].
  - reflexivity.
Defined.

(** ** The order of [all_pieces] and [generate_moves] *)

Lemma ordered_app {A} (R : A → A → Prop) (l1 l2 : list A) :
  ordered R l1 → ordered R l2 →
  (∀ x y, x ∈ l1 → y ∈ l2 → R x y) →
  ordered R (l1 ++ l2).
Proof.
  intros H1 H2 H12 i j x y Hij Hi Hj.
  apply lookup_app_Some in Hi as [Hi|[Hi1 Hi2]],
                           Hj as [Hj|[Hj1 Hj2]].
  - by apply (H1 i j).
  - apply H12; by eapply list_elem_of_lookup_2.
  - apply lookup_lt_Some in Hj. lia.
  - apply (H2 (i - length l1)%nat (j - length l1)%nat); [lia|done..].
Qed.

Lemma ordered_tail {A} (R : A → A → Prop) (x : A) (l : list A) :
  ordered R (x :: l) → ordered R l.
Proof. intros H i j y z Hij Hi Hj. apply (H (S i) (S j)); [lia|done..]. Qed.

Lemma ordered_head {A} (R : A → A → Prop) (x y : A) (l : list A) :
  ordered R (x :: l) → y ∈ l → R x y.
Proof.
  intros H (i & Hi)%list_elem_of_lookup. apply (H 0%nat (S i)); [lia|done..].
Qed.

Lemma ordered_bind {A B} (R0 : A → A → Prop) (R : B → B → Prop)
    (f : A → list B) (l : list A) :
  ordered R0 l →
  (∀ x, x ∈ l → ordered R (f x)) →
  (∀ x1 x2 y1 y2, x1 ∈ l → x2 ∈ l → R0 x1 x2 →
     y1 ∈ f x1 → y2 ∈ f x2 → R y1 y2) →
  ordered R (l ≫= f).
Proof.
  intros Hl Hf Hcross. induction l as [|x l IH].
  { intros i j y z _ Hi. done. }
  rewrite bind_cons. apply ordered_app.
  - apply Hf. left.
  - apply IH; [by eapply ordered_tail| |].
    + intros y Hy. apply Hf. by right.
    + intros x1 x2 y1 y2 Hx1 Hx2. apply Hcross; by right.
  - intros y z Hy (x2 & Hz & Hx2)%list_elem_of_bind.
    apply (Hcross x x2); [left|by right| |done..]. by eapply ordered_head.
Qed.

Lemma ordered_range n : ordered Z.lt (range n).
Proof.
  intros i j x y Hij Hi Hj. unfold range in *.
  apply lookup_seqZ in Hi as [-> _], Hj as [-> _]. lia.
Qed.

Lemma ordered_singleton_or_nil {A} (R : A → A → Prop) (l : list A) :
  (length l ≤ 1)%nat → ordered R l.
Proof.
  intros Hlen i j x y Hij Hi Hj. apply lookup_lt_Some in Hj. lia.
Qed.

Lemma all_pieces_ordered b :
  ordered (λ x y : Z * Z * Piece, row_major x.1 y.1) (all_pieces b).
Proof.
  unfold all_pieces.
  apply (ordered_bind Z.lt); [apply ordered_range| |].
  - intros r _.
    apply (ordered_bind Z.lt); [apply ordered_range| |].
    + intros c _. apply ordered_singleton_or_nil.
      destruct (grid_at b r c); simpl; lia.
    + intros c1 c2 y1 y2 _ _ Hc Hy1 Hy2.
      destruct (grid_at b r c1); [|by apply elem_of_nil in Hy1].
      destruct (grid_at b r c2); [|by apply elem_of_nil in Hy2].
      apply list_elem_of_singleton in Hy1 as ->, Hy2 as ->. by right.
  - intros r1 r2 y1 y2 _ _ Hr (c1 & Hy1 & _)%list_elem_of_bind
      (c2 & Hy2 & _)%list_elem_of_bind.
    destruct (grid_at b r1 c1); [|by apply elem_of_nil in Hy1].
    destruct (grid_at b r2 c2); [|by apply elem_of_nil in Hy2].
    apply list_elem_of_singleton in Hy1 as ->, Hy2 as ->. by left.
Qed.

(** A list ordered by a relation without loops has no repetition. *)
Lemma ordered_NoDup {A} (R : A → A → Prop) (l : list A) :
  (∀ x, ¬ R x x) → ordered R l → NoDup l.
Proof.
  intros Hirr Hl. apply NoDup_alt. intros i j x Hi Hj.
  destruct (Nat.lt_trichotomy i j) as [Hlt|[?|Hlt]]; [|done|].
  - destruct (Hirr x). by apply (Hl i j).
  - destruct (Hirr x). by apply (Hl j i).
Qed.

Lemma all_pieces_NoDup b : NoDup (all_pieces b).
Proof.
  apply (ordered_NoDup (λ x y : Z * Z * Piece, row_major x.1 y.1));
    [|apply all_pieces_ordered].
  intros [[r c] p]. unfold row_major. simpl. lia.
Qed.

(** X10.  [all_pieces] yields exactly the occupied squares of the board,
    with their occupants, each once, rows first and columns within a
    row. *)
Theorem X10_all_pieces_row_major (b : Board) :
  wf_board b →
  (∀ r c p, (r, c, p) ∈ all_pieces b ↔ in_bounds r c = true ∧ get b r c = Some p)
  ∧ NoDup (all_pieces b)
  ∧ ∀ (i j : nat) r1 c1 p1 r2 c2 p2,
      (i < j)%nat →
      all_pieces b !! i = Some (r1, c1, p1) →
      all_pieces b !! j = Some (r2, c2, p2) →
      r1 < r2 ∨ (r1 = r2 ∧ c1 < c2).
Proof.
  intros _. split; [apply elem_of_all_pieces|]. split; [apply all_pieces_NoDup|].
  intros i j r1 c1 p1 r2 c2 p2 Hij Hi Hj.
  apply (all_pieces_ordered b i j _ _ Hij Hi Hj).
Qed.

Lemma X10_all_pieces_row_major_witness :
  (∀ r c p, (r, c, p) ∈ all_pieces initial_board
            ↔ in_bounds r c = true ∧ get initial_board r c = Some p)
  ∧ NoDup (all_pieces initial_board)
  ∧ ∀ (i j : nat) r1 c1 p1 r2 c2 p2,
      (i < j)%nat →
      all_pieces initial_board !! i = Some (r1, c1, p1) →
      all_pieces initial_board !! j = Some (r2, c2, p2) →
      r1 < r2 ∨ (r1 = r2 ∧ c1 < c2).
Proof.
  apply (X10_all_pieces_row_major initial_board).
  split; [reflexivity|repeat constructor].
Defined.

Lemma offset_moves_NoDup b r c col (offsets : list (Z * Z)) :
  NoDup offsets →
  NoDup ('(dr, dc) ← offsets;
         let nr := r + dr in
         let nc := c + dc in
         if negb (in_bounds nr nc) then []
         else match get b nr nc with
              | None => [mkMove (r, c) (nr, nc) None]
              | Some target =>
                  if bool_decide (color target ≠ col)
                  then [mkMove (r, c) (nr, nc) None] else []
              end).
Proof.
  intros Hnd.
  assert (∀ dr dc mv,
            mv ∈ (if negb (in_bounds (r + dr) (c + dc)) then []
                  else match get b (r + dr) (c + dc) with
                       | None => [mkMove (r, c) (r + dr, c + dc) None]
                       | Some target =>
                           if bool_decide (color target ≠ col)
                           then [mkMove (r, c) (r + dr, c + dc) None] else []
                       end) →
            mv = mkMove (r, c) (r + dr, c + dc) None) as Hcell.
  { intros dr dc mv. destruct (in_bounds (r + dr) (c + dc)) eqn:Hin; simpl.
    - by intros [? _]%may_land_target.
    - by intros ?%elem_of_nil. }
  apply NoDup_bind; [| |done].
  - intros [dr1 dc1] [dr2 dc2] mv _ _ H1%Hcell H2%Hcell.
    rewrite H1 in H2. injection H2 as ??. f_equal; lia.
  - intros [dr dc] _. simpl.
    destruct (in_bounds (r + dr) (c + dc)); simpl; [|constructor].
    destruct (get b (r + dr) (c + dc)); [case_bool_decide|];
      try apply NoDup_singleton; constructor.
Qed.

Lemma slider_walk_NoDup fuel b r c col dr dc nr nc :
  dr ≠ 0 ∨ dc ≠ 0 → NoDup (slider_walk fuel b r c col dr dc nr nc).
Proof.
  intros Hd. revert nr nc. induction fuel as [|fuel IH]; intros nr nc; simpl.
  { constructor. }
  destruct (in_bounds nr nc); [|constructor].
  destruct (get b nr nc); [case_bool_decide; try apply NoDup_singleton; constructor|].
  constructor; [|apply IH].
  intros (k & Hk & Heq & _)%slider_walk_elem. injection Heq as Hr Hc. nia.
Qed.

Lemma slider_directions_NoDup k : NoDup (slider_directions k).
Proof. destruct k; apply (bool_decide_unpack _); vm_compute; exact I. Qed.

Lemma slider_moves_NoDup b r c col k :
  NoDup (_slider_moves b r c col (slider_directions k)).
Proof.
  unfold _slider_moves. apply NoDup_bind; [| |apply slider_directions_NoDup].
  - intros [dr1 dc1] [dr2 dc2] mv Hd1 Hd2
      (k1 & Hk1 & -> & _)%slider_walk_elem (k2 & Hk2 & Heq & _)%slider_walk_elem.
    injection Heq as Hr Hc.
    apply slider_directions_unit in Hd1 as (_ & ? & ?), Hd2 as (_ & ? & ?).
    assert (dr1 = -1 ∨ dr1 = 0 ∨ dr1 = 1) as Hdr1 by lia.
    assert (dc1 = -1 ∨ dc1 = 0 ∨ dc1 = 1) as Hdc1 by lia.
    assert (dr2 = -1 ∨ dr2 = 0 ∨ dr2 = 1) as Hdr2 by lia.
    assert (dc2 = -1 ∨ dc2 = 0 ∨ dc2 = 1) as Hdc2 by lia.
    destruct Hdr1 as [->|[->| ->]], Hdc1 as [->|[->| ->]],
             Hdr2 as [->|[->| ->]], Hdc2 as [->|[->| ->]];
      first [done|exfalso; lia].
  - intros [dr dc] Hd. apply slider_walk_NoDup.
    by apply slider_directions_unit in Hd as [? _].
Qed.

Lemma pawn_moves_NoDup b r c col : NoDup (_pawn_moves b r c col).
Proof.
  unfold _pawn_moves. apply list.NoDup_app. split; [|split].
  - destruct (in_bounds (r + pawn_dir col) c && _); [|constructor].
    destruct (bool_decide (r = pawn_start_row col) && _);
      [|apply NoDup_singleton].
    constructor; [|apply NoDup_singleton].
    intros Heq%list_elem_of_singleton.
    apply (f_equal end_) in Heq. rewrite end_maybe_promote in Heq. simpl in Heq.
    injection Heq as Heq. unfold pawn_dir in Heq. destruct col; simpl in Heq; lia.
  - intros mv Hf (dc & Hmv & Hdc)%list_elem_of_bind.
    assert ((end_ mv).2 = c) as Hcol.
    { destruct (in_bounds (r + pawn_dir col) c && _); [|by apply elem_of_nil in Hf].
      apply elem_of_cons in Hf as [->|Hf]; [by rewrite end_maybe_promote|].
      destruct (bool_decide (r = pawn_start_row col) && _);
        [|by apply elem_of_nil in Hf].
      by apply list_elem_of_singleton in Hf as ->. }
    destruct (in_bounds (r + pawn_dir col) (c + dc)); [|by apply elem_of_nil in Hmv].
    destruct (get b (r + pawn_dir col) (c + dc)); [|by apply elem_of_nil in Hmv].
    case_bool_decide; [|by apply elem_of_nil in Hmv].
    apply list_elem_of_singleton in Hmv as ->.
    rewrite end_maybe_promote in Hcol. simpl in Hcol.
    rewrite !elem_of_cons, elem_of_nil in Hdc. lia.
  - apply NoDup_bind.
    + intros dc1 dc2 mv _ _ H1 H2.
      destruct (in_bounds (r + pawn_dir col) (c + dc1)); [|by apply elem_of_nil in H1].
      destruct (get b (r + pawn_dir col) (c + dc1)); [|by apply elem_of_nil in H1].
      case_bool_decide; [|by apply elem_of_nil in H1].
      destruct (in_bounds (r + pawn_dir col) (c + dc2)); [|by apply elem_of_nil in H2].
      destruct (get b (r + pawn_dir col) (c + dc2)); [|by apply elem_of_nil in H2].
      case_bool_decide; [|by apply elem_of_nil in H2].
      apply list_elem_of_singleton in H1, H2. rewrite H1 in H2.
      apply (f_equal end_) in H2. rewrite !end_maybe_promote in H2. simpl in H2.
      injection H2 as ?. lia.
    + intros dc _.
      destruct (in_bounds (r + pawn_dir col) (c + dc)); [|constructor].
      destruct (get b (r + pawn_dir col) (c + dc)); [|constructor].
      case_bool_decide; [apply NoDup_singleton|constructor].
    + apply (bool_decide_unpack _). vm_compute. exact I.
Qed.

Lemma piece_moves_NoDup b r c p : NoDup (_piece_moves b r c p).
Proof.
  unfold _piece_moves. destruct (kind p).
  - apply offset_moves_NoDup. apply (bool_decide_unpack _). vm_compute. exact I.
  - apply (slider_moves_NoDup b r c (color p) Queen).
  - apply (slider_moves_NoDup b r c (color p) Rook).
  - apply (slider_moves_NoDup b r c (color p) Bishop).
  - apply offset_moves_NoDup. apply (bool_decide_unpack _). vm_compute. exact I.
  - apply pawn_moves_NoDup.
Qed.

(** Two moves of one piece to the same square are the same move. *)
Lemma piece_moves_same_end b r c p mv1 mv2 :
  in_bounds r c = true →
  mv1 ∈ _piece_moves b r c p → mv2 ∈ _piece_moves b r c p →
  end_ mv1 = end_ mv2 → mv1 = mv2.
Proof.
  intros Hin H1 H2 Hend.
  pose proof (piece_moves_lands_ok b r c p mv1 Hin H1) as (Hs1 & _).
  pose proof (piece_moves_lands_ok b r c p mv2 Hin H2) as (Hs2 & _).
  assert (promotion mv1 = promotion mv2) as Hp.
  { unfold _piece_moves in H1, H2. destruct (kind p).
    - by rewrite (king_moves_no_promotion b r c (color p) mv1 H1),
        (king_moves_no_promotion b r c (color p) mv2 H2).
    - by rewrite (slider_moves_no_promotion b r c (color p) _ mv1 H1),
        (slider_moves_no_promotion b r c (color p) _ mv2 H2).
    - by rewrite (slider_moves_no_promotion b r c (color p) _ mv1 H1),
        (slider_moves_no_promotion b r c (color p) _ mv2 H2).
    - by rewrite (slider_moves_no_promotion b r c (color p) _ mv1 H1),
        (slider_moves_no_promotion b r c (color p) _ mv2 H2).
    - by rewrite (knight_moves_no_promotion b r c (color p) mv1 H1),
        (knight_moves_no_promotion b r c (color p) mv2 H2).
    - apply pawn_moves_elem in H1 as (_ & -> & _), H2 as (_ & -> & _); [|done..].
      by rewrite Hend. }
  destruct mv1, mv2. simpl in *. by subst.
Qed.

Lemma piece_moves_start b r c p mv :
  in_bounds r c = true → mv ∈ _piece_moves b r c p → start mv = (r, c).
Proof. intros Hin Hmv. by destruct (piece_moves_lands_ok b r c p mv Hin Hmv). Qed.

(** X11.  [generate_moves] lists no move twice; two of its moves with the
    same start and end squares are the same move (the destinations of a
    piece are distinct); and the moves come grouped by start square, the
    start squares in the row-major order of the scan. *)
Theorem X11_generate_moves_distinct_and_ordered (b : Board) (col : Color) :
  wf_board b →
  NoDup (generate_moves b col)
  ∧ (∀ mv1 mv2,
       mv1 ∈ generate_moves b col → mv2 ∈ generate_moves b col →
       start mv1 = start mv2 → end_ mv1 = end_ mv2 → mv1 = mv2)
  ∧ ∀ (i j : nat) mv1 mv2,
      (i < j)%nat →
      generate_moves b col !! i = Some mv1 →
      generate_moves b col !! j = Some mv2 →
      start mv1 = start mv2 ∨ row_major (start mv1) (start mv2).
Proof.
  intros _.
  assert (∀ r c p mv, (r, c, p) ∈ all_pieces b →
            mv ∈ (if bool_decide (color p ≠ col) then []
                  else _piece_moves b r c p) →
            in_bounds r c = true ∧ get b r c = Some p
            ∧ mv ∈ _piece_moves b r c p ∧ start mv = (r, c)) as Hcell.
  { intros r c p mv [Hin Hg]%elem_of_all_pieces Hmv.
    case_bool_decide; [by apply elem_of_nil in Hmv|].
    eauto using piece_moves_start. }
  split; [|split].
  - unfold generate_moves. apply NoDup_bind; [| |apply all_pieces_NoDup].
    + intros [[r1 c1] p1] [[r2 c2] p2] mv Hx1 Hx2 H1 H2.
      destruct (Hcell _ _ _ _ Hx1 H1) as (_ & Hg1 & _ & Hs1).
      destruct (Hcell _ _ _ _ Hx2 H2) as (_ & Hg2 & _ & Hs2).
      rewrite Hs1 in Hs2. injection Hs2 as <- <-. congruence.
    + intros [[r c] p] _. case_bool_decide; [constructor|apply piece_moves_NoDup].
  - intros mv1 mv2 (r1 & c1 & p1 & Hin1 & Hg1 & _ & H1)%elem_of_generate_moves
      (r2 & c2 & p2 & Hin2 & Hg2 & _ & H2)%elem_of_generate_moves Hs Hend.
    rewrite (piece_moves_start b r1 c1 p1 mv1 Hin1 H1) in Hs.
    rewrite (piece_moves_start b r2 c2 p2 mv2 Hin2 H2) in Hs.
    injection Hs as <- <-. assert (p2 = p1) as -> by congruence.
    by eapply piece_moves_same_end.
  - unfold generate_moves.
    apply (ordered_bind (λ x y : Z * Z * Piece, row_major x.1 y.1));
      [apply all_pieces_ordered| |].
    + intros [[r c] p] Hx i j mv1 mv2 _ Hi%list_elem_of_lookup_2
        Hj%list_elem_of_lookup_2.
      destruct (Hcell _ _ _ _ Hx Hi) as (_ & _ & _ & ->).
      destruct (Hcell _ _ _ _ Hx Hj) as (_ & _ & _ & ->). by left.
    + intros [[r1 c1] p1] [[r2 c2] p2] mv1 mv2 Hx1 Hx2 Hlt H1 H2. right.
      destruct (Hcell _ _ _ _ Hx1 H1) as (_ & _ & _ & ->).
      by destruct (Hcell _ _ _ _ Hx2 H2) as (_ & _ & _ & ->).
Qed.

Lemma X11_generate_moves_distinct_and_ordered_witness :
  NoDup (generate_moves initial_board White)
  ∧ (∀ mv1 mv2,
       mv1 ∈ generate_moves initial_board White →
       mv2 ∈ generate_moves initial_board White →
       start mv1 = start mv2 → end_ mv1 = end_ mv2 → mv1 = mv2)
  ∧ ∀ (i j : nat) mv1 mv2,
      (i < j)%nat →
      generate_moves initial_board White !! i = Some mv1 →
      generate_moves initial_board White !! j = Some mv2 →
      start mv1 = start mv2 ∨ row_major (start mv1) (start mv2).
Proof.
  apply (X11_generate_moves_distinct_and_ordered initial_board White).
  split; [reflexivity|repeat constructor].
Defined.

(** ** The attack oracle as a whole *)

Lemma attack_from_attacks b p rr cc r c :
  in_bounds r c = true → in_bounds rr cc = true →
  attack_from b r c (color p) rr cc p = true ↔ attacks b p rr cc r c.
Proof.
  intros Hs Hp.
  assert (∀ k, kind p = k → is_slider k →
            attack_from b r c (color p) rr cc p = true
            ↔ ∃ dr dc, (dr, dc) ∈ slider_directions k
                       ∧ ray_reaches b rr cc dr dc r c) as Hslider.
  { intros k Hk Hsl.
    assert (attack_from b r c (color p) rr cc p
            = existsb (λ '(dr, dc),
                         attack_walk WALK_FUEL b r c dr dc (rr + dr) (cc + dc))
                      (slider_directions k)) as ->.
    { unfold attack_from. rewrite Hk. by destruct Hsl as [->|[->| ->]]. }
    rewrite existsb_elem_of. split.
    - intros ([dr dc] & Hd & Hw). exists dr, dc. split; [done|].
      apply slider_directions_unit in Hd as [Hd _]. by apply slider_attack_ray.
    - intros (dr & dc & Hd & Hray). exists (dr, dc). split; [done|].
      apply slider_directions_unit in Hd as [Hd _]. by apply slider_attack_ray. }
  unfold attacks. destruct (kind p) eqn:Hk.
  - unfold attack_from. rewrite Hk, existsb_elem_of. split.
    + intros ([dr dc] & Hd%king_offsets_iff & [Hr Hc]%bool_decide_eq_true). lia.
    + intros Hgeo. exists (r - rr, c - cc). split; [apply king_offsets_iff; lia|].
      apply bool_decide_eq_true. lia.
  - by apply (Hslider Queen); [|right; right].
  - by apply (Hslider Rook); [|right; left].
  - by apply (Hslider Bishop); [|left].
  - unfold attack_from. rewrite Hk, existsb_elem_of. split.
    + intros ([dr dc] & Hd%knight_offsets_iff & Hw).
      apply andb_true_iff in Hw as [[Hr Hc]%bool_decide_eq_true _]. lia.
    + intros Hgeo. exists (r - rr, c - cc).
      split; [apply knight_offsets_iff; lia|].
      rewrite Hs, andb_true_r. apply bool_decide_eq_true. lia.
  - unfold attack_from, pawn_dir. rewrite Hk, existsb_elem_of. split.
    + intros (dc & Hd & Hw).
      apply andb_true_iff in Hw as [[Hr Hc]%bool_decide_eq_true _].
      rewrite !elem_of_cons, elem_of_nil in Hd. lia.
    + intros [Hr Hc]. exists (c - cc). split.
      * rewrite !elem_of_cons. lia.
      * replace (cc + (c - cc)) with c by lia. rewrite <-Hr, Hs, andb_true_r.
        by apply bool_decide_eq_true.
Qed.

Lemma is_square_attacked_attacks b r c col :
  in_bounds r c = true →
  is_square_attacked b r c col = true ↔
  ∃ rr cc p, get b rr cc = Some p ∧ color p = col ∧ attacks b p rr cc r c.
Proof.
  intros Hs. rewrite is_square_attacked_true. split.
  - intros (rr & cc & p & Hin & Hg & <- & Hat). exists rr, cc, p.
    split; [done|]. split; [done|]. by apply attack_from_attacks.
  - intros (rr & cc & p & Hg & <- & Hat). exists rr, cc, p.
    assert (in_bounds rr cc = true) by (by eapply get_Some_in_bounds).
    split; [done|]. split; [done|]. split; [done|]. by apply attack_from_attacks.
Qed.

(** X12.  For a square of the board, [is_square_attacked] answers [True]
    exactly when some piece of [by_color] attacks it: a pawn from one row
    behind (row + 1 for White, row - 1 for Black) and one column aside, a
    knight by its jump, a king from a neighbouring square, a bishop, rook or
    queen along an unobstructed ray. *)
Theorem X12_is_square_attacked_iff_some_piece_attacks (b : Board) (r c : Z)
    (col : Color) :
  wf_board b →
  in_bounds r c = true →
  is_square_attacked b r c col = true ↔
  ∃ rr cc p, get b rr cc = Some p ∧ color p = col ∧ attacks b p rr cc r c.
Proof. intros _. apply is_square_attacked_attacks. Qed.

Lemma X12_is_square_attacked_iff_some_piece_attacks_witness :
  is_square_attacked initial_board 5 2 White = true ↔
  ∃ rr cc p, get initial_board rr cc = Some p ∧ color p = White
             ∧ attacks initial_board p rr cc 5 2.
Proof.
  apply (X12_is_square_attacked_iff_some_piece_attacks initial_board 5 2 White).
  - split; [reflexivity|repeat constructor].
  - reflexivity.
Defined.

(** A move of a piece other than a pawn, and a capture by a pawn, go to a
    square the piece attacks. *)
Lemma piece_move_attacks b r c p mv :
  in_bounds r c = true →
  mv ∈ _piece_moves b r c p →
  kind p ≠ Pawn ∨ get b (end_ mv).1 (end_ mv).2 ≠ None →
  attacks b p r c (end_ mv).1 (end_ mv).2.
Proof.
  intros Hin Hmv Hcap. unfold attacks, _piece_moves in *.
  destruct (kind p) eqn:Hk.
  - apply offset_moves_elem in Hmv as (_ & _ & _ & Hd%king_offsets_iff). lia.
  - by apply (slider_moves_elem b r c (color p) Queen) in Hmv as (_ & _ & _ & ?).
  - by apply (slider_moves_elem b r c (color p) Rook) in Hmv as (_ & _ & _ & ?).
  - by apply (slider_moves_elem b r c (color p) Bishop) in Hmv as (_ & _ & _ & ?).
  - apply offset_moves_elem in Hmv as (_ & _ & _ & Hd%knight_offsets_iff). lia.
  - destruct Hcap as [?|Hocc]; [done|].
    apply pawn_moves_elem in Hmv as (_ & _ & Hcases); [|done].
    unfold pawn_dir in Hcases.
    destruct Hcases as [(Heq & _ & Hg)|[(Heq & _ & _ & Hg)
                                       |(dc & Hdc & Heq & _)]];
      rewrite Heq in *; simpl in *; [done|done|]. lia.
Qed.

(** X13.  The rules and the oracle agree on captures: when a generated move
    ends on an occupied square, or is the move of a piece other than a pawn,
    [is_square_attacked] reports its end square as attacked by the mover's
    colour. *)
Theorem X13_generated_captures_are_attacks (b : Board) (col : Color) (mv : Move) :
  wf_board b →
  mv ∈ generate_moves b col →
  (get b (end_ mv).1 (end_ mv).2 ≠ None
   ∨ ∃ p, get b (start mv).1 (start mv).2 = Some p ∧ kind p ≠ Pawn) →
  is_square_attacked b (end_ mv).1 (end_ mv).2 col = true.
Proof.
  intros _ Hmv Hcap.
  destruct (generated_move_facts b col mv Hmv)
    as (p & Hp & Hc & Hs & He & _ & _ & Hpm).
  apply is_square_attacked_attacks; [done|].
  exists (start mv).1, (start mv).2, p. split; [done|]. split; [done|].
  apply piece_move_attacks; [done|done|].
  destruct Hcap as [?|(p' & Hp' & ?)]; [by right|left]. congruence.
Qed.

Lemma X13_generated_captures_are_attacks_witness :
  let b := rook_and_pawn_board in
  let mv := mkMove (4, 0) (4, 3) None in
  is_square_attacked b (end_ mv).1 (end_ mv).2 White = true.
Proof.
  apply (X13_generated_captures_are_attacks rook_and_pawn_board White
           (mkMove (4, 0) (4, 3) None)).
  - split; [reflexivity|repeat constructor].
  - apply (bool_decide_unpack _). vm_compute. exact I.
  - left. discriminate.
Defined.

(** A ray to [(r, c)] looks only at the squares before [(r, c)]. *)
Lemma ray_reaches_agree b b' rr cc dr dc r c :
  (dr ≠ 0 ∨ dc ≠ 0) →
  (∀ r' c', (r', c') ≠ (r, c) → get b' r' c' = get b r' c') →
  ray_reaches b rr cc dr dc r c → ray_reaches b' rr cc dr dc r c.
Proof.
  intros Hd Hag (k & Hk & Hr & Hc & Hfree). exists k.
  split; [done|]. split; [done|]. split; [done|].
  intros j Hj. destruct (Hfree j Hj) as [Hin Hg]. split; [done|].
  rewrite Hag; [done|]. intros [= Hr' Hc']. nia.
Qed.

Lemma attacks_agree b b' p rr cc r c :
  (∀ r' c', (r', c') ≠ (r, c) → get b' r' c' = get b r' c') →
  attacks b p rr cc r c → attacks b' p rr cc r c.
Proof.
  intros Hag. unfold attacks.
  assert (∀ k, (∃ dr dc, (dr, dc) ∈ slider_directions k
                         ∧ ray_reaches b rr cc dr dc r c) →
               ∃ dr dc, (dr, dc) ∈ slider_directions k
                        ∧ ray_reaches b' rr cc dr dc r c) as Hslider.
  { intros k (dr & dc & Hd & Hray). exists dr, dc. split; [done|].
    apply slider_directions_unit in Hd as [Hd _].
    by eapply ray_reaches_agree. }
  destruct (kind p); try done.
  - apply (Hslider Queen).
  - apply (Hslider Rook).
  - apply (Hslider Bishop).
Qed.

Lemma attacks_other_square b p rr cc r c :
  attacks b p rr cc r c → (rr, cc) ≠ (r, c).
Proof.
  unfold attacks.
  assert (∀ k, (∃ dr dc, (dr, dc) ∈ slider_directions k
                         ∧ ray_reaches b rr cc dr dc r c) →
               (rr, cc) ≠ (r, c)) as Hslider.
  { intros k (dr & dc & Hd & (j & Hj & Hr & Hc & _)) [= -> ->].
    apply slider_directions_unit in Hd as [Hd _]. nia. }
  destruct (kind p).
  - intros (_ & _ & ?) [= -> ->]. lia.
  - apply (Hslider Queen).
  - apply (Hslider Rook).
  - apply (Hslider Bishop).
  - intros ? [= -> ->]. lia.
  - intros [_ ?] [= -> ->]. lia.
Qed.

(** X14.  What [is_square_attacked] answers for a square of the board does
    not depend on what stands on that square: overwriting its occupant with
    [set] leaves the answer as it was. *)
Theorem X14_is_square_attacked_ignores_target (b : Board) (r c : Z)
    (piece : option Piece) (col : Color) :
  wf_board b →
  in_bounds r c = true →
  ∃ b', set b r c piece = Some b'
        ∧ is_square_attacked b' r c col = is_square_attacked b r c col.
Proof.
  intros Hwf Hin.
  destruct (set_in_bounds b r c piece Hwf Hin) as (b' & Hset & _ & _ & Hget).
  exists b'. split; [done|].
  assert (∀ r' c', (r', c') ≠ (r, c) → get b' r' c' = get b r' c') as Hag.
  { intros r' c' Hne. rewrite Hget.
    by rewrite bool_decide_eq_false_2 by (intros [-> ->]; done). }
  apply eq_true_iff_eq. rewrite !is_square_attacked_attacks by done.
  split; intros (rr & cc & p & Hg & Hc & Hat); exists rr, cc, p;
    pose proof (attacks_other_square _ _ _ _ _ _ Hat) as Hne.
  - rewrite Hag in Hg by done. split; [done|]. split; [done|].
    eapply attacks_agree; [|done]. intros r' c' Hne'. symmetry. by apply Hag.
  - rewrite Hag by done. split; [done|]. split; [done|].
    by eapply attacks_agree.
Qed.

Lemma X14_is_square_attacked_ignores_target_witness :
  ∃ b', set initial_board 5 2 (Some (mkPiece Black Queen)) = Some b'
        ∧ is_square_attacked b' 5 2 White
          = is_square_attacked initial_board 5 2 White.
Proof.
  apply (X14_is_square_attacked_ignores_target initial_board 5 2
           (Some (mkPiece Black Queen)) White).
  - split; [reflexivity|repeat constructor].
  - reflexivity.
Defined.

(** ** The game controller *)

Lemma filter_none {A} (P : A → Prop) `{∀ x, Decision (P x)} (l : list A) :
  (∀ x, x ∈ l → ¬ P x) → filter P l = [].
Proof.
  induction l as [|x l IH]; intros Hl; [done|].
  rewrite filter_cons_False by (apply Hl; left).
  apply IH. intros y Hy. apply Hl. by right.
Qed.

Lemma filter_all {A} (P : A → Prop) `{∀ x, Decision (P x)} (l : list A) :
  (∀ x, x ∈ l → P x) → filter P l = l.
Proof.
  induction l as [|x l IH]; intros Hl; [done|].
  rewrite filter_cons_True by (apply Hl; left).
  f_equal. apply IH. intros y Hy. apply Hl. by right.
Qed.

Lemma filter_bind_split {A B} (P : B → Prop) `{∀ x, Decision (P x)}
    (f : A → list B) (l1 l2 : list A) (x : A) (k : list B) :
  (∀ y, y ∈ l1 ++ l2 → ∀ z, z ∈ f y → ¬ P z) →
  (∀ z, z ∈ f x → P z) →
  f x = k →
  filter P ((l1 ++ x :: l2) ≫= f) = k.
Proof.
  intros Hno Hyes <-. rewrite bind_app, bind_cons, !list.filter_app.
  rewrite (filter_none P (l1 ≫= f)), (filter_none P (l2 ≫= f)),
    (filter_all P (f x)), app_nil_r; try done.
  - intros z (y & Hz & Hy)%list_elem_of_bind.
    apply (Hno y); [|done]. apply elem_of_app. by right.
  - intros z (y & Hz & Hy)%list_elem_of_bind.
    apply (Hno y); [|done]. apply elem_of_app. by left.
Qed.

Lemma elem_of_moves_from b col r c mv :
  mv ∈ moves_from b col r c ↔ mv ∈ generate_moves b col ∧ start mv = (r, c).
Proof. unfold moves_from. rewrite list_elem_of_filter. tauto. Qed.

(** The moves listed for a selected square are the moves of the piece on
    it, in the order [_piece_moves] gives them. *)
Lemma moves_from_piece b col r c p :
  get b r c = Some p → color p = col →
  moves_from b col r c = _piece_moves b r c p.
Proof.
  intros Hg Hc.
  assert (in_bounds r c = true) as Hin by (by eapply get_Some_in_bounds).
  assert ((r, c, p) ∈ all_pieces b) as Hel by (by apply elem_of_all_pieces).
  pose proof (all_pieces_NoDup b) as Hnd.
  assert (∀ x, x ∈ all_pieces b → x ≠ (r, c, p)
               → x.1 ≠ (r, c)) as Hother.
  { intros [[r' c'] p'] [Hin' Hg']%elem_of_all_pieces Hne [= -> ->].
    congruence. }
  assert (∀ x mv, x ∈ all_pieces b →
            mv ∈ (let '(r', c', p') := x in
                  if bool_decide (color p' ≠ col) then []
                  else _piece_moves b r' c' p') →
            start mv = x.1) as Hstart.
  { intros [[r' c'] p'] mv [Hin' Hg']%elem_of_all_pieces Hmv.
    case_bool_decide; [by apply elem_of_nil in Hmv|].
    by apply (piece_moves_start b r' c' p'). }
  apply list_elem_of_split in Hel as (l1 & l2 & Heq).
  unfold moves_from, generate_moves. rewrite Heq in Hnd, Hother, Hstart |- *.
  apply list.NoDup_app in Hnd as (_ & Hdisj & Hnd2).
  apply list.NoDup_cons in Hnd2 as [Hnotin _].
  apply filter_bind_split.
  - intros y Hy mv Hmv Hs.
    assert (y ∈ l1 ++ (r, c, p) :: l2) as Hy'.
    { apply elem_of_app in Hy as [?|?]; apply elem_of_app;
        [by left|right; by right]. }
    rewrite (Hstart y mv Hy' Hmv) in Hs.
    apply (Hother y Hy'); [|done]. intros ->.
    apply elem_of_app in Hy as [Hy|Hy]; [|done].
    apply (Hdisj _ Hy). left.
  - intros mv Hmv. apply (Hstart (r, c, p) mv); [|done].
    apply elem_of_app. right. left.
  - by rewrite bool_decide_eq_false_2 by (by intros ?).
Qed.

Lemma first_move_to_Some l r c mv :
  first_move_to l r c = Some mv → mv ∈ l ∧ end_ mv = (r, c).
Proof.
  induction l as [|m l IH]; [done|]. simpl. case_bool_decide as Hm.
  - intros [= <-]. split; [left|done].
  - intros [? ?]%IH. split; [by right|done].
Qed.

Lemma first_move_to_None l r c :
  first_move_to l r c = None → ∀ mv, mv ∈ l → end_ mv ≠ (r, c).
Proof.
  induction l as [|m l IH]; simpl; [by intros _ mv ?%elem_of_nil|].
  case_bool_decide as Hm; [done|].
  intros Hl mv [->|Hmv]%elem_of_cons; [done|by apply IH].
Qed.

Lemma other_ne col : other col ≠ col.
Proof. by destruct col. Qed.

Lemma generated_played b mv :
  wf_board b → mv ∈ generate_moves b (to_move b) →
  ∃ b', move_piece b mv = Some b' ∧ wf_board b'
        ∧ to_move b' = other (to_move b) ∧ played b b'.
Proof.
  intros Hwf Hmv. destruct (generated_in_bounds b _ mv Hmv) as [Hs He].
  destruct (move_piece_in_bounds b mv Hwf Hs He) as (b' & Hmp & Hwf' & Htm & _).
  exists b'. split; [done|]. split; [done|]. split; [done|]. by exists mv.
Qed.

Lemma plies_one b b' : played b b' → plies b b'.
Proof. intros Hp. eapply plies_step; [done|constructor]. Qed.

Lemma plies_trans b1 b2 b3 : plies b1 b2 → plies b2 b3 → plies b1 b3.
Proof.
  induction 1 as [|b1 b2 b2' Hp _ IH]; [done|].
  intros H3. eapply plies_step; [done|by apply IH].
Qed.

Lemma plies_stuck b b' :
  generate_moves b (to_move b) = [] → plies b b' → b' = b.
Proof.
  intros Hnone Hp. destruct Hp as [|b1 b2 b3 (mv & Hmv & _) _]; [done|].
  rewrite Hnone in Hmv. by apply elem_of_nil in Hmv.
Qed.

(** What one click does, under the invariant of the controller. *)
Lemma handle_click_spec g pos :
  game_inv g →
  ∃ g', _handle_click g pos = Some g'
        ∧ game_inv g'
        ∧ human_color g' = human_color g
        ∧ ai_color g' = ai_color g
        ∧ running g' = running g
        ∧ (game_board g' = game_board g
           ∨ (to_move (game_board g) = human_color g
              ∧ played (game_board g) (game_board g')
              ∧ to_move (game_board g') = ai_color g
              ∧ selected g' = None)).
Proof.
  intros Hinv. pose proof Hinv as (Hwf & Hai & Hsel). unfold _handle_click.
  case_bool_decide as Hturn.
  { exists g. do 5 (split; [done|]). by left. }
  set (c := pos.1 `div` TILE_SIZE). set (r := pos.2 `div` TILE_SIZE).
  assert (∀ p, get (game_board g) r c = Some p → color p = human_color g →
            game_inv (mkGame (game_board g) (human_color g) (ai_color g)
                        (Some (r, c))
                        (moves_from (game_board g) (human_color g) r c)
                        (running g))) as Hselect.
  { intros p Hg Hc. split; [done|]. split; [done|]. simpl.
    split; [done|]. split; [by exists p|done]. }
  assert (game_inv (mkGame (game_board g) (human_color g) (ai_color g)
                      None [] (running g))) as Hclear.
  { split; [done|]. by split. }
  destruct (selected g) as [[sr sc]|] eqn:Hs.
  - destruct Hsel as (_ & _ & Hlegal).
    destruct (first_move_to _ r c) as [mv|] eqn:Hfind.
    + apply first_move_to_Some in Hfind as [Hmv Hend]. rewrite Hlegal in Hmv.
      apply elem_of_moves_from in Hmv as [Hgen Hstart].
      rewrite <-Hturn in Hgen.
      destruct (generated_played _ mv Hwf Hgen) as (b' & Hmp & Hwf' & Htm & Hpl).
      rewrite Hmp. simpl. eexists. split; [done|]. simpl.
      split; [split; [done|]; by split|]. do 3 (split; [done|]).
      right. split; [done|]. split; [done|]. split; [|done].
      by rewrite Htm, Hturn, Hai.
    + destruct (get (game_board g) r c) as [q|] eqn:Hq;
        [case_bool_decide as Hqc|].
      * eexists. split; [done|]. split; [by eapply Hselect|]. simpl.
        do 3 (split; [done|]). by left.
      * eexists. split; [done|]. split; [done|]. simpl.
        do 3 (split; [done|]). by left.
      * eexists. split; [done|]. split; [done|]. simpl.
        do 3 (split; [done|]). by left.
  - destruct (get (game_board g) r c) as [q|] eqn:Hq;
      [case_bool_decide as Hqc|].
    + eexists. split; [done|]. split; [by eapply Hselect|]. simpl.
      do 3 (split; [done|]). by left.
    + exists g. do 5 (split; [done|]). by left.
    + exists g. do 5 (split; [done|]). by left.
Qed.

(** What the AI part of a round does, under the invariant. *)
Lemma ai_turn_spec g :
  game_inv g →
  ∃ g', ai_turn g = Some g'
        ∧ game_inv g'
        ∧ human_color g' = human_color g
        ∧ ai_color g' = ai_color g
        ∧ running g' = running g
        ∧ (to_move (game_board g) = human_color g → g' = g)
        ∧ (to_move (game_board g) = ai_color g →
           selected g' = None
           ∧ ((generate_moves (game_board g) (ai_color g) = []
               ∧ game_board g' = game_board g)
              ∨ (∃ mv, choose_move (ai_color g) (game_board g) = Some (Some mv)
                       ∧ move_piece (game_board g) mv = Some (game_board g')
                       ∧ played (game_board g) (game_board g')
                       ∧ to_move (game_board g') = human_color g))).
Proof.
  intros Hinv. pose proof Hinv as (Hwf & Hai & Hsel). unfold ai_turn.
  case_bool_decide as Hturn.
  - destruct (choose_move_result (game_board g) (ai_color g) Hwf)
      as (res & -> & Hnone & Hsome).
    simpl. destruct res as [mv|].
    + pose proof (Hsome mv eq_refl) as Hgen. rewrite <-Hturn in Hgen.
      destruct (generated_played _ mv Hwf Hgen) as (b' & Hmp & Hwf' & Htm & Hpl).
      rewrite Hmp. simpl. eexists. split; [done|]. simpl.
      split; [split; [done|]; by split|]. do 3 (split; [done|]).
      split.
      { intros Hh. rewrite Hturn, Hai in Hh. by apply other_ne in Hh. }
      intros _. split; [done|]. right. exists mv.
      do 3 (split; [done|]). rewrite Htm, Hturn, Hai. by destruct (human_color g).
    + simpl. eexists. split; [done|]. simpl.
      split; [split; [done|]; by split|]. do 3 (split; [done|]).
      split.
      { intros Hh. rewrite Hturn, Hai in Hh. by apply other_ne in Hh. }
      intros _. split; [done|]. left. split; [|done]. by apply Hnone.
  - exists g. do 5 (split; [done|]). by split.
Qed.

(** What the events of one frame do: at most one ply, by the human. *)
Lemma handle_events_spec evs g :
  game_inv g →
  ∃ g', _handle_events evs g = Some g'
        ∧ game_inv g'
        ∧ human_color g' = human_color g
        ∧ ai_color g' = ai_color g
        ∧ (running g' = true → running g = true)
        ∧ (game_board g' = game_board g
           ∨ (to_move (game_board g) = human_color g
              ∧ played (game_board g) (game_board g')
              ∧ to_move (game_board g') = ai_color g
              ∧ selected g' = None)).
Proof.
  unfold _handle_events. revert g.
  induction evs as [|ev evs IH]; intros g Hinv.
  { exists g. do 5 (split; [done|]). by left. }
  assert (∃ g1, handle_event g ev = Some g1
            ∧ game_inv g1
            ∧ human_color g1 = human_color g
            ∧ ai_color g1 = ai_color g
            ∧ (running g1 = true → running g = true)
            ∧ (game_board g1 = game_board g
               ∨ (to_move (game_board g) = human_color g
                  ∧ played (game_board g) (game_board g1)
                  ∧ to_move (game_board g1) = ai_color g
                  ∧ selected g1 = None))) as Hev.
  { destruct ev as [|button pos|]; simpl.
    - eexists. split; [done|]. simpl. do 3 (split; [done|]).
      split; [done|]. by left.
    - case_bool_decide.
      + destruct (handle_click_spec g pos Hinv)
          as (g1 & Hg1 & Hinv1 & Hh & Ha & Hr & Hb).
        exists g1. do 4 (split; [done|]). split; [by rewrite Hr|done].
      + exists g. do 5 (split; [done|]). by left.
    - exists g. do 5 (split; [done|]). by left. }
  destruct Hev as (g1 & Hg1 & Hinv1 & Hh1 & Ha1 & Hr1 & Hb1).
  destruct (IH g1 Hinv1) as (g' & Hg' & Hinv' & Hh' & Ha' & Hr' & Hb').
  exists g'. simpl. rewrite Hg1. simpl. split; [done|]. split; [done|].
  split; [congruence|]. split; [congruence|]. split; [auto|].
  pose proof Hinv as (_ & Hai & _).
  destruct Hb1 as [Hb1|(Ht & Hp & Htm & Hs)].
  - by rewrite Hb1, Ha1, Hh1 in Hb'.
  - right. destruct Hb' as [Hb'|(Ht' & _)].
    + rewrite Hb'. split; [done|]. split; [done|]. split; [done|].
      destruct Hinv' as (_ & _ & Hsel').
      destruct (selected g') as [[r c]|]; [|done].
      destruct Hsel' as (Ht' & _). rewrite Hb', Htm, Hh', Hh1, Hai in Ht'.
      by apply other_ne in Ht'.
    + rewrite Htm, Hh1, Hai in Ht'. by apply other_ne in Ht'.
Qed.

Lemma not_human_is_ai (col human : Color) : col ≠ human → col = other human.
Proof. by destruct col, human. Qed.

(** What one round of the loop of [run] does. *)
Lemma frame_spec evs g :
  game_inv g →
  ∃ g', frame evs g = Some g'
        ∧ game_inv g'
        ∧ human_color g' = human_color g
        ∧ ai_color g' = ai_color g
        ∧ (running g' = true → running g = true)
        ∧ (to_move (game_board g') = human_color g
           ∨ (to_move (game_board g') = ai_color g
              ∧ generate_moves (game_board g') (ai_color g) = []))
        ∧ (game_board g' = game_board g
           ∨ played (game_board g) (game_board g')
           ∨ ∃ b1, played (game_board g) b1 ∧ played b1 (game_board g')).
Proof.
  intros Hinv. unfold frame.
  destruct (handle_events_spec evs g Hinv)
    as (g1 & -> & Hinv1 & Hh1 & Ha1 & Hr1 & Hb1).
  simpl.
  destruct (ai_turn_spec g1 Hinv1)
    as (g' & -> & Hinv' & Hh' & Ha' & Hr' & Hhuman & Hai).
  exists g'. split; [done|]. split; [done|].
  split; [congruence|]. split; [congruence|].
  split; [intros ?; apply Hr1; congruence|].
  pose proof Hinv1 as (_ & Hother & _).
  destruct (decide (to_move (game_board g1) = human_color g1)) as [Ht|Ht].
  - rewrite (Hhuman Ht). split; [left; congruence|].
    destruct Hb1 as [?|(_ & ? & _)]; [by left|by right; left].
  - apply not_human_is_ai in Ht. rewrite <-Hother in Ht.
    destruct (Hai Ht) as [_ [[Hnone Hsame]|(mv & _ & _ & Hpl & Htm)]].
    + rewrite Hsame. split; [right; split; congruence|].
      destruct Hb1 as [?|(_ & ? & _)]; [by left|by right; left].
    + split; [left; congruence|].
      destruct Hb1 as [Hb1|(_ & ? & _)].
      * right. left. by rewrite <-Hb1.
      * right. right. by exists (game_board g1).
Qed.

(** [run] ends in [SystemExit] or is still going, never in another
    exception; the board it has reached comes from the board before by plies
    of the side to move. *)
Lemma run_spec frames g :
  game_inv g →
  ∃ g', (run frames g = SystemExit g' ∧ running g' = false
         ∨ run frames g = StillRunning g' ∧ running g' = true)
        ∧ game_inv g'
        ∧ human_color g' = human_color g
        ∧ ai_color g' = ai_color g
        ∧ plies (game_board g) (game_board g').
Proof.
  revert g. induction frames as [|evs frames IH]; intros g Hinv; simpl.
  { exists g. destruct (running g) eqn:Hrun;
      (split; [by auto|]); do 3 (split; [done|]); constructor. }
  destruct (running g) eqn:Hrun.
  - destruct (frame_spec evs g Hinv)
      as (g1 & -> & Hinv1 & Hh1 & Ha1 & _ & _ & Hb1).
    destruct (IH g1 Hinv1) as (g' & Hout & Hinv' & Hh' & Ha' & Hp').
    exists g'. split; [done|]. split; [done|].
    split; [congruence|]. split; [congruence|].
    destruct Hb1 as [Hb1|[Hb1|(b1 & H1 & H2)]].
    + by rewrite <-Hb1.
    + by eapply plies_step.
    + eapply plies_step; [done|]. by eapply plies_step.
  - exists g. split; [by left|]. do 3 (split; [done|]). constructor.
Qed.

Lemma handle_click_running g pos g' :
  _handle_click g pos = Some g' → running g' = running g.
Proof.
  unfold _handle_click. case_bool_decide; [by intros [= <-]|].
  destruct (selected g).
  - destruct (first_move_to _ _ _).
    + destruct (move_piece _ _); simpl; [|done]. by intros [= <-].
    + destruct (get _ _ _); [case_bool_decide|]; by intros [= <-].
  - destruct (get _ _ _); [case_bool_decide|]; by intros [= <-].
Qed.

Lemma ai_turn_running g g' : ai_turn g = Some g' → running g' = running g.
Proof.
  unfold ai_turn. case_bool_decide; [|by intros [= <-]].
  destruct (choose_move _ _) as [[mv|]|]; simpl; [| |done].
  - destruct (move_piece _ _); simpl; [|done]. by intros [= <-].
  - by intros [= <-].
Qed.

Lemma handle_events_off evs g g' :
  _handle_events evs g = Some g' → running g = false → running g' = false.
Proof.
  unfold _handle_events. revert g.
  induction evs as [|ev evs IH]; intros g; simpl; [by intros [= <-]|].
  destruct (handle_event g ev) as [g1|] eqn:Hev; simpl; [|done].
  intros Hrest Hoff. apply (IH g1 Hrest).
  destruct ev as [|button pos|]; simpl in Hev.
  - by injection Hev as <-.
  - case_bool_decide; [|congruence].
    by rewrite (handle_click_running g pos g1 Hev).
  - congruence.
Qed.

Lemma handle_events_quit evs g g' :
  QUIT ∈ evs → _handle_events evs g = Some g' → running g' = false.
Proof.
  unfold _handle_events. revert g.
  induction evs as [|ev evs IH]; intros g Hq; [by apply elem_of_nil in Hq|].
  simpl. destruct (handle_event g ev) as [g1|] eqn:Hev; simpl; [|done].
  intros Hrest. apply elem_of_cons in Hq as [<-|Hq].
  - injection Hev as <-. by apply (handle_events_off evs _ g' Hrest).
  - by apply (IH g1).
Qed.

(** Two generated moves between the same two squares are one move. *)
Lemma generate_moves_same_squares b col mv1 mv2 :
  mv1 ∈ generate_moves b col → mv2 ∈ generate_moves b col →
  start mv1 = start mv2 → end_ mv1 = end_ mv2 → mv1 = mv2.
Proof.
  intros (r1 & c1 & p1 & Hin1 & Hg1 & _ & H1)%elem_of_generate_moves
    (r2 & c2 & p2 & Hin2 & Hg2 & _ & H2)%elem_of_generate_moves Hs Hend.
  rewrite (piece_moves_start b r1 c1 p1 mv1 Hin1 H1) in Hs.
  rewrite (piece_moves_start b r2 c2 p2 mv2 Hin2 H2) in Hs.
  injection Hs as <- <-. assert (p2 = p1) as -> by congruence.
  by eapply piece_moves_same_end.
Qed.

Lemma tile_of_pixel (x q : Z) :
  TILE_SIZE * q ≤ x < TILE_SIZE * (q + 1) → x `div` TILE_SIZE = q.
Proof.
  change TILE_SIZE with 80. intros Hx. symmetry.
  apply (Z.div_unique x 80 q (x - 80 * q)); lia.
Qed.

(** X15.  Between events the controller keeps its invariant: the board is
    8x8, a selection is a square with a piece of the human made on the
    human's turn, and [legal_moves_from_selected] is the list generated on the
    current board from the selected square.  Under it [_handle_click] raises
    nothing, whatever the pixel position, and either leaves the board as it is
    or, on the human's turn, applies one generated move and drops the
    selection. *)
Theorem X15_handle_click_keeps_invariant (g : Game) (pos : Z * Z) :
  game_inv g →
  ∃ g', _handle_click g pos = Some g'
        ∧ game_inv g'
        ∧ human_color g' = human_color g
        ∧ ai_color g' = ai_color g
        ∧ running g' = running g
        ∧ (game_board g' = game_board g
           ∨ (to_move (game_board g) = human_color g
              ∧ played (game_board g) (game_board g')
              ∧ to_move (game_board g') = ai_color g
              ∧ selected g' = None)).
Proof. apply handle_click_spec. Qed.

Lemma X15_handle_click_keeps_invariant_witness :
  ∃ g', _handle_click new_game (330, 500) = Some g'
        ∧ game_inv g'
        ∧ human_color g' = human_color new_game
        ∧ ai_color g' = ai_color new_game
        ∧ running g' = running new_game
        ∧ (game_board g' = game_board new_game
           ∨ (to_move (game_board new_game) = human_color new_game
              ∧ played (game_board new_game) (game_board g')
              ∧ to_move (game_board g') = ai_color new_game
              ∧ selected g' = None)).
Proof.
  apply (X15_handle_click_keeps_invariant new_game (330, 500)).
  split; [split; [reflexivity|repeat constructor]|].
  split; reflexivity.
Defined.

(** X16.  On the human's turn, with nothing selected, a click on a pixel
    of the tile in column [c] and row [r] (80 pixels a side, [x] giving the
    column and [y] the row) that holds a piece of the human selects that
    square, and the moves listed for it are the moves [_piece_moves] gives
    for that piece, in the same order. *)
Theorem X16_click_selects_own_piece (g : Game) (x y r c : Z) (p : Piece) :
  wf_board (game_board g) →
  to_move (game_board g) = human_color g →
  selected g = None →
  TILE_SIZE * c ≤ x < TILE_SIZE * (c + 1) →
  TILE_SIZE * r ≤ y < TILE_SIZE * (r + 1) →
  get (game_board g) r c = Some p →
  color p = human_color g →
  _handle_click g (x, y)
  = Some (mkGame (game_board g) (human_color g) (ai_color g) (Some (r, c))
            (_piece_moves (game_board g) r c p) (running g)).
Proof.
  intros _ Hturn Hsel Hx Hy Hg Hc. unfold _handle_click. simpl.
  rewrite (tile_of_pixel x c Hx), (tile_of_pixel y r Hy).
  rewrite bool_decide_eq_false_2 by (by intros ?).
  rewrite Hsel, Hg, (bool_decide_eq_true_2 _ Hc).
  by rewrite (moves_from_piece _ _ r c p Hg Hc).
Qed.

Lemma X16_click_selects_own_piece_witness :
  _handle_click new_game (330, 500)
  = Some (mkGame (game_board new_game) (human_color new_game)
            (ai_color new_game) (Some (6, 4))
            (_piece_moves (game_board new_game) 6 4 (mkPiece White Pawn))
            (running new_game)).
Proof.
  apply (X16_click_selects_own_piece new_game 330 500 6 4 (mkPiece White Pawn)).
  - split; [reflexivity|repeat constructor].
  - reflexivity.
  - reflexivity.
  - change TILE_SIZE with 80. lia.
  - change TILE_SIZE with 80. lia.
  - reflexivity.
  - reflexivity.
Defined.

(** X17.  With a square selected, a click on a pixel of the tile where a
    generated move from that square ends plays exactly that move: the board
    becomes what [move_piece] makes of it (which does not raise), and the
    selection and its list are cleared. *)
Theorem X17_click_on_destination_plays_move (g : Game) (x y : Z) (mv : Move) :
  game_inv g →
  selected g = Some (start mv) →
  mv ∈ generate_moves (game_board g) (human_color g) →
  TILE_SIZE * (end_ mv).2 ≤ x < TILE_SIZE * ((end_ mv).2 + 1) →
  TILE_SIZE * (end_ mv).1 ≤ y < TILE_SIZE * ((end_ mv).1 + 1) →
  ∃ b', move_piece (game_board g) mv = Some b'
        ∧ _handle_click g (x, y)
          = Some (mkGame b' (human_color g) (ai_color g) None [] (running g)).
Proof.
  intros (Hwf & Hai & Hinv) Hsel Hgen Hx Hy. rewrite Hsel in Hinv.
  destruct (start mv) as [sr sc] eqn:Hstart.
  destruct Hinv as (Hturn & _ & Hlegal).
  pose proof Hgen as Hgen'. rewrite <-Hturn in Hgen'.
  destruct (generated_played _ mv Hwf Hgen') as (b' & Hmp & _).
  exists b'. split; [done|]. unfold _handle_click. simpl.
  rewrite (tile_of_pixel x _ Hx), (tile_of_pixel y _ Hy).
  rewrite bool_decide_eq_false_2 by (by intros ?). rewrite Hsel.
  assert (mv ∈ legal_moves_from_selected g) as Hmv.
  { rewrite Hlegal. by apply elem_of_moves_from. }
  destruct (first_move_to _ _ _) as [m|] eqn:Hfind.
  - apply first_move_to_Some in Hfind as [Hm Hend]. rewrite Hlegal in Hm.
    apply elem_of_moves_from in Hm as [Hm Hms].
    assert (m = mv) as ->.
    { apply (generate_moves_same_squares (game_board g) (human_color g));
        [done|done|congruence|]. rewrite Hend. by destruct (end_ mv). }
    by rewrite Hmp.
  - exfalso. apply (first_move_to_None _ _ _ Hfind mv Hmv). by destruct (end_ mv).
Qed.

Lemma X17_click_on_destination_plays_move_witness :
  let g := mkGame initial_board White Black (Some (6, 4))
             (moves_from initial_board White 6 4) true in
  let mv := mkMove (6, 4) (4, 4) None in
  ∃ b', move_piece (game_board g) mv = Some b'
        ∧ _handle_click g (330, 330)
          = Some (mkGame b' (human_color g) (ai_color g) None [] (running g)).
Proof.
  apply (X17_click_on_destination_plays_move
           (mkGame initial_board White Black (Some (6, 4))
              (moves_from initial_board White 6 4) true)
           330 330 (mkMove (6, 4) (4, 4) None)).
  - split; [split; [reflexivity|repeat constructor]|].
    split; [reflexivity|]. simpl.
    split; [reflexivity|]. split; [|reflexivity].
    exists (mkPiece White Pawn). split; reflexivity.
  - reflexivity.
  - apply (bool_decide_unpack _). vm_compute. exact I.
  - change TILE_SIZE with 80. simpl. lia.
  - change TILE_SIZE with 80. simpl. lia.
Defined.

(** X18.  One round of the loop of [run] (the events of a frame, then the
    AI) raises nothing and keeps the invariant.  It plays at most two plies:
    at most one move of the human, however many clicks the frame holds, and
    at most one reply of the AI.  After it the human is to move, unless the
    AI is to move and has no move. *)
Theorem X18_frame_plays_at_most_two_plies (evs : list event) (g : Game) :
  game_inv g →
  ∃ g', frame evs g = Some g'
        ∧ game_inv g'
        ∧ human_color g' = human_color g
        ∧ ai_color g' = ai_color g
        ∧ (running g' = true → running g = true)
        ∧ (to_move (game_board g') = human_color g
           ∨ (to_move (game_board g') = ai_color g
              ∧ generate_moves (game_board g') (ai_color g) = []))
        ∧ (game_board g' = game_board g
           ∨ played (game_board g) (game_board g')
           ∨ ∃ b1, played (game_board g) b1 ∧ played b1 (game_board g')).
Proof. apply frame_spec. Qed.

Lemma X18_frame_plays_at_most_two_plies_witness :
  let evs := [MOUSEBUTTONDOWN 1 (330, 500); MOUSEBUTTONDOWN 1 (330, 330)] in
  ∃ g', frame evs new_game = Some g'
        ∧ game_inv g'
        ∧ human_color g' = human_color new_game
        ∧ ai_color g' = ai_color new_game
        ∧ (running g' = true → running new_game = true)
        ∧ (to_move (game_board g') = human_color new_game
           ∨ (to_move (game_board g') = ai_color new_game
              ∧ generate_moves (game_board g') (ai_color new_game) = []))
        ∧ (game_board g' = game_board new_game
           ∨ played (game_board new_game) (game_board g')
           ∨ ∃ b1, played (game_board new_game) b1 ∧ played b1 (game_board g')).
Proof.
  apply (X18_frame_plays_at_most_two_plies
           [MOUSEBUTTONDOWN 1 (330, 500); MOUSEBUTTONDOWN 1 (330, 330)] new_game).
  split; [split; [reflexivity|repeat constructor]|].
  split; reflexivity.
Defined.

(** X19.  [run] never returns, and over any sequence of frames the only
    exception that comes out of it is the [SystemExit] of [sys.exit(0)],
    raised once [running] is off: no round of the loop raises.  As long as
    [running] is on the loop goes on.  The board reached, either way, comes
    from the board [run] started with by plies only: each change of the board
    is [move_piece] with a move generated for the side then to move. *)
Theorem X19_run_plays_generated_moves_only (frames : list (list event)) (g : Game) :
  game_inv g →
  ∃ g', (run frames g = SystemExit g' ∧ running g' = false
         ∨ run frames g = StillRunning g' ∧ running g' = true)
        ∧ game_inv g'
        ∧ plies (game_board g) (game_board g').
Proof.
  intros Hinv. destruct (run_spec frames g Hinv) as (g' & ? & ? & _ & _ & ?).
  by exists g'.
Qed.

Lemma X19_run_plays_generated_moves_only_witness :
  let frames := [[MOUSEBUTTONDOWN 1 (330, 500)];
                 [MOUSEBUTTONDOWN 1 (330, 330)]; [QUIT]] in
  ∃ g', (run frames new_game = SystemExit g' ∧ running g' = false
         ∨ run frames new_game = StillRunning g' ∧ running g' = true)
        ∧ game_inv g'
        ∧ plies (game_board new_game) (game_board g').
Proof.
  apply (X19_run_plays_generated_moves_only
           [[MOUSEBUTTONDOWN 1 (330, 500)]; [MOUSEBUTTONDOWN 1 (330, 330)]; [QUIT]]
           new_game).
  split; [split; [reflexivity|repeat constructor]|].
  split; reflexivity.
Defined.

(** X20.  When the side to move has no generated move, the game is stuck
    for good: whatever events arrive, the board [run] has when it raises
    [SystemExit], or when the frames are used up, is the board it started
    with (the controller announces no result and passes no turn). *)
Theorem X20_run_stuck_without_moves (frames : list (list event)) (g : Game) :
  game_inv g →
  generate_moves (game_board g) (to_move (game_board g)) = [] →
  ∃ g', (run frames g = SystemExit g' ∨ run frames g = StillRunning g')
        ∧ game_board g' = game_board g.
Proof.
  intros Hinv Hnone.
  destruct (run_spec frames g Hinv) as (g' & Hout & _ & _ & _ & Hp).
  exists g'. split; [|by apply plies_stuck].
  destruct Hout as [[? _]|[? _]]; [by left|by right].
Qed.

(** The human clicks on the blocked white pawn, then on the square ahead of
    it, then closes the window. *)
Lemma X20_run_stuck_without_moves_witness :
  let g := mkGame (blocked_pawns_board White) White Black None [] true in
  let frames := [[MOUSEBUTTONDOWN 1 (10, 330)];
                 [MOUSEBUTTONDOWN 1 (10, 250)]; [QUIT]] in
  ∃ g', (run frames g = SystemExit g' ∨ run frames g = StillRunning g')
        ∧ game_board g' = game_board g.
Proof.
  apply (X20_run_stuck_without_moves
           [[MOUSEBUTTONDOWN 1 (10, 330)]; [MOUSEBUTTONDOWN 1 (10, 250)]; [QUIT]]
           (mkGame (blocked_pawns_board White) White Black None [] true)).
  - split; [split; [reflexivity|repeat constructor]|].
    split; reflexivity.
  - reflexivity.
Defined.

(** X21.  The frame in which [QUIT] arrives is played to its end and is the
    last one: the clicks that follow [QUIT] among its events are still
    handled and the AI still replies; [running] is off afterwards; [run] then
    leaves the loop and raises [SystemExit] in the state that frame produced,
    and the events of later frames are not looked at. *)
Theorem X21_run_ends_after_quit_frame (evs : list event)
    (frames : list (list event)) (g : Game) :
  running g = true →
  QUIT ∈ evs →
  run (evs :: frames) g
  = match frame evs g with
    | Some g' => SystemExit g'
    | None => Raised
    end
  ∧ ∀ g', frame evs g = Some g' → running g' = false.
Proof.
  intros Hon Hq.
  assert (∀ g', frame evs g = Some g' → running g' = false) as Hoff.
  { intros g'. unfold frame.
    destruct (_handle_events evs g) as [g1|] eqn:Hev; simpl; [|done].
    intros Hai. rewrite (ai_turn_running g1 g' Hai).
    by apply (handle_events_quit evs g). }
  split; [|done]. simpl. rewrite Hon.
  destruct (frame evs g) as [g'|] eqn:Hf; [|done].
  destruct frames; simpl; by rewrite (Hoff g' eq_refl).
Qed.

Lemma X21_run_ends_after_quit_frame_witness :
  let evs := [MOUSEBUTTONDOWN 1 (330, 500); QUIT; MOUSEBUTTONDOWN 1 (330, 330)] in
  let frames := [[MOUSEBUTTONDOWN 1 (330, 500)]] in
  run (evs :: frames) new_game
  = match frame evs new_game with
    | Some g' => SystemExit g'
    | None => Raised
    end
  ∧ ∀ g', frame evs new_game = Some g' → running g' = false.
Proof.
  apply (X21_run_ends_after_quit_frame
           [MOUSEBUTTONDOWN 1 (330, 500); QUIT; MOUSEBUTTONDOWN 1 (330, 330)]
           [[MOUSEBUTTONDOWN 1 (330, 500)]] new_game).
  - reflexivity.
  - right. left.
Defined.

(** ** The AI as a greedy player *)

Lemma material_score_gain b col mv w :
  wf_board b → mv ∈ generate_moves b col →
  material_score b mv = Some w →
  side_sign col * (w - material b) = gain b mv.
Proof.
  intros Hwf Hmv. unfold material_score. rewrite clone_id.
  destruct (generated_move_gain b col mv Hwf Hmv) as (b' & -> & Hgain & _).
  simpl. by intros [= <-].
Qed.

(** X22.  Whatever its colour, [choose_move] plays greedily: the move it
    returns is a generated move that either is a safe capture, or wins the
    most material of all generated moves (the value of the piece taken, plus
    8 for a promotion) and is the first to do so in the order of
    [generate_moves].  The two branches of the second loop, maximum for White
    and minimum for Black, are this one rule. *)
Theorem X22_choose_move_is_greedy (b : Board) (col : Color) (mv : Move) :
  wf_board b →
  choose_move col b = Some (Some mv) →
  (∃ val, mv ∈ generate_moves b col ∧ safe_capture col b mv val)
  ∨ ∃ i : nat,
      generate_moves b col !! i = Some mv
      ∧ ∀ (j : nat) mv',
          generate_moves b col !! j = Some mv' →
          gain b mv' ≤ gain b mv ∧ ((j < i)%nat → gain b mv' < gain b mv).
Proof.
  intros Hwf. rewrite choose_move_selects by done.
  destruct (generate_moves b col) as [|mv0 rest] eqn:Hmoves; [done|].
  rewrite <-Hmoves.
  pose proof (select_inv_foldl (capture_score col b) true (generate_moves b col))
    as Hinv1.
  destruct (foldl (select_step (capture_score col b) true) _ _) as [[m|] e1];
    simpl in *.
  { intros [= ->]. left. destruct e1 as [|val|]; try done.
    destruct Hinv1 as (i & Hi & Hmv & _). exists val.
    split; [by eapply list_elem_of_lookup_2|by apply capture_score_safe]. }
  clear Hinv1.
  pose proof (select_inv_foldl (material_score b) (bool_decide (col = White))
                (generate_moves b col)) as Hinv2.
  destruct (foldl (select_step (material_score b) _) _ _) as [[m|] e2];
    simpl in *.
  - intros [= ->]. right. destruct e2 as [|v|]; try done.
    destruct Hinv2 as (i & Hi & Hmv & Hbest). exists i. split; [done|].
    intros j mv' Hj.
    pose proof (list_elem_of_lookup_2 _ _ _ Hi) as Hin.
    pose proof (list_elem_of_lookup_2 _ _ _ Hj) as Hin'.
    destruct (simulate_generated b col mv' Hwf Hin') as (sim' & Hsim' & _).
    assert (material_score b mv' = Some (material sim')) as Hw.
    { unfold material_score. by rewrite Hsim'. }
    pose proof (material_score_gain b col mv v Hwf Hin Hmv) as Hg.
    pose proof (material_score_gain b col mv' _ Hwf Hin' Hw) as Hg'.
    specialize (Hbest j mv' _ Hj Hw). unfold no_worse, worse, side_sign in *.
    destruct col; simpl in *; lia.
  - destruct Hinv2 as [_ Hnone].
    assert (mv0 ∈ generate_moves b col) as Hin by (rewrite Hmoves; left).
    destruct (simulate_generated b col mv0 Hwf Hin) as (sim & Hsim & _).
    specialize (Hnone mv0 Hin). unfold material_score in Hnone.
    by rewrite Hsim in Hnone.
Qed.

Lemma X22_choose_move_is_greedy_witness :
  let b := rook_and_pawn_board in
  let mv := mkMove (4, 0) (4, 3) None in
  (∃ val, mv ∈ generate_moves b White ∧ safe_capture White b mv val)
  ∨ ∃ i : nat,
      generate_moves b White !! i = Some mv
      ∧ ∀ (j : nat) mv',
          generate_moves b White !! j = Some mv' →
          gain b mv' ≤ gain b mv ∧ ((j < i)%nat → gain b mv' < gain b mv).
Proof.
  apply (X22_choose_move_is_greedy rook_and_pawn_board White
           (mkMove (4, 0) (4, 3) None)).
  - split; [reflexivity|repeat constructor].
  - reflexivity.
Defined.

(** ** [move_piece] on a board object *)

Lemma set_out_of_range B r c o :
  wf_board B → ¬ (-8 ≤ r < 8 ∧ -8 ≤ c < 8) → set B r c o = None.
Proof.
  intros Hwf Hout. rewrite (set_wraps B r c o Hwf).
  by rewrite bool_decide_eq_false_2.
Qed.

Lemma set_in_range B r c o :
  wf_board B → -8 ≤ r < 8 ∧ -8 ≤ c < 8 → is_Some (set B r c o).
Proof.
  intros Hwf Hin. rewrite (set_wraps B r c o Hwf).
  rewrite bool_decide_eq_true_2 by done.
  assert (in_bounds (r `mod` 8) (c `mod` 8) = true) as Hb.
  { apply in_bounds_true. unfold ROWS, COLS.
    pose proof (Z.mod_pos_bound r 8). pose proof (Z.mod_pos_bound c 8). lia. }
  destruct (set_in_bounds B _ _ o Hwf Hb) as (B' & -> & _). by eexists.
Qed.

(** [set] with an index out of range raises and writes nothing. *)
Lemma set_h_raises h b s B r c v o :
  repr h b s B → wf_board B → piece_repr h v o →
  ¬ (-8 ≤ r < 8 ∧ -8 ≤ c < 8) →
  set_h b r c v h = (Raises, h).
Proof.
  intros Hrepr Hwf Hvo Hout.
  destruct (set_h_repr h b s B r c v o Hrepr Hvo)
    as (res & h' & s' & B' & Hset & _ & _ & _ & _ & _ & _ & Hres).
  rewrite (set_out_of_range B r c o Hwf Hout) in Hres.
  destruct Hres as [[_ ?]|(-> & _ & -> & _)]; [done|]. exact Hset.
Qed.

(** The second write of [move_piece] with an end index out of range: it
    raises; a promotion has allocated its queen by then, which changes
    nothing on the board. *)
Lemma place_h_raises h b s B (mv : Move) er ec piece o :
  repr h b s B → wf_board B → piece_repr h piece o →
  ¬ (-8 ≤ er < 8 ∧ -8 ≤ ec < 8) →
  ∃ h',
    (match promotion mv, piece with
     | Some k, VRef _ =>
         pk ← piece_kind piece;
         if decide (pk = Pawn) then
           pc ← piece_color piece;
           promoted ← alloc (OPiece pc k);
           set_h b er ec (VRef promoted)
         else set_h b er ec piece
     | _, _ => set_h b er ec piece
     end) h = (Raises, h')
    ∧ repr h' b s B.
Proof.
  intros Hrepr Hwf Hpo Hout.
  destruct (promotion mv) as [k|];
    [|exists h; split; [by eapply set_h_raises|done]].
  destruct piece as [|l].
  { exists h. split; [by eapply set_h_raises|done]. }
  destruct o as [p|]; [|done]. simpl in Hpo.
  rewrite (bind_Returns _ _ h _ h (piece_kind_repr h l p Hpo)).
  destruct (decide (kind p = Pawn)) as [Hk|Hk];
    [|exists h; split;
      [by apply (set_h_raises h b s B er ec (VRef l) (Some p))|done]].
  rewrite (bind_Returns _ _ h _ h (piece_color_repr h l p Hpo)).
  rewrite (bind_Returns _ _ h (length h) (h ++ [OPiece (color p) k])) by done.
  exists (h ++ [OPiece (color p) k]). split; [|by apply repr_extend].
  apply (set_h_raises _ b s B er ec (VRef (length h))
           (Some (mkPiece (color p) k))); [by apply repr_extend|done| |done].
  simpl. by rewrite lookup_app_r, Nat.sub_diag by lia.
Qed.

(** X23.  [move_piece] on a board object does what [move_piece] does on
    the value the object holds, returning or raising alike.  Either way the
    object is a board afterwards, with the outer list and the row lists it
    had; of the objects that existed, only the board object and its row lists
    are written (no [Piece] is modified, no other board is touched); the
    pieces on the board are pieces that were on it or, for a promotion, a new
    object. *)
Theorem X23_move_piece_writes_only_its_board (h : heap) (b : loc) (s : shape)
    (B : Board) (mv : Move) :
  repr h b s B →
  wf_board B →
  ∃ res h' s' B',
    move_piece_h b mv h = (res, h')
    ∧ repr h' b s' B'
    ∧ wf_board B'
    ∧ board_step h b s h' s'
    ∧ ((res = Returns () ∧ move_piece B mv = Some B')
       ∨ (res = Raises ∧ move_piece B mv = None)).
Proof. apply move_piece_h_repr. Qed.

Lemma X23_move_piece_writes_only_its_board_witness :
  ∃ res h' s' B',
    move_piece_h 9 (mkMove (6, 4) (4, 4) None) initial_store = (res, h')
    ∧ repr h' 9 s' B'
    ∧ wf_board B'
    ∧ board_step initial_store 9 initial_shape h' s'
    ∧ ((res = Returns ()
        ∧ move_piece initial_board (mkMove (6, 4) (4, 4) None) = Some B')
       ∨ (res = Raises
          ∧ move_piece initial_board (mkMove (6, 4) (4, 4) None) = None)).
Proof.
  apply (X23_move_piece_writes_only_its_board initial_store 9 initial_shape
           initial_board (mkMove (6, 4) (4, 4) None)).
  - split; [reflexivity|]. split; [reflexivity|]. split.
    { apply (bool_decide_unpack _). vm_compute. exact I. }
    split; repeat constructor.
  - split; [reflexivity|repeat constructor].
Defined.

(** X24.  [move_piece] is not atomic.  When the start indices are in
    [-8, 8) and an end index is not, the call raises [IndexError] after it
    has emptied the start square: the board object then holds the old board
    with that square set to [None], and the side to move is not changed. *)
Theorem X24_move_piece_raises_after_clearing_start (h : heap) (b : loc)
    (s : shape) (B : Board) (mv : Move) :
  repr h b s B →
  wf_board B →
  -8 ≤ (start mv).1 < 8 ∧ -8 ≤ (start mv).2 < 8 →
  ¬ (-8 ≤ (end_ mv).1 < 8 ∧ -8 ≤ (end_ mv).2 < 8) →
  ∃ h' B1,
    move_piece_h b mv h = (Raises, h')
    ∧ set B (start mv).1 (start mv).2 None = Some B1
    ∧ view h' b = Some B1
    ∧ to_move B1 = to_move B.
Proof.
  intros Hrepr Hwf Hstart Hend. unfold move_piece_h.
  destruct (start mv) as [sr sc], (end_ mv) as [er ec]. simpl in *.
  destruct (get_h_repr h b s B sr sc Hrepr Hwf) as (piece & Hget & Hpiece & Hploc).
  rewrite (bind_Returns _ _ h _ h Hget).
  destruct (set_h_step h s h b s B sr sc VNone None (board_step_refl h b s) Hrepr I)
    as (res1 & h1 & s1 & B1 & Hset1 & Hrepr1 & Hwf1 & Htm1 & Hstep1 & Hout1);
    [done|].
  destruct (set_in_range B sr sc None Hwf Hstart) as [B1' HB1'].
  destruct Hout1 as [[-> HB1]|[_ HB1]]; [|congruence].
  rewrite (bind_Returns _ _ h _ h1 Hset1).
  assert (piece_repr h1 piece (get B sr sc)) as Hpiece1.
  { destruct piece as [|l], (get B sr sc) as [p|]; simpl in *; try done.
    exact (piece_loc_frame h b s B h1 s1 l _ _ Hrepr Hstep1 Hpiece). }
  destruct (place_h_raises h1 b s1 B1 mv er ec piece (get B sr sc)
              Hrepr1 (Hwf1 Hwf) Hpiece1 Hend) as (h2 & Hplace & Hrepr2).
  rewrite (bind_Raises _ _ h1 h2 Hplace).
  exists h2, B1. split; [done|]. split; [done|].
  split; [by eapply repr_view|done].
Qed.

Lemma X24_move_piece_raises_after_clearing_start_witness :
  ∃ h' B1,
    move_piece_h 9 (mkMove (6, 4) (8, 4) None) initial_store = (Raises, h')
    ∧ set initial_board 6 4 None = Some B1
    ∧ view h' 9 = Some B1
    ∧ to_move B1 = to_move initial_board.
Proof.
  apply (X24_move_piece_raises_after_clearing_start initial_store 9
           initial_shape initial_board (mkMove (6, 4) (8, 4) None)).
  - split; [reflexivity|]. split; [reflexivity|]. split.
    { apply (bool_decide_unpack _). vm_compute. exact I. }
    split; repeat constructor.
  - split; [reflexivity|repeat constructor].
  - simpl. lia.
  - simpl. lia.
Defined.

(** ** [Board()] in any store *)

Lemma alloc_app h k o :
  alloc o (h ++ k) = (Returns (length h + length k)%nat, h ++ (k ++ [o])).
Proof. unfold alloc. by rewrite length_app, <-app_assoc. Qed.

Lemma load_app h k i :
  load (length h + i) (h ++ k)
  = match k !! i with
    | Some o => (Returns o, h ++ k)
    | None => (Raises, h ++ k)
    end.
Proof.
  unfold load. rewrite lookup_app_r by lia.
  by replace (length h + i - length h)%nat with i by lia.
Qed.

Lemma store_app h k i o :
  store (length h + i) o (h ++ k) = (Returns (), h ++ <[i := o]> k).
Proof. unfold store. by rewrite insert_app_r. Qed.

Lemma new_empty_row_app h k :
  new_empty_row (h ++ k)
  = (Returns (VRef (length h + length k)), h ++ (k ++ [OList (replicate 8 VNone)])).
Proof.
  unfold new_empty_row. by rewrite (bind_Returns _ _ _ _ _ (alloc_app h k _)).
Qed.

Lemma mapM_alloc_app {A} (f : A → obj) (l : list A) h k :
  mapM (λ x, a ← alloc (f x); mret (VRef a)) l (h ++ k)
  = (Returns ((λ i, VRef (length h + (length k + i))) <$> seq 0 (length l)),
     h ++ (k ++ (f <$> l))).
Proof.
  revert k. induction l as [|x l IH]; intros k.
  { rewrite mapM_nil_M. simpl. by rewrite app_nil_r. }
  rewrite mapM_cons_M.
  rewrite (bind_Returns _ _ (h ++ k) (VRef (length h + length k)) (h ++ (k ++ [f x]))).
  2:{ by rewrite (bind_Returns _ _ _ _ _ (alloc_app h k _)). }
  rewrite (bind_Returns _ _ _ _ _ (IH _)). simpl.
  unfold mret, M_ret. f_equal.
  - f_equal. f_equal; [f_equal; lia|]. rewrite <-fmap_S_seq, <-list_fmap_compose.
    apply list_fmap_ext. intros _ i _. simpl. f_equal.
    rewrite length_app. simpl. lia.
  - by rewrite <-app_assoc.
Qed.

Lemma new_pieces_app col kinds h k :
  new_pieces col kinds (h ++ k)
  = (Returns (VRef (length h + (length k + length kinds))),
     h ++ (k ++ (OPiece col <$> kinds)
             ++ [OList ((λ i, VRef (length h + (length k + i)))
                          <$> seq 0 (length kinds))])).
Proof.
  unfold new_pieces.
  rewrite (bind_Returns _ _ _ _ _ (mapM_alloc_app (OPiece col) kinds h k)).
  rewrite (bind_Returns _ _ _ _ _ (alloc_app h _ _)).
  unfold mret, M_ret. rewrite length_app, length_fmap, <-app_assoc. done.
Qed.

Lemma setitem_app h k g i n v items :
  k !! g = Some (OList items) →
  py_index (length items) i = Some n →
  setitem (VRef (length h + g)) i v (h ++ k)
  = (Returns (), h ++ <[g := OList (<[n := v]> items)]> k).
Proof.
  intros Hg Hi. unfold setitem, list_items.
  rewrite (bind_Returns _ _ (h ++ k) items (h ++ k)).
  2:{ rewrite (bind_Returns _ _ (h ++ k) (OList items) (h ++ k)); [done|].
      by rewrite load_app, Hg. }
  rewrite Hi. apply store_app.
Qed.

Lemma set_to_move_app h k b g tm c :
  k !! b = Some (OBoard g tm) →
  set_to_move (length h + b) c (h ++ k) = (Returns (), h ++ <[b := OBoard g c]> k).
Proof.
  intros Hb. unfold set_to_move.
  rewrite (bind_Returns _ _ (h ++ k) (OBoard g tm) (h ++ k)).
  2:{ by rewrite load_app, Hb. }
  apply store_app.
Qed.

Lemma bind_bind_M {A B C} (m : M A) (f : A → M B) (g : B → M C) h :
  ((m ≫= f) ≫= g) h = (m ≫= λ x, f x ≫= g) h.
Proof. unfold mbind, M_bind. by destruct (m h) as [[a|] h']. Qed.

Lemma mret_bind_M {A B} (a : A) (k : A → M B) h : (mret a ≫= k) h = k a h.
Proof. done. Qed.

Section relocation.
Local Arguments setitem : simpl never.
Local Arguments new_pieces : simpl never.
Local Arguments new_empty_row : simpl never.
Local Arguments set_to_move : simpl never.

Lemma new_board_h_app h :
  new_board_h h
  = (Returns (length h + 9)%nat, h ++ (shift_obj (length h) <$> initial_store)).
Proof.
  rewrite <-(app_nil_r h) at 1. unfold new_board_h.
  change (range ROWS) with [0; 1; 2; 3; 4; 5; 6; 7].
  change (seqZ 2 4) with [2; 3; 4; 5].
  rewrite (bind_Returns _ _ _ _ _
             (mapM_alloc_app (λ _ : Z, OList (replicate 8 VNone)) _ h [])).
  simpl.
  rewrite (bind_Returns _ _ _ _ _ (alloc_app h _ _)). simpl.
  rewrite (bind_Returns _ _ _ _ _ (alloc_app h _ _)). simpl.
  repeat
    (first [ rewrite bind_bind_M
           | rewrite mret_bind_M
           | rewrite (bind_Returns _ _ _ _ _ (new_pieces_app _ _ h _))
           | rewrite (bind_Returns _ _ _ _ _ (new_empty_row_app h _))
           | erewrite bind_Returns; [|apply setitem_app; reflexivity]
           | erewrite bind_Returns; [|eapply set_to_move_app; reflexivity] ];
     simpl).
  reflexivity.
Qed.
End relocation.

Lemma lookup_shifted h k l :
  (h ++ (shift_obj (length h) <$> k)) !! (length h + l)%nat
  = shift_obj (length h) <$> k !! l.
Proof.
  rewrite lookup_app_r by lia.
  replace (length h + l - length h)%nat with l by lia.
  by rewrite list_lookup_fmap.
Qed.

Lemma repr_shifted h k b s B :
  repr k b s B →
  repr (h ++ (shift_obj (length h) <$> k)) (length h + b)
    (shift_shape (length h) s) B.
Proof.
  intros (Hb & Hg & Hnd & Hrows & Hitems). split; [|split; [|split; [|split]]].
  - rewrite lookup_shifted, Hb. done.
  - simpl. rewrite lookup_shifted, Hg. simpl. f_equal. f_equal.
    rewrite <-!list_fmap_compose. done.
  - simpl. apply NoDup_fmap; [|done]. intros x y. lia.
  - simpl. apply Forall2_fmap. eapply Forall2_impl; [|exact Hrows].
    intros rl items Hrl. simpl. by rewrite lookup_shifted, Hrl.
  - simpl. apply Forall2_fmap_l. eapply Forall2_impl; [|exact Hitems].
    intros items row Hrow. apply Forall2_fmap_l.
    eapply Forall2_impl; [|exact Hrow].
    intros [|l] [p|]; simpl; try done. intros Hl. by rewrite lookup_shifted, Hl.
Qed.

Lemma footprint_shifted n b s l :
  l ∈ footprint (n + b) (shift_shape n s) → (n ≤ l)%nat.
Proof.
  unfold footprint. rewrite !elem_of_cons, elem_of_app. simpl.
  intros [->|[->|[Hl|Hl]]]; [lia|lia| |].
  - apply list_elem_of_fmap in Hl as (l0 & -> & _). lia.
  - apply elem_of_piece_locs in Hl as (items & Hitems & Hl). simpl in Hitems.
    apply list_elem_of_fmap in Hitems as (items0 & -> & _).
    apply list_elem_of_fmap in Hl as ([|l0] & Hv & _); [done|].
    injection Hv as ->. lia.
Qed.

(** X25.  [Board()] in any store raises nothing and keeps every object of
    the store as it was.  It returns a new board object that holds the
    initial position: 8x8, White to move, material 0.  The board, its outer
    list, its rows and its pieces are all new objects. *)
Theorem X25_new_board_is_fresh_initial_position (h : heap) :
  ∃ b s k,
    new_board_h h = (Returns b, h ++ k)
    ∧ repr (h ++ k) b s initial_board
    ∧ view (h ++ k) b = Some initial_board
    ∧ (∀ l, l ∈ footprint b s → (length h ≤ l)%nat)
    ∧ wf_board initial_board
    ∧ material initial_board = 0.
Proof.
  exists (length h + 9)%nat, (shift_shape (length h) initial_shape),
    (shift_obj (length h) <$> initial_store).
  pose proof (repr_shifted h _ _ _ _ initial_store_repr) as Hrepr.
  split; [apply new_board_h_app|]. split; [done|].
  split; [by eapply repr_view|]. split; [apply footprint_shifted|].
  split; [apply initial_board_wf|done].
Qed.

(** ** The attack oracle against the move generator *)

(** A piece that attacks a square it may land on has a move that ends
    there; for a pawn the square has to be occupied. *)
Lemma attacks_piece_move b r c p er ec :
  in_bounds r c = true →
  may_land b (color p) er ec →
  attacks b p r c er ec →
  kind p ≠ Pawn ∨ get b er ec ≠ None →
  ∃ mv, mv ∈ _piece_moves b r c p ∧ end_ mv = (er, ec).
Proof.
  intros Hin Hland Hat Hcap. unfold attacks, _piece_moves in *.
  destruct (kind p) eqn:Hk.
  - exists (mkMove (r, c) (er, ec) None). split; [|done].
    apply (offset_moves_elem b r c (color p) KING_OFFSETS). simpl.
    split; [done|]. split; [done|]. split; [done|]. apply king_offsets_iff. lia.
  - exists (mkMove (r, c) (er, ec) None). split; [|done].
    by apply (slider_moves_elem b r c (color p) Queen).
  - exists (mkMove (r, c) (er, ec) None). split; [|done].
    by apply (slider_moves_elem b r c (color p) Rook).
  - exists (mkMove (r, c) (er, ec) None). split; [|done].
    by apply (slider_moves_elem b r c (color p) Bishop).
  - exists (mkMove (r, c) (er, ec) None). split; [|done].
    apply (offset_moves_elem b r c (color p) KNIGHT_OFFSETS). simpl.
    split; [done|]. split; [done|]. split; [done|]. apply knight_offsets_iff. lia.
  - destruct Hcap as [?|Hocc]; [done|].
    destruct (get b er ec) as [q|] eqn:Hq; [|done].
    destruct Hland as [_ Hland]. specialize (Hland q Hq).
    destruct Hat as [Hr Hc].
    exists (mkMove (r, c) (er, ec)
              (if bool_decide (er = promotion_row (color p))
               then Some Queen else None)).
    split; [|done]. apply pawn_moves_elem; [done|]. simpl.
    split; [done|]. split; [done|]. right. right.
    exists (ec - c). unfold pawn_dir. split; [lia|].
    split; [f_equal; lia|]. exists q. split; [|done].
    rewrite <-Hr. by replace (c + (ec - c)) with ec by lia.
Qed.

Lemma attacked_iff_capturable b r c col q :
  get b r c = Some q → color q ≠ col →
  is_square_attacked b r c col = true ↔
  ∃ mv, mv ∈ generate_moves b col ∧ end_ mv = (r, c).
Proof.
  intros Hq Hqc.
  assert (in_bounds r c = true) as Hin by (by eapply get_Some_in_bounds).
  rewrite is_square_attacked_attacks by done. split.
  - intros (rr & cc & p & Hp & Hc & Hat).
    assert (in_bounds rr cc = true) as Hin' by (by eapply get_Some_in_bounds).
    destruct (attacks_piece_move b rr cc p r c Hin') as (mv & Hmv & Hend);
      [|done| |].
    + split; [done|]. intros q' Hq'. congruence.
    + right. congruence.
    + exists mv. split; [|done]. apply elem_of_generate_moves.
      by exists rr, cc, p.
  - intros (mv & Hmv & Hend).
    destruct (generated_move_facts b col mv Hmv)
      as (p & Hp & Hc & Hs & He & _ & _ & Hpm).
    exists (start mv).1, (start mv).2, p. split; [done|]. split; [done|].
    pose proof (piece_move_attacks b _ _ p mv Hs Hpm) as Hat.
    rewrite Hend in Hat. simpl in Hat. apply Hat. right. congruence.
Qed.

(** X26.  The attack oracle and the move generator agree on occupied
    squares: a piece is attacked by the other colour, as
    [is_square_attacked] has it, exactly when some generated move of that
    colour ends on its square. *)
Theorem X26_attacked_piece_iff_capturable (b : Board) (r c : Z) (col : Color)
    (q : Piece) :
  wf_board b →
  get b r c = Some q →
  color q ≠ col →
  is_square_attacked b r c col = true ↔
  ∃ mv, mv ∈ generate_moves b col ∧ end_ mv = (r, c).
Proof. intros _. apply attacked_iff_capturable. Qed.

Lemma X26_attacked_piece_iff_capturable_witness :
  is_square_attacked rook_and_pawn_board 4 3 White = true ↔
  ∃ mv, mv ∈ generate_moves rook_and_pawn_board White ∧ end_ mv = (4, 3).
Proof.
  apply (X26_attacked_piece_iff_capturable rook_and_pawn_board 4 3 White
           (mkPiece Black Pawn)).
  - split; [reflexivity|repeat constructor].
  - reflexivity.
  - discriminate.
Defined.

(** X27.  What the first loop of [choose_move] tests: a generated move
    onto a piece is a safe capture exactly when, on the board after the
    move, no move generated for the other colour ends on the square of the
    capture, that is, when the capturing piece cannot be taken back at
    once. *)
Theorem X27_safe_capture_iff_no_recapture (b : Board) (col : Color) (mv : Move)
    (target : Piece) :
  wf_board b →
  mv ∈ generate_moves b col →
  get b (end_ mv).1 (end_ mv).2 = Some target →
  ∃ sim,
    move_piece b mv = Some sim
    ∧ (safe_capture col b mv (PIECE_VALUES (kind target))
       ↔ ∀ mv', mv' ∈ generate_moves sim (other col) → end_ mv' ≠ end_ mv).
Proof.
  intros Hwf Hmv Htarget.
  destruct (generated_move_facts b col mv Hmv)
    as (p & Hp & Hc & Hs & He & Hend & _ & _).
  assert (color target = other col) as Htc.
  { destruct Hend as [?|(q & Hq & Hqc)]; [congruence|].
    apply color_ne_other. congruence. }
  destruct (move_piece_in_bounds b mv Hwf Hs He) as (sim & Hsim & _ & _ & Hget).
  exists sim. split; [done|].
  assert (∃ p', get sim (end_ mv).1 (end_ mv).2 = Some p' ∧ color p' = col)
    as (p' & Hp' & Hc').
  { rewrite Hget, bool_decide_eq_true_2 by done. unfold placed. rewrite Hp.
    destruct (promotion mv) as [k|]; [case_decide|]; eauto. }
  assert (color p' ≠ other col) as Hne.
  { rewrite Hc'. intros Heq. by apply (other_ne col). }
  pose proof (attacked_iff_capturable sim _ _ (other col) p' Hp' Hne) as Hiff.
  unfold safe_capture. rewrite clone_id. split.
  - intros (target' & sim' & _ & _ & Hsim' & Hfree & _) mv' Hmv' Hend'.
    assert (sim' = sim) as -> by congruence.
    rewrite (proj2 Hiff) in Hfree; [done|]. exists mv'. split; [done|].
    rewrite Hend'. by destruct (end_ mv).
  - intros Hnone. exists target, sim. do 3 (split; [done|]). split; [|done].
    destruct (is_square_attacked sim _ _ (other col)) eqn:Hat; [|done].
    destruct (proj1 Hiff eq_refl) as (mv' & Hmv' & Hend').
    destruct (Hnone mv' Hmv').
    rewrite Hend'. by destruct (end_ mv).
Qed.

Lemma X27_safe_capture_iff_no_recapture_witness :
  let b := rook_and_pawn_board in
  let mv := mkMove (4, 0) (4, 3) None in
  ∃ sim,
    move_piece b mv = Some sim
    ∧ (safe_capture White b mv (PIECE_VALUES (kind (mkPiece Black Pawn)))
       ↔ ∀ mv', mv' ∈ generate_moves sim (other White) → end_ mv' ≠ end_ mv).
Proof.
  apply (X27_safe_capture_iff_no_recapture rook_and_pawn_board White
           (mkMove (4, 0) (4, 3) None) (mkPiece Black Pawn)).
  - split; [reflexivity|repeat constructor].
  - apply (bool_decide_unpack _). vm_compute. exact I.
  - reflexivity.
Defined.
